(** * The Target string/config engine of TVM (src/target/target.cc)

    A shallow embedding of the quoting and escaping primitives, the token
    splitter, the key/value flag parser, the type-directed value parser, the
    stringifier, the config assembler, the small member methods of a target
    and the thread-local context stack, followed by the properties the
    specification states about them and by further properties of the code.

    Conventions.
    - [std::string] and [tvm::String] are lists of characters, written
      with string literals through a coercion.
    - [tvm::Map<String, Any>] and [std::unordered_map<String, Any>] are
      finite maps [gmap std_string Any]: two maps with the same entries are
      equal, the iteration order is the (unspecified) order of
      [map_to_list].
    - Functions that throw return a [Result]. *)

From Stdlib Require Import ZArith Lia Ascii String DecimalString DecimalZ.
From stdpp Require Import gmap strings list fin_maps sorting.

#[local] Set Warnings "-register-all".
#[local] Open Scope Z_scope.
#[local] Open Scope list_scope.

(** ** Strings *)

Abbreviation std_string := (list ascii).

Coercion list_ascii_of_string : string >-> list.
Arguments list_ascii_of_string : simpl never.

(** [static constexpr char quote = '\''; escape = '\\';] *)
Definition quote : ascii := "'"%char.
Definition escape : ascii := "\"%char.
(** The double quote of the error messages. *)
Definition dquote : ascii := ascii_of_nat 34.

(** [s.find_first_of(c)]: index of the first [c], [None] for [npos]. *)
Fixpoint find_first_of (c : ascii) (s : std_string) : option nat :=
  match s with
  | [] => None
  | x :: s' => if Ascii.eqb x c then Some 0%nat else S <$> find_first_of c s'
  end.

(** [s.find_first_not_of(c)]. *)
Fixpoint find_first_not_of (c : ascii) (s : std_string) : option nat :=
  match s with
  | [] => None
  | x :: s' => if Ascii.eqb x c then S <$> find_first_not_of c s' else Some 0%nat
  end.

(** [s.find_last_not_of(c)]: the scan of [find_first_not_of] on the
    reversed string, with the index counted from the front. *)
Definition find_last_not_of (c : ascii) (s : std_string) : option nat :=
  (fun i => (length s - 1 - i)%nat) <$> find_first_not_of c (rev s).

(** [s.substr(pos, n)] for [pos <= s.size()], and [s.substr(pos)]. *)
Definition substr (s : std_string) (pos n : nat) : std_string := take n (drop pos s).
Definition substr_from (s : std_string) (pos : nat) : std_string := drop pos s.

(** [operator<] of strings: lexicographic on the character codes. *)
Fixpoint String_ltb (a b : std_string) : bool :=
  match a, b with
  | _, [] => false
  | [], _ :: _ => true
  | x :: a', y :: b' =>
      if (N_of_ascii x <? N_of_ascii y)%N then true
      else if (N_of_ascii y <? N_of_ascii x)%N then false
      else String_ltb a' b'
  end.

Definition String_le (a b : std_string) : Prop := String_ltb b a = false.

#[global] Instance String_le_dec : RelDecision String_le.
Proof. intros a b. unfold String_le. apply _. Defined.

(** ** Errors

    [Throw] is a [tvm::Error] with its kind and message (the traceback is
    left out), raised by [TVM_FFI_THROW] and caught by [catch (const Error&)].
    [OutOfFuel] is the outcome of a recursion cut off by the fuel of the
    model; the code has no such outcome. *)

Record Error := mkError { err_kind : std_string; err_message : std_string }.

(** Modelled from the spec: the macros [ICHECK], [ICHECK_GT] and
    [LOG(FATAL)] are not among the sources; the specification calls the
    conditions they guard fatal and unrecoverable, "not caught-and-reported".
    A failed check is the outcome [Fatal] with the text streamed into the
    macro, and no handler of the model intercepts it. *)
Inductive Result (A : Type) : Type :=
| Ok (a : A)
| Throw (e : Error)
| Fatal (msg : std_string)
| OutOfFuel.

Arguments Ok {A} a.
Arguments Throw {A} e.
Arguments Fatal {A} msg.
Arguments OutOfFuel {A}.

#[global] Instance Result_ret : MRet Result := fun A a => Ok a.
#[global] Instance Result_bind : MBind Result := fun A B f m =>
  match m with
  | Ok a => f a
  | Throw e => Throw e
  | Fatal msg => Fatal msg
  | OutOfFuel => OutOfFuel
  end.

#[global] Instance Result_fmap : FMap Result := fun A B f m =>
  match m with
  | Ok a => Ok (f a)
  | Throw e => Throw e
  | Fatal msg => Fatal msg
  | OutOfFuel => OutOfFuel
  end.

(** [TVM_FFI_THROW(kind) << message]. *)
Definition THROW {A} (kind message : std_string) : Result A :=
  Throw (mkError kind message).

(** [try { m } catch (const Error& e) { h e }]. *)
Definition try_catch {A} (m : Result A) (h : Error -> Result A) : Result A :=
  match m with
  | Throw e => h e
  | r => r
  end.

(** [ICHECK(cond) << msg; k]. *)
Definition ICHECK {A} (cond : bool) (msg : std_string) (k : Result A) : Result A :=
  if cond then k else Fatal msg.

Definition is_Ok {A} (r : Result A) : bool :=
  match r with Ok _ => true | _ => false end.

(** ** Helper functions *)

(** [DeduplicateKeys]: [keys[i]] is kept when no [keys[j]] with [j < i]
    equals it. The inner loop is [existsb] over the prefix. *)
Fixpoint DeduplicateKeys_loop (seen rest : list std_string) : list std_string :=
  match rest with
  | [] => []
  | k :: rest' =>
      let found := existsb (fun k' => bool_decide (k = k')) seen in
      (if found then [] else [k]) ++ DeduplicateKeys_loop (seen ++ [k]) rest'
  end.

Definition DeduplicateKeys (keys : list std_string) : list std_string :=
  DeduplicateKeys_loop [] keys.

(** [RemovePrefixDashes]. *)
Fixpoint count_dashes (s : std_string) : nat :=
  match s with
  | c :: s' => if Ascii.eqb c "-" then S (count_dashes s') else 0%nat
  | [] => 0%nat
  end.

Definition RemovePrefixDashes (s : std_string) : Result std_string :=
  let n_dashes := count_dashes s in
  let len := length s in
  if (n_dashes =? 0)%nat then
    THROW "ValueError" ("Attribute keys should start with '-', not an attribute key: " ++ s)
  else if (len <=? n_dashes)%nat then
    THROW "ValueError" ("Not an attribute key: " ++ s)
  else Ok (substr_from s n_dashes).

(** ** Quoting and escaping *)

(** The loop of [IsQuoted] over [str[start + 1 .. end - 1)], with its
    early [return false] and the final [return !escaping]. *)
Fixpoint IsQuoted_loop (body : std_string) (escaping : bool) : bool :=
  match body with
  | [] => negb escaping
  | c :: body' =>
      if escaping then IsQuoted_loop body' false
      else if Ascii.eqb c escape then IsQuoted_loop body' true
      else if Ascii.eqb c quote then false
      else IsQuoted_loop body' escaping
  end.

Definition IsQuoted (str : std_string) : bool :=
  let start := 0%nat in
  let end_ := length str in
  if (end_ <? 2)%nat
     || negb (bool_decide (str !! start = Some quote))
     || negb (bool_decide (str !! (end_ - 1)%nat = Some quote))
  then false
  else IsQuoted_loop (substr str (start + 1) (end_ - 1 - (start + 1))) false.

Definition Quote (str : std_string) : std_string := [quote] ++ str ++ [quote].

(** [JoinString]; the loop with [is_first] is the fold below. *)
Fixpoint JoinString_loop (separator : ascii) (array : list std_string)
    (is_first : bool) (result : std_string) : std_string :=
  match array with
  | [] => result
  | s :: array' =>
      let result := if is_first then result else result ++ [separator] in
      JoinString_loop separator array' false (result ++ s)
  end.

Definition JoinString (array : list std_string) (separator : ascii) : Result std_string :=
  ICHECK (negb (Ascii.eqb separator quote) && negb (Ascii.eqb separator escape))
    ("string join separator cannot be " ++ [quote] ++ " or " ++ [escape])
    (Ok (JoinString_loop separator array true [])).

(** [SplitString]. The state of the loop is the output, the current word and
    [pos_quoted]; [finish_word] pushes a non-empty word and clears it. *)
Definition finish_word (output : list std_string) (current_word : std_string)
    : list std_string * std_string :=
  if (0 <? length current_word)%nat then (output ++ [current_word], [])
  else (output, current_word).

Fixpoint SplitString_loop (separator : ascii) (pos : std_string)
    (output : list std_string) (current_word : std_string) (pos_quoted : bool)
    : list std_string * std_string * bool :=
  match pos with
  | [] => (output, current_word, pos_quoted)
  | c :: pos1 =>
      if Ascii.eqb c separator && negb pos_quoted then
        let '(output, current_word) := finish_word output current_word in
        SplitString_loop separator pos1 output current_word pos_quoted
      else
        match Ascii.eqb c escape, pos1 with
        | true, c1 :: pos2 =>
            SplitString_loop separator pos2 output (current_word ++ [escape; c1]) pos_quoted
        | _, _ =>
            if Ascii.eqb c quote then
              SplitString_loop separator pos1 output (current_word ++ [quote]) (negb pos_quoted)
            else
              SplitString_loop separator pos1 output (current_word ++ [c]) pos_quoted
        end
  end.

Definition SplitString (str : std_string) (separator : ascii) : Result (list std_string) :=
  let '(output, current_word, pos_quoted) := SplitString_loop separator str [] [] false in
  ICHECK (negb pos_quoted) "Mismatched quotes '' in string"
    (Ok (fst (finish_word output current_word))).

(** [SplitString] resumed from a state of its loop outside quotes, and the
strings that the loop copies whole into the current word, in the quoted
state [pos_quoted], whatever follows them. *)
Definition SplitString_from (separator : ascii) (pos : std_string)
    (output : list std_string) (current_word : std_string) : Result (list std_string) :=
  let '(output, current_word, pos_quoted) :=
    SplitString_loop separator pos output current_word false in
  ICHECK (negb pos_quoted) "Mismatched quotes '' in string"
    (Ok (fst (finish_word output current_word))).

Definition passes (separator : ascii) (pos_quoted : bool) (tok : std_string) : Prop :=
  forall (rest : std_string) (output : list std_string) (current_word : std_string),
    SplitString_loop separator (tok ++ rest) output current_word pos_quoted
    = SplitString_loop separator rest output (current_word ++ tok) pos_quoted.

(** [Interpret]: the loop over [str[start .. end)]; [continue] skips the
    [push_back]. *)
Fixpoint Interpret_loop (body : std_string) (inside_quote escaping : bool)
    (result : std_string) : std_string :=
  match body with
  | [] => result
  | c :: body' =>
      if escaping then Interpret_loop body' inside_quote false (result ++ [c])
      else if Ascii.eqb c escape then
        if negb inside_quote then Interpret_loop body' inside_quote true result
        else Interpret_loop body' inside_quote true (result ++ [c])
      else if Ascii.eqb c quote then
        Interpret_loop body' (negb inside_quote) escaping (result ++ [c])
      else Interpret_loop body' inside_quote escaping (result ++ [c])
  end.

Definition Interpret (str : std_string) : std_string :=
  if bool_decide (str = []) then []
  else
    let '(start, end_) :=
      if IsQuoted str then (1%nat, (length str - 1)%nat) else (0%nat, length str) in
    Interpret_loop (substr str start (end_ - start)) false false [].

Fixpoint Uninterpret (str : std_string) : std_string :=
  match str with
  | [] => []
  | c :: str' =>
      (if Ascii.eqb c escape || Ascii.eqb c quote then [escape] else []) ++ c :: Uninterpret str'
  end.

(** [ParseKVPair]: the returned number of consumed tokens, with the key and
    the value written through the two pointers. *)
Definition ParseKVPair (s s_next : std_string) : Result (nat * std_string * std_string) :=
  match find_first_of "=" s with
  | Some pos =>
      let result_k := substr s 0 pos in
      let result_v := substr_from s (pos + 1) in
      if bool_decide (result_k = []) || bool_decide (result_v = []) then
        THROW "ValueError" ("Empty attribute key or value in " ++ [dquote] ++ s ++ [dquote])
      else Ok (1%nat, result_k, result_v)
  | None =>
      if negb (bool_decide (s_next = [])) && negb (bool_decide (s_next !! 0%nat = Some "-"%char))
      then Ok (2%nat, s, s_next)
      else Ok (1%nat, s, "1" : std_string)
  end.

(** ** Values, targets and kinds *)

(** The dynamic value [ffi::Any] as a closed variant, and the target node.
    [TargetNode::kind] is a reference to the registry entry of the kind; the
    node of the model holds the name of the kind, which identifies the
    entry. The cached [str_repr_] is a function of the other fields and is
    not stored. *)
Inductive Any : Type :=
| ANone
| ABool (b : bool)
| AInt (z : Z)
| AStr (s : std_string)
| ATarget (t : TargetNode)
| AArray (l : list Any)
| AMap (m : list (Any * Any))
with TargetNode : Type :=
| mkTargetNode (kind : std_string) (host : option TargetNode) (tag : std_string)
    (keys : list std_string) (attrs features : gmap std_string Any).

Definition kind (t : TargetNode) : std_string := let '(mkTargetNode k _ _ _ _ _) := t in k.
Definition host (t : TargetNode) : option TargetNode := let '(mkTargetNode _ h _ _ _ _) := t in h.
Definition tag (t : TargetNode) : std_string := let '(mkTargetNode _ _ g _ _ _) := t in g.
Definition keys (t : TargetNode) : list std_string := let '(mkTargetNode _ _ _ ks _ _) := t in ks.
Definition attrs (t : TargetNode) : gmap std_string Any := let '(mkTargetNode _ _ _ _ a _) := t in a.
Definition features (t : TargetNode) : gmap std_string Any := let '(mkTargetNode _ _ _ _ _ f) := t in f.

(** The type indices the code compares against. *)
Inductive TypeIndex : Type :=
| kTVMFFINone | kTVMFFIInt | kTVMFFIBool | kTVMFFIStr
| kTargetIndex | kArrayIndex | kMapIndex
| kOtherIndex (i : Z).

#[global] Instance TypeIndex_eq_dec : EqDecision TypeIndex.
Proof. solve_decision. Defined.

(** Modelled from the spec: [TargetKindNode::ValueTypeInfo] is declared in
    target_kind.h, which is not among the sources: a value-type-schema
    "{type, element-schema?, value-schema?}"; [key] is the element schema of
    an array and the key schema of a map, [val] the value schema of a map. *)
Inductive ValueTypeInfo : Type :=
| mkValueTypeInfo (type_index : TypeIndex) (type_key : std_string)
    (key val : option ValueTypeInfo).

Definition type_index (info : ValueTypeInfo) : TypeIndex :=
  let '(mkValueTypeInfo i _ _ _) := info in i.
Definition type_key (info : ValueTypeInfo) : std_string :=
  let '(mkValueTypeInfo _ k _ _) := info in k.

(** Modelled from the spec: [TargetKindNode] is declared in target_kind.h,
    which is not among the sources. For a kind the registry supplies the
    attribute schemas, the defaults, the default keys, the default device
    type and the two optional hooks; a hook may throw. *)
Record TargetKindNode : Type := mkTargetKindNode {
  name : std_string;
  key2vtype_ : gmap std_string ValueTypeInfo;
  key2default_ : gmap std_string Any;
  default_keys : list std_string;
  default_device_type : Z;
  preprocessor : option (gmap std_string Any -> Result (gmap std_string Any));
  target_parser : option (gmap std_string Any -> Result (gmap std_string Any));
}.

(** The device API of [QueryDevice]: [GetAttr(device, kExist)] and
    [GetTargetProperty(device, key)]. *)
Record DeviceAPI : Type := mkDeviceAPI {
  GetAttr_kExist : bool;
  GetTargetProperty : std_string -> Any;
}.

(** The collaborators the code calls and does not define: the kind and tag
    registries, the global function [target._load_config_dict], the device
    API, and the printing of values and type keys in error messages. *)
Class Registry : Type := mkRegistry {
  TargetKind_Get : std_string -> option TargetKindNode;
  TargetTag_Get : std_string -> option TargetNode;
  load_config_dict : option (std_string -> Result (option (gmap std_string Any)));
  DeviceAPI_Get : Z -> Z -> option DeviceAPI;
  GetTypeKey : Any -> std_string;
  AnyRepr : Any -> std_string;
  AnyEqual : Any -> Any -> bool;
}.

(** Modelled from the spec: the casts of the ffi layer on the closed
    variant. "For scalar schemas, require the value already carries the exact
    expected type": [try_cast<T>] and [as<T>] succeed on the constructor of
    [T] and on no other. *)
Definition try_cast_String (obj : Any) : option std_string :=
  match obj with AStr s => Some s | _ => None end.
Definition try_cast_int64 (obj : Any) : option Z :=
  match obj with AInt z => Some z | _ => None end.
Definition try_cast_bool (obj : Any) : option bool :=
  match obj with ABool b => Some b | _ => None end.
Definition as_Target (obj : Any) : option TargetNode :=
  match obj with ATarget t => Some t | _ => None end.
Definition as_ArrayObj (obj : Any) : option (list Any) :=
  match obj with AArray l => Some l | _ => None end.
Definition as_MapObj (obj : Any) : option (list (Any * Any)) :=
  match obj with AMap m => Some m | _ => None end.

Definition Any_type_index (obj : Any) : TypeIndex :=
  match obj with
  | ANone => kTVMFFINone
  | ABool _ => kTVMFFIBool
  | AInt _ => kTVMFFIInt
  | AStr _ => kTVMFFIStr
  | ATarget _ => kTargetIndex
  | AArray _ => kArrayIndex
  | AMap _ => kMapIndex
  end.

(** A [Map<String, Any>] seen as a value, and back: [GetRef<Map<String,
    Any>>] of a map object whose keys are all strings. *)
Definition Any_of_Map (m : gmap std_string Any) : Any :=
  AMap ((fun kv => (AStr kv.1, kv.2)) <$> map_to_list m).

Fixpoint Map_of_MapObj (m : list (Any * Any)) : option (gmap std_string Any) :=
  match m with
  | [] => Some ∅
  | (AStr k, v) :: m' => (fun r => <[k := v]> r) <$> Map_of_MapObj m'
  | _ :: _ => None
  end.

(** ** Numbers as text *)

Definition INT64_MIN : Z := - 2 ^ 63.
Definition INT64_MAX : Z := 2 ^ 63 - 1.

(** [std::to_string] of an [int64_t]: the decimal digits, with a leading
    minus sign for a negative number. *)
Definition to_string (z : Z) : std_string := NilZero.string_of_int (Z.to_int z).

(** [std::to_string(size_t)], for the indices in error messages. *)
Definition to_string_size (n : nat) : std_string := to_string (Z.of_nat n).

(** [std::isspace], [std::tolower] and the decimal digits, in the C locale. *)
Definition isspace (c : ascii) : bool :=
  let n := N_of_ascii c in (n =? 32)%N || ((9 <=? n)%N && (n <=? 13)%N).

Definition tolower (c : ascii) : ascii :=
  let n := N_of_ascii c in
  if (65 <=? n)%N && (n <=? 90)%N then ascii_of_N (n + 32) else c.

Definition digit_value (c : ascii) : option Z :=
  let n := N_of_ascii c in
  if (48 <=? n)%N && (n <=? 57)%N then Some (Z.of_N (n - 48)) else None.

(** [is >> v] for an [int64_t v] on a fresh [std::istringstream]: leading
    white space is skipped, an optional sign is read, then the longest run
    of decimal digits; the extraction fails when there is no digit or the
    number does not fit 64 bits. What follows the digits is left unread. *)
Fixpoint skipws (s : std_string) : std_string :=
  match s with
  | c :: s' => if isspace c then skipws s' else s
  | [] => []
  end.

Fixpoint extract_digits (s : std_string) (acc : Z) (n_digits : nat) : Z * nat :=
  match s with
  | c :: s' =>
      match digit_value c with
      | Some d => extract_digits s' (10 * acc + d) (S n_digits)
      | None => (acc, n_digits)
      end
  | [] => (acc, n_digits)
  end.

Definition extract_int64 (s : std_string) : option Z :=
  let s := skipws s in
  let '(negative, s) :=
    match s with
    | c :: s' =>
        if Ascii.eqb c "-" then (true, s')
        else if Ascii.eqb c "+" then (false, s')
        else (false, s)
    | [] => (false, s)
    end in
  let '(v, n_digits) := extract_digits s 0 0 in
  if (n_digits =? 0)%nat then None
  else
    let v := if negative then - v else v in
    if (INT64_MIN <=? v) && (v <=? INT64_MAX) then Some v else None.

(** The number that [extract_digits] reads from the digits of a decimal
numeral, most significant digit first, starting from [acc]. *)
Fixpoint uint_value (d : Decimal.uint) (acc : Z) : Z :=
  match d with
  | Decimal.Nil => acc
  | Decimal.D0 d => uint_value d (10 * acc + 0)
  | Decimal.D1 d => uint_value d (10 * acc + 1)
  | Decimal.D2 d => uint_value d (10 * acc + 2)
  | Decimal.D3 d => uint_value d (10 * acc + 3)
  | Decimal.D4 d => uint_value d (10 * acc + 4)
  | Decimal.D5 d => uint_value d (10 * acc + 5)
  | Decimal.D6 d => uint_value d (10 * acc + 6)
  | Decimal.D7 d => uint_value d (10 * acc + 7)
  | Decimal.D8 d => uint_value d (10 * acc + 8)
  | Decimal.D9 d => uint_value d (10 * acc + 9)
  end.

(** [static_cast<int>] of an [int64_t]: the value modulo 2^32, signed. *)
Definition to_int32 (z : Z) : Z := (z + 2 ^ 31) mod 2 ^ 32 - 2 ^ 31.

(** ** Parsing *)

Section Parsing.
Context `{!Registry}.

(** [ObjTypeCheck<T>]. *)
Definition ObjTypeCheck {T} (try_cast : Any -> option T) (obj : Any)
    (expected_type : std_string) : Result T :=
  match try_cast obj with
  | Some v => Ok v
  | None =>
      THROW "TypeError"
        ("Expects type " ++ [dquote] ++ expected_type ++ [dquote] ++ ", but gets "
         ++ [dquote] ++ GetTypeKey obj ++ [dquote] ++ " for object: " ++ AnyRepr obj)
  end.

Definition GetTargetKind (name : std_string) : Result TargetKindNode :=
  match TargetKind_Get name with
  | Some kind => Ok kind
  | None =>
      THROW "TypeError" ("Target kind " ++ [dquote] ++ name ++ [dquote] ++ " is not defined")
  end.

(** [FindTypeInfo]; the candidates are listed in the iteration order of
    the table. *)
Fixpoint FindTypeInfo_candidates (kvs : list (std_string * ValueTypeInfo))
    (is_first : bool) (os : std_string) : std_string :=
  match kvs with
  | [] => os
  | kv :: kvs' =>
      let os := if is_first then os else os ++ ", " in
      FindTypeInfo_candidates kvs' false (os ++ kv.1)
  end.

Definition FindTypeInfo (kind : TargetKindNode) (key : std_string) : Result ValueTypeInfo :=
  match key2vtype_ kind !! key with
  | None =>
      THROW "TypeError"
        (FindTypeInfo_candidates (map_to_list (key2vtype_ kind)) true
           (": Cannot recognize '" ++ key ++ "'. Candidates are: "))
  | Some info => Ok info
  end.

(** The recursive calls that build a nested target go through
    [FromString] and [FromConfig]; they are parameters here and are tied
    together below. *)
Section Bodies.
Variable FromString_rec : std_string -> Result TargetNode.
Variable FromConfig_rec : gmap std_string Any -> Result TargetNode.

(** The loops of the array branches: [result] is the vector built so
    far, whose size is the index in the message of a rethrown error.
    The [cast<ObjectRef>] of a parsed element belongs to the FFI library,
    whose code is not part of [target.cc]; it is taken to return the
    element unchanged, as it does on the strings that the arrays of the
    statements below hold. *)
Fixpoint ParseType_array {X} (parse : X -> Result Any)
    (wrap : std_string -> std_string -> std_string)
    (items : list X) (result : list Any) : Result (list Any) :=
  match items with
  | [] => Ok result
  | x :: items' =>
      parsed ← try_catch (parse x) (fun e =>
        let index := "[" ++ to_string_size (length result) ++ "]" in
        Throw (mkError (err_kind e) (wrap (err_message e) index)));
      ParseType_array parse wrap items' (result ++ [parsed])
  end.

(** [ParseType(const std::string& str, const ValueTypeInfo& info)]. *)
Fixpoint ParseType_str (info : ValueTypeInfo) (str : std_string) {struct info}
    : Result Any :=
  let interp_str := Interpret str in
  let '(mkValueTypeInfo type_index type_key key val) := info in
  if bool_decide (type_index = kTVMFFIInt) || bool_decide (type_index = kTVMFFIBool) then
    v ← match extract_int64 interp_str with
        | Some v => Ok v
        | None =>
            let lower := tolower <$> interp_str in
            if bool_decide (lower = ("true" : std_string)) then Ok 1
            else if bool_decide (lower = ("false" : std_string)) then Ok 0
            else THROW "ValueError" ("Cannot parse integer from string: " ++ interp_str)
        end;
    if bool_decide (type_index = kTVMFFIInt) then Ok (AInt v)
    else Ok (ABool (negb (v =? 0)))
  else if bool_decide (type_index = kTVMFFIStr) then
    match find_first_not_of " " interp_str, find_last_not_of " " interp_str with
    | Some start, Some end_ => Ok (AStr (substr interp_str start (end_ - start + 1)))
    | _, _ => Ok (AStr [])
    end
  else if bool_decide (type_index = kTargetIndex) then
    ATarget <$> FromString_rec interp_str
  else if bool_decide (type_index = kArrayIndex) then
    match key with
    | Some key =>
        substrs ← SplitString interp_str ",";
        result ← ParseType_array (ParseType_str key)
                   (fun message index => message ++ index) substrs [];
        Ok (AArray result)
    | None => Fatal "array schema without element schema"
    end
  else
    THROW "TypeError"
      ("Unsupported type " ++ [dquote] ++ type_key ++ [dquote]
       ++ " for parsing from string: " ++ interp_str).

(** The loop of the map branch: a later entry with an equal key
    replaces the earlier one. *)
Definition Map_set (result : list (Any * Any)) (key val : Any) : list (Any * Any) :=
  if existsb (fun kv => AnyEqual kv.1 key) result
  then (fun kv => if AnyEqual kv.1 key then (kv.1, val) else kv) <$> result
  else result ++ [(key, val)].

Fixpoint ParseType_map (parse_key parse_val : Any -> Result Any)
    (entries : list (Any * Any)) (result : list (Any * Any)) : Result (list (Any * Any)) :=
  match entries with
  | [] => Ok result
  | kv :: entries' =>
      key ← try_catch (parse_key kv.1) (fun e =>
        Throw (mkError (err_kind e) (err_message e ++ ", during parse key of map")));
      val ← try_catch (parse_val kv.2) (fun e =>
        Throw (mkError (err_kind e)
                 (err_message e ++ ", during parseing value of map[" ++ [dquote]
                  ++ AnyRepr key ++ [dquote] ++ "]")));
      ParseType_map parse_key parse_val entries' (Map_set result key val)
  end.

(** The key check of the target branch, followed by [GetRef<Map<String,
    Any>>]: the first key that is not a string throws. *)
Fixpoint ParseType_dict (ptr : list (Any * Any)) : Result (gmap std_string Any) :=
  match ptr with
  | [] => Ok ∅
  | kv :: ptr' =>
      match try_cast_String kv.1 with
      | None =>
          THROW "TypeError"
            ("Target object requires key of dict to be str, but get: " ++ GetTypeKey kv.1)
      | Some k => config ← ParseType_dict ptr'; Ok (<[k := kv.2]> config)
      end
  end.

(** [ParseType(const Any& obj, const ValueTypeInfo& info)]. *)
Fixpoint ParseType_obj (info : ValueTypeInfo) (obj : Any) {struct info} : Result Any :=
  let '(mkValueTypeInfo type_index type_key key val) := info in
  if bool_decide (type_index = kTVMFFIInt) then
    AInt <$> ObjTypeCheck try_cast_int64 obj "int64_t"
  else if bool_decide (type_index = kTVMFFIBool) then
    ABool <$> ObjTypeCheck try_cast_bool obj "bool"
  else if bool_decide (type_index = kTVMFFIStr) then
    AStr <$> ObjTypeCheck try_cast_String obj "String"
  else if bool_decide (type_index = kTargetIndex) then
    match as_Target obj, try_cast_String obj, as_MapObj obj with
    | Some t, _, _ => Ok (ATarget t)
    | None, Some str, _ => ATarget <$> FromString_rec str
    | None, None, Some ptr =>
        config ← ParseType_dict ptr;
        ATarget <$> FromConfig_rec config
    | None, None, None =>
        THROW "TypeError"
          ("Expect type 'dict' or 'str' to construct Target, but get: " ++ GetTypeKey obj)
    end
  else if bool_decide (type_index = kArrayIndex) then
    array ← ObjTypeCheck as_ArrayObj obj "Array";
    match key with
    | Some key =>
        result ← ParseType_array (ParseType_obj key)
                   (fun message index => index ++ message) array [];
        Ok (AArray result)
    | None => Fatal "array schema without element schema"
    end
  else if bool_decide (type_index = kMapIndex) then
    map ← ObjTypeCheck as_MapObj obj "Map";
    match key, val with
    | Some key, Some val =>
        result ← ParseType_map (ParseType_obj key) (ParseType_obj val) map [];
        Ok (AMap result)
    | _, _ => Fatal "map schema without key or value schema"
    end
  else if negb (bool_decide (type_index = Any_type_index obj)) then
    THROW "TypeError"
      ("Parsing type " ++ [dquote] ++ type_key ++ [dquote]
       ++ " is not supported for the given object of type " ++ [dquote]
       ++ GetTypeKey obj ++ [dquote] ++ ". The object is: " ++ AnyRepr obj)
  else Ok obj.

(** *** Stringifying *)

Definition StringifyAtomicType (obj : Any) : Result std_string :=
  match obj with
  | ABool b => Ok (to_string (if b then 1 else 0))
  | AInt z => Ok (to_string z)
  | AStr s =>
      let u := Uninterpret s in
      if negb (bool_decide (find_first_of " " u = None)) && negb (IsQuoted u)
      then Ok (Quote u) else Ok u
  | _ => Fatal ("Cannot stringify object of type " ++ GetTypeKey obj)
  end.

Fixpoint StringifyArray_loop (array : list Any) (elements : list std_string)
    : Result (list std_string) :=
  match array with
  | [] => Ok elements
  | item :: array' =>
      s ← StringifyAtomicType item;
      let u := Uninterpret s in
      let u := if negb (bool_decide (find_first_of "," u = None)) && negb (IsQuoted u)
               then Quote u else u in
      StringifyArray_loop array' (elements ++ [u])
  end.

Definition StringifyArray (array : list Any) : Result std_string :=
  elements ← StringifyArray_loop array [];
  JoinString elements ",".

(** [StringifyAttrsToRaw]; [std::sort] of the keys is a sort by
    [String_le]. A key of [keys] is a key of [attrs]. *)
Fixpoint StringifyAttrsToRaw_loop (attrs : gmap std_string Any) (keys : list std_string)
    (result : list std_string) : Result (list std_string) :=
  match keys with
  | [] => Ok result
  | key :: keys' =>
      match attrs !! key with
      | None | Some ANone => StringifyAttrsToRaw_loop attrs keys' result
      | Some obj =>
          value ← match as_ArrayObj obj with
                  | Some array => StringifyArray array
                  | None => StringifyAtomicType obj
                  end;
          StringifyAttrsToRaw_loop attrs keys'
            (if negb (bool_decide (value = [])) then result ++ ["-" ++ key ++ "=" ++ value]
             else result)
      end
  end.

Definition StringifyAttrsToRaw (attrs : gmap std_string Any) : Result (option std_string) :=
  let keys := merge_sort String_le ((map_to_list attrs).*1) in
  result ← StringifyAttrsToRaw_loop attrs keys [];
  Some <$> JoinString result " ".

(** [TargetNode::str]; the loop over the keys with [is_first] is
    [JoinString_loop]. *)
Definition str (t : TargetNode) : Result std_string :=
  let os := kind t in
  let os := if negb (bool_decide (keys t = []))
            then os ++ " -keys=" ++ JoinString_loop "," (keys t) true [] else os in
  attrs_str ← StringifyAttrsToRaw (attrs t);
  match attrs_str with
  | Some attrs_str => Ok (os ++ " " ++ attrs_str)
  | None => Ok os
  end.

(** *** Creation *)

(** [Target::Target(const String&)] and [Target::Target(const Map&)],
    as [ConstructorDispatcher] calls them for a host. *)
Definition Target_of_String (FromString : std_string -> Result TargetNode)
    (tag_or_config_or_target_str : std_string) : Result TargetNode :=
  try_catch (FromString tag_or_config_or_target_str) (fun e =>
    THROW "ValueError"
      (err_message e ++ ". Target creation from string failed: "
       ++ tag_or_config_or_target_str)).

Definition Target_of_Map (FromConfig : gmap std_string Any -> Result TargetNode)
    (config : gmap std_string Any) : Result TargetNode :=
  try_catch (FromConfig config) (fun e =>
    THROW "ValueError"
      (err_message e ++ ". Target creation from config dict failed: "
       ++ AnyRepr (Any_of_Map config))).

(** [Target::Target(Target target, Target host)]. *)
Definition Target_with_host (target host : TargetNode) : TargetNode :=
  mkTargetNode (kind target) (Some host) (tag target) (keys target) (attrs target)
    (features target).

Definition ConstructorDispatcher (args : list Any) : Result TargetNode :=
  match args with
  | [arg] =>
      match as_Target arg, try_cast_String arg, as_MapObj arg ≫= Map_of_MapObj with
      | Some opt_target, _, _ => Ok opt_target
      | None, Some opt_str, _ => Target_of_String FromString_rec opt_str
      | None, None, Some opt_map => Target_of_Map FromConfig_rec opt_map
      | None, None, None =>
          Fatal ("TypeError: Cannot create target with type: " ++ GetTypeKey arg)
      end
  | [arg0; arg1] =>
      match as_Target arg0, as_Target arg1 with
      | Some target, Some host => Ok (Target_with_host target host)
      | _, _ => Fatal "ValueError: Invalid type of arguments. Expect 2 Target arguments."
      end
  | _ =>
      Fatal ("ValueError: Invalid number of arguments. Expect 1 or 2, but gets: "
             ++ to_string_size (length args))
  end.

(** [QueryDevice]. It is called on the node under construction, whose
    attributes are not set yet, so that [GetTargetDeviceType] is the
    default device type of the kind. *)
Definition QueryDevice (device_id : Z) (kind : TargetKindNode)
    : Result (gmap std_string Any) :=
  match DeviceAPI_Get (default_device_type kind) device_id with
  | None => Ok ∅
  | Some api =>
      ICHECK (GetAttr_kExist api)
        ("Requested reading the parameters for " ++ name kind ++ " from device_id "
         ++ to_string device_id ++ ", but device_id " ++ to_string device_id
         ++ " doesn't exist.  Using default target parameters.")
        (Ok (map_imap (fun key _ => Some (GetTargetProperty api key)) (key2vtype_ kind)))
  end.

(** The loop of [FromConfig] over the entries left in the config. *)
Fixpoint FromConfig_attrs (kind : TargetKindNode) (config : list (std_string * Any))
    (attrs : gmap std_string Any) : Result (gmap std_string Any) :=
  match config with
  | [] => Ok attrs
  | (key, value) :: config' =>
      parsed ← try_catch
        (info ← FindTypeInfo kind key; ParseType_obj info value)
        (fun e => Throw (mkError (err_kind e)
           (err_message e ++ ", during parsing target[" ++ [dquote] ++ key ++ [dquote] ++ "]")));
      FromConfig_attrs kind config' (<[key := parsed]> attrs)
  end.

(** The loop of [FromConfig] over a user-provided array of keys. *)
Fixpoint FromConfig_keys (cfg_keys : list Any) (keys : list std_string)
    : Result (list std_string) :=
  match cfg_keys with
  | [] => Ok keys
  | e :: cfg_keys' =>
      match try_cast_String e with
      | Some key => FromConfig_keys cfg_keys' (keys ++ [key])
      | None =>
          THROW "TypeError"
            ("Expect 'keys' to be an array of strings, but it contains an element of type: "
             ++ GetTypeKey e)
      end
  end.

Definition kKind : std_string := "kind".
Definition kTag : std_string := "tag".
Definition kKeys : std_string := "keys".
Definition kDeviceName : std_string := "device".
Definition kHost : std_string := "host".
Definition kFeatures : std_string := "features".

(** [config.count(key)]. *)
Definition count {V} (config : gmap std_string V) (key : std_string) : bool :=
  bool_decide (is_Some (config !! key)).

(** [FromConfig]. The loops that fill the attributes missing after the
    explicit ones, from the device and from the defaults, are left-biased
    unions. *)
Definition FromConfig (config : gmap std_string Any) : Result TargetNode :=
  ICHECK (negb (count config kFeatures))
    "Target Features should be generated by Target parser" (
  (* parse 'kind' *)
  '(kind, features, config) ←
    match config !! kKind with
    | Some v =>
        match try_cast_String v with
        | Some kind_name =>
            kind ← GetTargetKind kind_name;
            ICHECK (negb (bool_decide (is_Some (preprocessor kind))
                          && bool_decide (is_Some (target_parser kind))))
              "Cannot use both set_attrs_preprocessor and set_target_parser" (
            '(features, config) ←
              match target_parser kind with
              | Some parser =>
                  config ← parser config;
                  match config !! kFeatures with
                  | Some f =>
                      match as_MapObj f ≫= Map_of_MapObj with
                      | Some features => Ok (features, delete kFeatures config)
                      | None =>
                          THROW "TypeError"
                            ("Downcast from " ++ GetTypeKey f ++ " to Map failed.")
                      end
                  | None => Ok (∅, config)
                  end
              | None => Ok (∅, config)
              end;
            Ok (kind, features, delete kKind config))
        | None =>
            THROW "TypeError"
              ("Expect type of field " ++ [dquote] ++ "kind" ++ [dquote]
               ++ " is String, but get type: " ++ GetTypeKey v)
        end
    | None => THROW "ValueError" ("Field " ++ [dquote] ++ "kind" ++ [dquote] ++ " is not found")
    end;
  (* parse "tag" *)
  '(tag, config) ←
    match config !! kTag with
    | Some v =>
        match try_cast_String v with
        | Some tag => Ok (tag, delete kTag config)
        | None =>
            THROW "TypeError"
              ("Expect type of field " ++ [dquote] ++ "tag" ++ [dquote]
               ++ " is String, but get type: " ++ GetTypeKey v)
        end
    | None => Ok ([], config)
    end;
  (* parse "keys" *)
  let has_user_keys := count config kKeys in
  keys ←
    match config !! kKeys with
    | Some v =>
        match as_ArrayObj v with
        | Some cfg_keys => FromConfig_keys cfg_keys []
        | None =>
            THROW "TypeError"
              ("Expect type of field " ++ [dquote] ++ "keys" ++ [dquote]
               ++ " is Array, but get type: " ++ GetTypeKey v)
        end
    | None => Ok []
    end;
  (* add device name *)
  let keys :=
    match config !! kDeviceName ≫= try_cast_String with
    | Some device => keys ++ [device]
    | None => keys
    end in
  (* add default keys *)
  let keys := if negb has_user_keys then keys ++ default_keys kind else keys in
  (* de-duplicate keys *)
  let keys := DeduplicateKeys keys in
  let config := delete kKeys config in
  (* parse host *)
  '(host, config) ←
    match config !! kHost with
    | Some v => host ← ConstructorDispatcher [v]; Ok (Some host, delete kHost config)
    | None => Ok (None, config)
    end;
  (* parse attrs *)
  attrs ← FromConfig_attrs kind (map_to_list config) ∅;
  (* query attributes from the device *)
  attrs ←
    match attrs !! ("from_device" : std_string) with
    | Some v =>
        match try_cast_int64 v with
        | Some device_id =>
            device_params ← QueryDevice (to_int32 device_id) kind;
            Ok (delete ("from_device" : std_string) attrs ∪ device_params)
        | None =>
            THROW "TypeError"
              ("Cannot convert from type " ++ GetTypeKey v ++ " to int")
        end
    | None => Ok attrs
    end;
  (* set default attribute values if they do not exist *)
  let attrs := attrs ∪ key2default_ kind in
  (* do extra pre-processing *)
  attrs ←
    match preprocessor kind with
    | Some preprocessor => preprocessor attrs
    | None => Ok attrs
    end;
  Ok (mkTargetNode (name kind) host tag keys attrs features)).

Definition FromConfigString (config_str : std_string) : Result TargetNode :=
  match load_config_dict with
  | None =>
      Fatal ("AttributeError: " ++ [dquote] ++ "target._load_config_dict" ++ [dquote]
             ++ " is not registered. Please check if the python module is properly loaded")
  | Some loader =>
      config ← loader config_str;
      match config with
      | None => THROW "ValueError" "Cannot load config dict with python JSON loader"
      | Some config => FromConfig config
      end
  end.

(** The loop of [FromRawString] over [options[iter ..]]; [ParseKVPair]
    returns 1 or 2, the number of options the step consumes. *)
Fixpoint FromRawString_loop (target_str : std_string) (kind : TargetKindNode)
    (options : list std_string) (config : gmap std_string Any)
    : Result (gmap std_string Any) :=
  match options with
  | [] => Ok config
  | option :: options1 =>
      let s_next := match options1 with s :: _ => s | [] => [] end in
      '(n, key, value) ← try_catch
        (s ← RemovePrefixDashes option; ParseKVPair s s_next)
        (fun e => Throw (mkError (err_kind e)
           (err_message e ++ ", during parsing target `" ++ target_str ++ "`")));
      config ← try_catch
        (if count config key then
           THROW "ValueError"
             ("The key " ++ [dquote] ++ key ++ [dquote] ++ " appears more than once")
         else
           info ← FindTypeInfo kind key;
           parsed ← ParseType_str info value;
           Ok (<[key := parsed]> config))
        (fun e => Throw (mkError (err_kind e)
           (err_message e ++ ", during parsing target[" ++ [dquote] ++ key ++ [dquote] ++ "]")));
      match n, options1 with
      | 2%nat, _ :: options2 => FromRawString_loop target_str kind options2 config
      | 2%nat, [] => Ok config
      | _, _ => FromRawString_loop target_str kind options1 config
      end
  end.

(** [FromRawString]. [options[0]] of an empty vector is undefined; the
    model stops there. *)
Definition FromRawString (target_str : std_string) : Result TargetNode :=
  ICHECK (0 <? length target_str)%nat "Cannot parse empty target string" (
  options ← SplitString target_str " ";
  match options with
  | [] => Fatal "options[0] of an empty vector"
  | name :: options1 =>
      let config : gmap std_string Any := {[ kKind := AStr name ]} in
      kind ← GetTargetKind name;
      config ← FromRawString_loop target_str kind options1 config;
      FromConfig config
  end).

Definition FromString (tag_or_config_or_target_str : std_string) : Result TargetNode :=
  match TargetTag_Get tag_or_config_or_target_str with
  | Some target => Ok target
  | None =>
      if negb (bool_decide (tag_or_config_or_target_str = []))
         && bool_decide (tag_or_config_or_target_str !! 0%nat = Some "{"%char)
      then FromConfigString tag_or_config_or_target_str
      else FromRawString tag_or_config_or_target_str
  end.
End Bodies.

(** The recursion through nested targets (a target-valued attribute, a
    host) is cut at [fuel] levels of nesting. *)
Fixpoint TargetInternal_FromString (fuel : nat) : std_string -> Result TargetNode :=
  match fuel with
  | O => fun _ => OutOfFuel
  | S fuel' =>
      FromString (TargetInternal_FromString fuel') (TargetInternal_FromConfig fuel')
  end
with TargetInternal_FromConfig (fuel : nat) : gmap std_string Any -> Result TargetNode :=
  match fuel with
  | O => fun _ => OutOfFuel
  | S fuel' =>
      FromConfig (TargetInternal_FromString fuel') (TargetInternal_FromConfig fuel')
  end.

(** The public constructors [Target(const String&)] and
    [Target(const Map<String, Any>&)]. *)
Definition Target_String (fuel : nat) (s : std_string) : Result TargetNode :=
  Target_of_String (TargetInternal_FromString fuel) s.

Definition Target_Map (fuel : nat) (config : gmap std_string Any) : Result TargetNode :=
  Target_of_Map (TargetInternal_FromConfig fuel) config.
End Parsing.

(** ** Small member methods *)

(** [TargetNode::GetKeys]: the keys pushed one by one into a vector. *)
Definition GetKeys (t : TargetNode) : list std_string :=
  foldl (fun result expr => result ++ [expr]) [] (keys t).

(** [TargetNode::HasKey]: [std::any_of] over the keys. *)
Definition HasKey (t : TargetNode) (query_key : std_string) : bool :=
  existsb (fun key => bool_decide (key = query_key)) (keys t).

(** [TargetNode::GetHost]: the host field holds a target or nothing. *)
Definition GetHost (t : TargetNode) : option TargetNode := host t.

(** [Target::WithHost], which calls [TargetInternal::WithHost]: a copy of
    the node with the host replaced. *)
Definition WithHost (target host : TargetNode) : TargetNode :=
  mkTargetNode (kind target) (Some host) (tag target) (keys target) (attrs target)
    (features target).

(** [Target::WithoutHost]: a copy without the host when there is one, the
    target itself otherwise. *)
Definition WithoutHost (this : TargetNode) : TargetNode :=
  match GetHost this with
  | Some _ =>
      mkTargetNode (kind this) None (tag this) (keys this) (attrs this) (features this)
  | None => this
  end.

(** [TargetNode::Export]: the map starts with the kind, the tag and the
    keys; the export of the host is set when there is a host; then every
    attribute is set, in the iteration order of the attributes. *)
Fixpoint Export (t : TargetNode) : gmap std_string Any :=
  let '(mkTargetNode kind host tag keys attrs _) := t in
  let result : gmap std_string Any :=
    list_to_map [("kind" : std_string, AStr kind); ("tag" : std_string, AStr tag);
                 ("keys" : std_string, AArray (AStr <$> keys))] in
  let result :=
    match host with
    | Some h => <[("host" : std_string) := Any_of_Map (Export h)]> result
    | None => result
    end in
  foldl (fun result kv => <[kv.1 := kv.2]> result) result (map_to_list attrs).

(** The number of hosts nested in a target. *)
Fixpoint host_depth (t : TargetNode) : nat :=
  let '(mkTargetNode _ host _ _ _ _) := t in
  match host with
  | Some h => S (host_depth h)
  | None => 0%nat
  end.

(** ** The context stack *)

Module Context.
(** A [Target] reference: the address of the node it points to, with the
    node; [Target()] is the null reference. [same_as] compares the
    addresses. *)
Inductive Target : Type :=
| Target_null
| Target_ref (data_ : positive) (node : TargetNode).

Definition same_as (a b : Target) : bool :=
  match a, b with
  | Target_null, Target_null => true
  | Target_ref p _, Target_ref q _ => bool_decide (p = q)
  | _, _ => false
  end.

(** [TVMTargetThreadLocalEntry] of the calling thread: the top of the
    stack is the head of the list. *)
Record TVMTargetThreadLocalEntry : Type := mkEntry { context_stack : list Target }.

Definition EnterWithScope (this : Target) (entry : TVMTargetThreadLocalEntry)
    : TVMTargetThreadLocalEntry :=
  mkEntry (this :: context_stack entry).

Definition ExitWithScope (this : Target) (entry : TVMTargetThreadLocalEntry)
    : Result TVMTargetThreadLocalEntry :=
  match context_stack entry with
  | [] => Fatal "Check failed: !entry->context_stack.empty()"
  | top :: rest =>
      ICHECK (same_as top this) "Check failed: entry->context_stack.top().same_as(*this)"
        (Ok (mkEntry rest))
  end.

Definition Current (allow_not_defined : bool) (entry : TVMTargetThreadLocalEntry)
    : Result Target :=
  match context_stack entry with
  | top :: _ => Ok top
  | [] =>
      ICHECK allow_not_defined
        "Target context required. Please set it by constructing a TargetContext"
        (Ok Target_null)
  end.

(** A sequence of scope operations run from an entry; the first fatal
    exit ends the run. *)
Inductive Op : Type := Enter (t : Target) | Exit (t : Target).

Fixpoint run (ops : list Op) (entry : TVMTargetThreadLocalEntry)
    : Result TVMTargetThreadLocalEntry :=
  match ops with
  | [] => Ok entry
  | Enter t :: ops' => run ops' (EnterWithScope t entry)
  | Exit t :: ops' => entry' ← ExitWithScope t entry; run ops' entry'
  end.
End Context.

(** ** The specification's words, for comparison with the code *)

Module Spec.
(** Section 4.1: "an escape character toggles escaping for exactly the
    next character". The character at index [i] of [s], past the opening
    quote at index 0, is escaped when it follows an escape character that
    is not escaped itself. *)
Fixpoint escaped (s : std_string) (i : nat) : bool :=
  match i with
  | O => false
  | S j =>
      match j with
      | O => false
      | S _ => bool_decide (s !! j = Some escape) && negb (escaped s j)
      end
  end.

(** "[s] has length at least 2, starts and ends with the quote character
    and contains no unescaped interior quote". *)
Definition IsFullyQuoted (s : std_string) : Prop :=
  (2 <= length s)%nat
  /\ s !! 0%nat = Some quote
  /\ s !! (length s - 1)%nat = Some quote
  /\ forall i, (0 < i < length s - 1)%nat -> s !! i = Some quote -> escaped s i = true.

(** Section 4.2, in two passes. The first pass cuts the string into
    units: an escape character with the character that follows it, or a
    single character. *)
Inductive unit : Type :=
| Escaped (c : ascii)
| Plain (c : ascii).

Fixpoint units (s : std_string) : list unit :=
  match s with
  | [] => []
  | c :: s1 =>
      if Ascii.eqb c escape then
        match s1 with
        | c1 :: s2 => Escaped c1 :: units s2
        | [] => [Plain c]
        end
      else Plain c :: units s1
  end.

Definition text (u : unit) : std_string :=
  match u with
  | Escaped c => [escape; c]
  | Plain c => [c]
  end.

(** The second pass walks the units with the quoted flag, which a plain
    quote toggles: a plain separator outside a quoted region ends the
    token, every other unit is copied. The result is the list of tokens
    and the final flag. *)
Fixpoint tokens (sep : ascii) (us : list unit) (quoted : bool)
    : list std_string * bool :=
  match us with
  | [] => ([[]], quoted)
  | u :: us' =>
      let is_sep := match u with Plain c => Ascii.eqb c sep && negb quoted | _ => false end in
      let toggles := match u with Plain c => Ascii.eqb c quote | _ => false end in
      let '(toks, final) := tokens sep us' (if toggles then negb quoted else quoted) in
      if is_sep then ([] :: toks, final)
      else
        match toks with
        | tok :: toks' => ((text u ++ tok) :: toks', final)
        | [] => ([text u], final)
        end
  end.

(** The state that the tokens of the second pass leave behind when they
continue a current word [cur] after the output [out]: every token but the
last is finished and pushed when it is not empty, the last one is the
current word. *)
Fixpoint absorb (out : list std_string) (cur : std_string) (toks : list std_string)
    : list std_string * std_string :=
  match toks with
  | [] => (out, cur)
  | tok :: toks' =>
      match toks' with
      | [] => (out, cur ++ tok)
      | _ :: _ => absorb (if bool_decide (cur ++ tok = []) then out else out ++ [cur ++ tok]) [] toks'
      end
  end.

(** "Empty tokens are dropped"; "mismatched quotes is a fatal error". *)
Definition SplitString (s : std_string) (sep : ascii) : Result (list std_string) :=
  let '(toks, final) := tokens sep (units s) false in
  if final then Fatal "Mismatched quotes '' in string"
  else Ok (filter (fun tok => tok <> []) toks).

(** Section 4.6, step 5, as the claim words it: the explicit keys or
    else the default keys, then the device, then the removal of
    duplicates that keeps the first occurrence. *)
Fixpoint dedup_first (l : list std_string) : list std_string :=
  match l with
  | [] => []
  | k :: l' => k :: filter (fun k' => k' <> k) (dedup_first l')
  end.

Definition resolve_keys (explicit_keys : option (list std_string))
    (default_keys : list std_string) (device : option std_string) : list std_string :=
  dedup_first (default default_keys explicit_keys ++ option_list device).
End Spec.

(** ** Canonical targets

    The targets that the stringifier renders without loss: what [str]
    leaves out (host, tag, features) is absent, the names are free of the
    characters of the flag grammar, and each attribute value is of the type
    of its schema and in the form the parser produces. *)

Module Canonical.
(** A character of a word: no space, comma, quote or escape. *)
Definition plain_char (c : ascii) : bool :=
  negb (Ascii.eqb c " ") && negb (Ascii.eqb c ",")
  && negb (Ascii.eqb c quote) && negb (Ascii.eqb c escape).

Definition plain_word (w : std_string) : bool :=
  negb (bool_decide (w = [])) && forallb plain_char w.

(** A character of an attribute name: also no [=]. *)
Definition key_char (c : ascii) : bool :=
  negb (Ascii.eqb c " ") && negb (Ascii.eqb c "=")
  && negb (Ascii.eqb c quote) && negb (Ascii.eqb c escape).

Definition plain_key (key : std_string) : bool :=
  negb (bool_decide (key = []))
  && negb (bool_decide (key !! 0%nat = Some "-"%char))
  && forallb key_char key.

(** A character of a kind name. *)
Definition name_char (c : ascii) : bool :=
  negb (Ascii.eqb c " ") && negb (Ascii.eqb c quote) && negb (Ascii.eqb c escape).

Definition plain_name (name : std_string) : bool :=
  negb (bool_decide (name = []))
  && negb (bool_decide (name !! 0%nat = Some "{"%char))
  && forallb name_char name.

(** A string as the string schema parses it: not empty, without a space
    at either end. *)
Definition trimmed (s : std_string) : bool :=
  negb (bool_decide (s = []))
  && negb (bool_decide (s !! 0%nat = Some " "%char))
  && negb (bool_decide (last s = Some " "%char)).

(** An element of an array: a non-empty string without space or comma. *)
Definition element_char (c : ascii) : bool :=
  negb (Ascii.eqb c " ") && negb (Ascii.eqb c ",").

Definition element (w : std_string) : bool :=
  negb (bool_decide (w = [])) && forallb element_char w.

Definition is_element (e : Any) : bool :=
  match e with AStr w => element w | _ => false end.

(** A value in canonical form for a schema: a 64-bit integer, a boolean, a
    trimmed string, or a non-empty array of elements. *)
Definition canonical_value (info : ValueTypeInfo) (v : Any) : bool :=
  match info, v with
  | mkValueTypeInfo kTVMFFIInt _ _ _, AInt z => (INT64_MIN <=? z) && (z <=? INT64_MAX)
  | mkValueTypeInfo kTVMFFIBool _ _ _, ABool _ => true
  | mkValueTypeInfo kTVMFFIStr _ _ _, AStr s => trimmed s
  | mkValueTypeInfo kArrayIndex _ (Some (mkValueTypeInfo kTVMFFIStr _ _ _)) _, AArray l =>
      negb (bool_decide (l = [])) && forallb is_element l
  | _, _ => false
  end.

(** The names that [FromConfig] and [FromRawString] treat apart from the
    attributes. *)
Definition reserved : list std_string :=
  [kKind; kTag; kKeys; kHost; kFeatures; "from_device" : std_string].

Definition canonical_attr (knd : TargetKindNode) (kv : std_string * Any) : bool :=
  plain_key kv.1
  && negb (bool_decide (kv.1 ∈ reserved))
  && match key2vtype_ knd !! kv.1 with
     | Some info => canonical_value info kv.2
     | None => false
     end.

(** The keys: distinct words that contain the device, parsed back by the
    [keys] schema of the kind; no key at all only for a kind without
    default keys. *)
Definition canonical_keys (knd : TargetKindNode) (t : TargetNode) : bool :=
  bool_decide (NoDup (keys t))
  && forallb plain_word (keys t)
  && match attrs t !! kDeviceName with
     | Some (AStr device) => bool_decide (device ∈ keys t)
     | _ => true
     end
  && if bool_decide (keys t = []) then bool_decide (default_keys knd = [])
     else match key2vtype_ knd !! kKeys with
          | Some (mkValueTypeInfo kArrayIndex _ (Some (mkValueTypeInfo kTVMFFIStr _ _ _)) _) =>
              true
          | _ => false
          end.

Definition canonical (knd : TargetKindNode) (t : TargetNode) : bool :=
  plain_name (kind t)
  && bool_decide (host t = None)
  && bool_decide (tag t = [])
  && bool_decide (map_to_list (features t) = [])
  && canonical_keys knd t
  && forallb (canonical_attr knd) (map_to_list (attrs t))
  && forallb (fun kv => bool_decide (is_Some (attrs t !! kv.1)))
       (map_to_list (key2default_ knd)).
End Canonical.

(** ** The text of an attribute

    The value of an attribute as [StringifyAttrsToRaw] renders it, and the
    flag it pushes for a key. *)

Definition Stringify_value `{!Registry} (obj : Any) : Result std_string :=
  match as_ArrayObj obj with
  | Some array => StringifyArray array
  | None => StringifyAtomicType obj
  end.

Definition value_text `{!Registry} (obj : Any) : std_string :=
  match Stringify_value obj with
  | Ok value => value
  | _ => []
  end.

Definition flag `{!Registry} (kv : std_string * Any) : std_string :=
  "-" ++ kv.1 ++ "=" ++ value_text kv.2.

(** An attribute that a flag carries: a plain name with a schema in the
    kind and a canonical value for it. *)
Definition carried (knd : TargetKindNode) (kv : std_string * Any) : Prop :=
  Canonical.plain_key kv.1 = true
  /\ exists info, key2vtype_ knd !! kv.1 = Some info
       /\ Canonical.canonical_value info kv.2 = true.

(** The attributes in the order of [StringifyAttrsToRaw], each key with
    its value, and the entry that [str] writes for the keys of a target. *)
Definition sorted_entries (attrs : gmap std_string Any) : list (std_string * Any) :=
  (fun key => (key, default ANone (attrs !! key)))
    <$> merge_sort String_le ((map_to_list attrs).*1).

Definition keys_entry (keys : list std_string) : list (std_string * Any) :=
  if bool_decide (keys = []) then [] else [(kKeys, AArray (AStr <$> keys))].

(** ** A registry for the examples

    One kind, [llvm], with the attributes of the examples of the
    specification, the default key [cpu] and no hook; no tag, no config
    loader and no device API. *)

Module Demo.
Definition scalar (i : TypeIndex) (type_key : std_string) : ValueTypeInfo :=
  mkValueTypeInfo i type_key None None.

Definition array_of (info : ValueTypeInfo) : ValueTypeInfo :=
  mkValueTypeInfo kArrayIndex "ffi.Array" (Some info) None.

Definition t_int := scalar kTVMFFIInt "int".
Definition t_bool := scalar kTVMFFIBool "bool".
Definition t_str := scalar kTVMFFIStr "ffi.String".
Definition t_target := scalar kTargetIndex "target.Target".

Definition llvm : TargetKindNode :=
  {| name := "llvm";
     key2vtype_ :=
       list_to_map
         [("keys" : std_string, array_of t_str); ("tag" : std_string, t_str);
          ("device" : std_string, t_str); ("host" : std_string, t_target);
          ("mcpu" : std_string, t_str); ("mattr" : std_string, array_of t_str);
          ("opt-level" : std_string, t_int); ("link-params" : std_string, t_bool)];
     key2default_ := ∅;
     default_keys := ["cpu" : std_string];
     default_device_type := 1;
     preprocessor := None;
     target_parser := None |}.

Definition registry : Registry :=
  {| TargetKind_Get := fun name =>
       if bool_decide (name = ("llvm" : std_string)) then Some llvm else None;
     TargetTag_Get := fun _ => None;
     load_config_dict := None;
     DeviceAPI_Get := fun _ _ => None;
     GetTypeKey := fun obj =>
       match obj with
       | ANone => "None" | ABool _ => "bool" | AInt _ => "int" | AStr _ => "ffi.String"
       | ATarget _ => "target.Target" | AArray _ => "ffi.Array" | AMap _ => "ffi.Map"
       end;
     AnyRepr := fun _ => "<object>";
     AnyEqual := fun _ _ => false |}.
End Demo.

(** ** Exported targets

    The targets that [Export] writes without loss: the kind is registered
    under its name and has no hook, there is no feature, the keys are
    distinct and hold the device, every attribute has a name that
    [FromConfig] does not treat apart, a schema, and a value of the type of
    that schema, every default of the kind is among the attributes, and the
    host, if any, is such a target. *)

(** A value that has the type of a schema already, so that the object
    parser has nothing to convert. *)
Fixpoint has_type (info : ValueTypeInfo) (v : Any) : bool :=
  let '(mkValueTypeInfo type_index _ key _) := info in
  match type_index, v with
  | kTVMFFINone, ANone => true
  | kTVMFFIInt, AInt _ => true
  | kTVMFFIBool, ABool _ => true
  | kTVMFFIStr, AStr _ => true
  | kTargetIndex, ATarget _ => true
  | kArrayIndex, AArray l =>
      match key with
      | Some key => forallb (has_type key) l
      | None => false
      end
  | _, _ => false
  end.

(** A schema without a map in it. *)
Fixpoint map_free (info : ValueTypeInfo) : bool :=
  let '(mkValueTypeInfo type_index _ key _) := info in
  if bool_decide (type_index = kMapIndex) then false
  else if bool_decide (type_index = kArrayIndex) then
    match key with Some key => map_free key | None => true end
  else true.

Fixpoint exportable `{!Registry} (t : TargetNode) : bool :=
  let '(mkTargetNode kind host _ keys attrs features) := t in
  match TargetKind_Get kind with
  | Some knd =>
      bool_decide (name knd = kind)
      && match preprocessor knd, target_parser knd with
         | None, None => true
         | _, _ => false
         end
      && bool_decide (map_to_list features = [])
      && bool_decide (NoDup keys)
      && match attrs !! kDeviceName with
         | Some (AStr device) => bool_decide (device ∈ keys)
         | _ => true
         end
      && forallb (fun kv =>
                    negb (bool_decide (kv.1 ∈ Canonical.reserved))
                    && match key2vtype_ knd !! kv.1 with
                       | Some info => has_type info kv.2
                       | None => false
                       end)
           (map_to_list attrs)
      && forallb (fun kv => bool_decide (is_Some (attrs !! kv.1)))
           (map_to_list (key2default_ knd))
      && match host with
         | Some h => exportable h
         | None => true
         end
  | None => false
  end.

(** ** Values with a text

    The values that [StringifyAtomicType] writes, and the attribute values
    that [StringifyAttrsToRaw] gets through: an undefined value, which it
    skips, an atomic value, and an array of atomic values. *)

Definition atomic (v : Any) : bool :=
  match v with
  | ABool _ | AInt _ | AStr _ => true
  | _ => false
  end.

Definition stringifiable (v : Any) : bool :=
  match v with
  | ANone => true
  | AArray l => forallb atomic l
  | _ => atomic v
  end.

(** ** A registry with defaults and a device

    One kind, [cuda], with a default for [max_num_threads], and a device
    API that knows device 0 of device type 2 and its [arch]. *)

Module DeviceDemo.
Definition cuda : TargetKindNode :=
  {| name := "cuda";
     key2vtype_ :=
       list_to_map
         [("keys" : std_string, Demo.array_of Demo.t_str); ("tag" : std_string, Demo.t_str);
          ("device" : std_string, Demo.t_str); ("host" : std_string, Demo.t_target);
          ("from_device" : std_string, Demo.t_int); ("arch" : std_string, Demo.t_str);
          ("max_num_threads" : std_string, Demo.t_int)];
     key2default_ := {[ ("max_num_threads" : std_string) := AInt 1024 ]};
     default_keys := ["cuda" : std_string; "gpu" : std_string];
     default_device_type := 2;
     preprocessor := None;
     target_parser := None |}.

Definition api : DeviceAPI :=
  {| GetAttr_kExist := true;
     GetTargetProperty := fun key =>
       if bool_decide (key = ("arch" : std_string)) then AStr "sm_80" else ANone |}.

Definition registry : Registry :=
  {| TargetKind_Get := fun name =>
       if bool_decide (name = ("cuda" : std_string)) then Some cuda
       else if bool_decide (name = ("llvm" : std_string)) then Some Demo.llvm
       else None;
     TargetTag_Get := fun _ => None;
     load_config_dict := None;
     DeviceAPI_Get := fun device_type device_id =>
       if bool_decide (device_type = 2) && bool_decide (device_id = 0) then Some api
       else None;
     GetTypeKey := @GetTypeKey Demo.registry;
     AnyRepr := fun _ => "<object>";
     AnyEqual := fun _ _ => false |}.
End DeviceDemo.

(** The config of the example of the specification. *)
Definition example_config : gmap std_string Any :=
  {[ kKind := AStr "llvm"; kKeys := AArray [AStr "cpu"]; kDeviceName := AStr "arm" ]}.

(** * Properties *)

(** ** Strings and characters *)

Lemma substr_all (s : std_string) : substr s 0 (length s - 0) = s.
Proof. unfold substr. rewrite drop_0, Nat.sub_0_r. apply firstn_all. Qed.

Lemma eqb_escape_quote : Ascii.eqb escape quote = false.
Proof. reflexivity. Qed.

Lemma eqb_quote_escape : Ascii.eqb quote escape = false.
Proof. reflexivity. Qed.

(** ** Uninterpret and Interpret *)

Lemma Uninterpret_head (s : std_string) : Uninterpret s !! 0%nat <> Some quote.
Proof.
  destruct s as [| c s]; [ discriminate | ].
  simpl. destruct (Ascii.eqb_spec c escape) as [-> | He]; [ discriminate | ].
  destruct (Ascii.eqb_spec c quote) as [-> | Hq]; simpl; [ discriminate | congruence ].
Qed.

Lemma IsQuoted_head (s : std_string) : s !! 0%nat <> Some quote -> IsQuoted s = false.
Proof.
  intros Hs. unfold IsQuoted.
  rewrite (bool_decide_eq_false_2 _ Hs). simpl. now rewrite orb_true_r.
Qed.

Lemma IsQuoted_Uninterpret (s : std_string) : IsQuoted (Uninterpret s) = false.
Proof. apply IsQuoted_head, Uninterpret_head. Qed.

Lemma Interpret_loop_Uninterpret_app (s rest result : std_string) :
  Interpret_loop (Uninterpret s ++ rest) false false result
  = Interpret_loop rest false false (result ++ s).
Proof.
  revert result. induction s as [| c s IH]; intros result; simpl.
  - now rewrite app_nil_r.
  - destruct (Ascii.eqb_spec c escape) as [-> | He]; simpl.
    + rewrite IH. now rewrite <- app_assoc.
    + destruct (Ascii.eqb_spec c quote) as [-> | Hq]; simpl.
      * rewrite IH. now rewrite <- app_assoc.
      * destruct (Ascii.eqb_spec c escape); [ contradiction | ].
        destruct (Ascii.eqb_spec c quote); [ contradiction | ].
        rewrite IH. now rewrite <- app_assoc.
Qed.

Lemma Interpret_loop_Uninterpret (s result : std_string) :
  Interpret_loop (Uninterpret s) false false result = result ++ s.
Proof.
  rewrite <- (app_nil_r (Uninterpret s)). now rewrite Interpret_loop_Uninterpret_app.
Qed.

(** C2. [Interpret (Uninterpret s) = s] for every string [s], whatever
    quotes and escapes it contains. *)
Theorem Interpret_Uninterpret (s : std_string) : Interpret (Uninterpret s) = s.
Proof.
  unfold Interpret. case_bool_decide as Hu.
  - destruct s as [| c s]; [ reflexivity | ].
    simpl in Hu. destruct (Ascii.eqb c escape || Ascii.eqb c quote); discriminate.
  - rewrite IsQuoted_Uninterpret, substr_all. apply Interpret_loop_Uninterpret.
Qed.

(** C7. The code has no check for a trailing escape: [Interpret] returns
    on every input. A literal followed by a lone escape character is read
    as the literal, the escape being dropped; on the string made of [a] and
    a final escape the result is [a], and inside an open quote the input
    comes back unchanged. The raw target string [llvm -mcpu=a\] reaches
    [Interpret] with that value and builds a target. *)
Theorem Interpret_trailing_escape :
  (forall s : std_string, Interpret (Uninterpret s ++ [escape]) = s)
  /\ Interpret "a\" = ("a" : std_string)
  /\ Interpret "'a\" = ("'a\" : std_string)
  /\ @TargetInternal_FromString Demo.registry 1 "llvm -mcpu=a\"
     = Ok (mkTargetNode "llvm" None [] ["cpu" : std_string]
             {[ ("mcpu" : std_string) := AStr "a" ]} ∅).
Proof.
  split; [ | split; [ reflexivity | split; [ reflexivity | vm_compute; reflexivity ] ] ].
  intros s. unfold Interpret. case_bool_decide as Hu.
  - now apply app_eq_nil in Hu as [_ ?].
  - rewrite IsQuoted_head, substr_all.
    + rewrite Interpret_loop_Uninterpret_app. reflexivity.
    + destruct s as [| c s]; [ discriminate | ].
      intros H. apply (Uninterpret_head (c :: s)).
      simpl in *. destruct (Ascii.eqb c escape || Ascii.eqb c quote); exact H.
Qed.

#[local] Arguments Spec.escaped : simpl never.

Lemma escaped_S (s : std_string) (j : nat) :
  (0 < j)%nat ->
  Spec.escaped s (S j) = bool_decide (s !! j = Some escape) && negb (Spec.escaped s j).
Proof. destruct j; [ lia | reflexivity ]. Qed.

(** The loop of [IsQuoted], started after a non-empty prefix [pre] in the
    escaping state of the specification at that index. *)
Lemma IsQuoted_loop_escaped (body pre tl : std_string) :
  pre <> [] ->
  let s := pre ++ body ++ tl in
  IsQuoted_loop body (Spec.escaped s (length pre)) = true
  <-> (forall i, (length pre <= i < length pre + length body)%nat ->
         s !! i = Some quote -> Spec.escaped s i = true)
      /\ Spec.escaped s (length pre + length body) = false.
Proof.
  revert pre. induction body as [| c body IH]; intros pre Hpre s.
  - simpl. rewrite Nat.add_0_r. split.
    + intros H. split; [ intros i Hi; lia | ]. now apply negb_true_iff.
    + intros [_ H]. now apply negb_true_iff.
  - assert (Hs : s = (pre ++ [c]) ++ body ++ tl) by (subst s; now rewrite <- app_assoc).
    assert (Hc : s !! length pre = Some c).
    { subst s. rewrite lookup_app_r by lia. now rewrite Nat.sub_diag. }
    assert (Hlen : (0 < length pre)%nat) by (destruct pre; simpl; [ congruence | lia ]).
    specialize (IH (pre ++ [c])). simpl in IH. rewrite <- Hs in IH.
    rewrite length_app in IH. simpl in IH.
    rewrite Nat.add_1_r, escaped_S, Hc in IH by lia.
    assert (Hnil : pre ++ [c] <> []) by (destruct pre; discriminate).
    specialize (IH Hnil).
    simpl. destruct (Spec.escaped s (length pre)) eqn:He.
    + rewrite andb_false_r in IH. rewrite IH.
      replace (length pre + S (length body))%nat with (S (length pre) + length body)%nat by lia.
      split; intros [H1 H2]; (split; [ | exact H2 ]); intros i Hi Hq.
      * destruct (decide (i = length pre)) as [-> | Hne]; [ exact He | apply H1; [ lia | exact Hq ] ].
      * apply H1; [ lia | exact Hq ].
    + rewrite andb_true_r in IH.
      replace (length pre + S (length body))%nat with (S (length pre) + length body)%nat by lia.
      destruct (Ascii.eqb_spec c escape) as [-> | Hce].
      * rewrite bool_decide_eq_true_2 in IH by reflexivity. rewrite IH.
        split; intros [H1 H2]; (split; [ | exact H2 ]); intros i Hi Hq.
        -- destruct (decide (i = length pre)) as [-> | Hne]; [ | apply H1; [ lia | exact Hq ] ].
           rewrite Hc in Hq. discriminate.
        -- apply H1; [ lia | exact Hq ].
      * rewrite bool_decide_eq_false_2 in IH by congruence.
        destruct (Ascii.eqb_spec c quote) as [-> | Hcq].
        -- split; [ discriminate | ]. intros [H1 _].
           specialize (H1 (length pre)). rewrite He in H1. apply H1; [ lia | exact Hc ].
        -- rewrite IH.
           split; intros [H1 H2]; (split; [ | exact H2 ]); intros i Hi Hq.
           ++ destruct (decide (i = length pre)) as [-> | Hne]; [ | apply H1; [ lia | exact Hq ] ].
              rewrite Hc in Hq. congruence.
           ++ apply H1; [ lia | exact Hq ].
Qed.

(** A string of length at least 2 is its first character, its interior and
    its last character. *)
Lemma split_ends (s : std_string) :
  (2 <= length s)%nat ->
  exists a body z, s = [a] ++ body ++ [z]
    /\ body = substr s 1 (length s - 1 - 1).
Proof.
  intros Hlen. destruct s as [| a s]; [ simpl in Hlen; lia | ].
  destruct (exists_last (l := s)) as (body & z & ->).
  { destruct s; simpl in Hlen; [ lia | discriminate ]. }
  exists a, body, z. split; [ reflexivity | ].
  unfold substr. simpl. rewrite length_app. simpl.
  replace (length body + 1 - 0 - 1)%nat with (length body) by lia.
  rewrite drop_0. now rewrite take_app_length.
Qed.

(** C3 (amended). [IsQuoted s] holds exactly when [s] has length at least 2,
    starts and ends with the quote character, contains no unescaped interior
    quote, and its final quote is itself not escaped; the two examples of
    the specification evaluate as stated. *)
Theorem IsQuoted_iff (s : std_string) :
  (IsQuoted s = true
   <-> Spec.IsFullyQuoted s /\ Spec.escaped s (length s - 1) = false)
  /\ IsQuoted "'a\'b'" = true
  /\ IsQuoted "'a'b'" = false.
Proof.
  split; [ | split; reflexivity ].
  unfold IsQuoted, Spec.IsFullyQuoted. simpl.
  destruct (Nat.ltb_spec (length s) 2) as [Hlt | Hge]; simpl.
  { split; [ discriminate | intros [[H _] _]; lia ]. }
  case_bool_decide as H0; simpl; [ | split; [ discriminate | tauto ] ].
  case_bool_decide as H1; simpl; [ | split; [ discriminate | tauto ] ].
  destruct (split_ends s Hge) as (a & body & z & Hs & Hbody).
  rewrite <- Hbody.
  pose proof (IsQuoted_loop_escaped body [a] [z]) as HL.
  simpl in HL. simpl in Hs. rewrite <- Hs in HL.
  assert (Hl : length s = S (S (length body))).
  { rewrite Hs. simpl. rewrite length_app. simpl. lia. }
  rewrite HL by discriminate.
  replace (length s - 1)%nat with (S (length body)) by lia.
  split.
  - intros [Ha Hb]. split; [ | exact Hb ].
    split; [ lia | ]. split; [ exact H0 | ]. split.
    + replace (S (length body)) with (length s - 1)%nat by lia. exact H1.
    + intros i Hi. apply Ha. lia.
  - intros [(_ & _ & _ & Ha) Hb]. split; [ | exact Hb ].
    intros i Hi. apply Ha. lia.
Qed.

(** C3, as stated, fails: the three characters quote, escape, quote have
    length at least 2, start and end with a quote and have no interior
    quote at all, and [IsQuoted] is false on them. *)
Lemma IsQuoted_escaped_closing_quote :
  Spec.IsFullyQuoted "'\'" /\ IsQuoted "'\'" = false.
Proof.
  split; [ | reflexivity ].
  repeat split; simpl; [ lia | ].
  intros i Hi. assert (i = 1%nat) as -> by lia. discriminate.
Qed.

(** ** ParseKVPair *)

Lemma find_first_of_None (c : ascii) (s : std_string) :
  c ∉ s -> find_first_of c s = None.
Proof.
  induction s as [| x s IH]; intros Hc; simpl; [ reflexivity | ].
  apply not_elem_of_cons in Hc as [Hx Hs].
  destruct (Ascii.eqb_spec x c); [ congruence | ]. now rewrite IH.
Qed.

Lemma find_first_of_app (c : ascii) (k v : std_string) :
  c ∉ k -> find_first_of c (k ++ c :: v) = Some (length k).
Proof.
  induction k as [| x k IH]; intros Hc; simpl.
  - now rewrite Ascii.eqb_refl.
  - apply not_elem_of_cons in Hc as [Hx Hk].
    destruct (Ascii.eqb_spec x c); [ congruence | ]. now rewrite IH.
Qed.

Lemma substr_prefix (k v : std_string) : substr (k ++ v) 0 (length k) = k.
Proof. unfold substr. rewrite drop_0. apply take_app_length. Qed.

Lemma substr_from_suffix (k : std_string) (c : ascii) (v : std_string) :
  substr_from (k ++ c :: v) (length k + 1) = v.
Proof.
  unfold substr_from. rewrite (cons_middle c k v), app_assoc.
  replace (length k + 1)%nat with (length (k ++ [c])) by (rewrite length_app; reflexivity).
  apply drop_app_length.
Qed.

Lemma ParseKVPair_split (k v s_next : std_string) :
  "="%char ∉ k -> k <> [] -> v <> [] ->
  ParseKVPair (k ++ "="%char :: v) s_next = Ok (1%nat, k, v).
Proof.
  intros Hk Hk' Hv'. unfold ParseKVPair.
  rewrite find_first_of_app, substr_prefix, substr_from_suffix by exact Hk.
  now rewrite (bool_decide_eq_false_2 _ Hk'), (bool_decide_eq_false_2 _ Hv').
Qed.

(** C5. [ParseKVPair] on a dash-stripped token [s] and the next raw token
    [s_next]: with [s] cut at its first [=] into [k] and [v], the call
    throws a ValueError when [k] or [v] is empty and otherwise returns [k],
    [v] and 1; without [=] in [s], it returns [s], [s_next] and 2 when
    [s_next] is non-empty and does not start with a dash, and [s], the text
    [1] and 1 otherwise. *)
Theorem ParseKVPair_cases (s s_next : std_string) :
  (forall k v : std_string, s = k ++ "="%char :: v -> "="%char ∉ k ->
     (k = [] \/ v = [] ->
        exists message, ParseKVPair s s_next = Throw (mkError "ValueError" message))
     /\ (k <> [] -> v <> [] -> ParseKVPair s s_next = Ok (1%nat, k, v)))
  /\ ("="%char ∉ s -> s_next <> [] -> s_next !! 0%nat <> Some "-"%char ->
        ParseKVPair s s_next = Ok (2%nat, s, s_next))
  /\ ("="%char ∉ s -> s_next = [] \/ s_next !! 0%nat = Some "-"%char ->
        ParseKVPair s s_next = Ok (1%nat, s, "1" : std_string)).
Proof.
  split; [ | split ].
  - intros k v -> Hk. unfold ParseKVPair.
    rewrite find_first_of_app, substr_prefix, substr_from_suffix by exact Hk.
    split.
    + intros Hempty.
      destruct Hempty as [-> | ->]; [ eexists; reflexivity | ].
      rewrite (bool_decide_eq_true_2 (@nil ascii = [])) by reflexivity.
      rewrite orb_true_r. eexists; reflexivity.
    + intros Hk' Hv'.
      now rewrite (bool_decide_eq_false_2 _ Hk'), (bool_decide_eq_false_2 _ Hv').
  - intros Hs Hn Hd. unfold ParseKVPair. rewrite find_first_of_None by exact Hs.
    now rewrite (bool_decide_eq_false_2 _ Hn), (bool_decide_eq_false_2 _ Hd).
  - intros Hs Hn. unfold ParseKVPair. rewrite find_first_of_None by exact Hs.
    destruct Hn as [-> | Hd]; [ reflexivity | ].
    rewrite (bool_decide_eq_true_2 _ Hd). simpl. now rewrite andb_false_r.
Qed.

Lemma ParseKVPair_cases_witness :
  ParseKVPair "mcpu=cortex-a53" "-keys=cpu"
    = Ok (1%nat, "mcpu" : std_string, "cortex-a53" : std_string)
  /\ (exists message, ParseKVPair "mcpu=" "x" = Throw (mkError "ValueError" message))
  /\ ParseKVPair "mcpu" "x" = Ok (2%nat, "mcpu" : std_string, "x" : std_string)
  /\ ParseKVPair "link-params" "-mcpu" = Ok (1%nat, "link-params" : std_string, "1" : std_string).
Proof.
  split; [ | split; [ | split ] ].
  - apply (proj1 (ParseKVPair_cases "mcpu=cortex-a53" "-keys=cpu") "mcpu" "cortex-a53");
      [ reflexivity | | discriminate | discriminate ].
    intros H. repeat (apply elem_of_cons in H as [H | H]; [ discriminate | ]).
    now apply elem_of_nil in H.
  - apply (proj1 (ParseKVPair_cases "mcpu=" "x") "mcpu" []); [ reflexivity | | now right ].
    intros H. repeat (apply elem_of_cons in H as [H | H]; [ discriminate | ]).
    now apply elem_of_nil in H.
  - apply (proj1 (proj2 (ParseKVPair_cases "mcpu" "x"))); [ | discriminate | discriminate ].
    intros H. repeat (apply elem_of_cons in H as [H | H]; [ discriminate | ]).
    now apply elem_of_nil in H.
  - apply (proj2 (proj2 (ParseKVPair_cases "link-params" "-mcpu"))); [ | now right ].
    intros H. repeat (apply elem_of_cons in H as [H | H]; [ discriminate | ]).
    now apply elem_of_nil in H.
Defined.

(** ** The context stack *)

Lemma run_app (ops ops' : list Context.Op) (entry : Context.TVMTargetThreadLocalEntry) :
  Context.run (ops ++ ops') entry = Context.run ops entry ≫= Context.run ops'.
Proof.
  revert entry. induction ops as [| [t | t] ops IH]; intros entry; simpl.
  - reflexivity.
  - apply IH.
  - destruct (Context.ExitWithScope t entry); simpl; [ apply IH | reflexivity .. ].
Qed.

(** C8. [ExitWithScope] succeeds exactly when the stack is non-empty and its
    top is the same object as the target, and then pops the top; otherwise
    it is fatal, and no later operation recovers a fatal run. Identity is the
    address, not the value of the node. The sequence Enter(A); Enter(B);
    Exit(A) is fatal exactly when [A] and [B] are not the same object. *)
Theorem ExitWithScope_iff (this : Context.Target) (entry : Context.TVMTargetThreadLocalEntry) :
  (forall entry', Context.ExitWithScope this entry = Ok entry'
     <-> exists top, Context.context_stack entry = top :: Context.context_stack entry'
                     /\ Context.same_as top this = true)
  /\ (is_Ok (Context.ExitWithScope this entry) = false ->
        exists msg, Context.ExitWithScope this entry = Fatal msg)
  /\ (forall ops msg ops', Context.run ops entry = Fatal msg ->
        Context.run (ops ++ ops') entry = Fatal msg)
  /\ (forall p q node node', Context.same_as (Context.Target_ref p node)
        (Context.Target_ref q node') = bool_decide (p = q))
  /\ (forall B, Context.same_as B this = false <->
        exists msg, Context.run [Context.Enter this; Context.Enter B; Context.Exit this] entry
                    = Fatal msg).
Proof.
  split; [ | split; [ | split; [ | split ] ] ].
  - intros [stack']. unfold Context.ExitWithScope. simpl.
    destruct entry as [[| top rest]]; simpl.
    + split; [ discriminate | intros (? & ? & _); discriminate ].
    + unfold ICHECK. destruct (Context.same_as top this) eqn:Hsame.
      * split.
        -- intros [= ->]. now exists top.
        -- intros (top' & [= -> ->] & _). reflexivity.
      * split; [ discriminate | intros (top' & [= -> ->] & ?); congruence ].
  - unfold Context.ExitWithScope.
    destruct (Context.context_stack entry) as [| top rest]; [ eauto | ].
    unfold ICHECK. destruct (Context.same_as top this); [ discriminate | eauto ].
  - intros ops msg ops' H. now rewrite run_app, H.
  - reflexivity.
  - intros B. simpl. unfold Context.ExitWithScope. simpl. unfold ICHECK.
    destruct (Context.same_as B this).
    + split; [ discriminate | intros [msg H]; discriminate ].
    + split; [ eauto | reflexivity ].
Qed.

(** Two targets with the same node at different addresses, on an empty
    stack: the exit of the first after the entry of both is fatal. *)
Lemma ExitWithScope_iff_witness :
  let node := mkTargetNode "llvm" None [] [] ∅ ∅ in
  let A := Context.Target_ref 1 node in
  let B := Context.Target_ref 2 node in
  exists msg, Context.run [Context.Enter A; Context.Enter B; Context.Exit A]
                (Context.mkEntry []) = Fatal msg.
Proof.
  intros node A B.
  destruct (ExitWithScope_iff A (Context.mkEntry [])) as (_ & _ & _ & _ & H).
  apply (proj1 (H B)). reflexivity.
Defined.

(** ** The config assembler *)

Lemma bind_Ok {A B} (m : Result A) (f : A -> Result B) (b : B) :
  m ≫= f = Ok b -> exists a, m = Ok a /\ f a = Ok b.
Proof. destruct m; simpl; try discriminate. eauto. Qed.

Lemma ICHECK_Ok {A} (cond : bool) (msg : std_string) (k : Result A) (a : A) :
  ICHECK cond msg k = Ok a -> cond = true /\ k = Ok a.
Proof. unfold ICHECK. destruct cond; [ auto | discriminate ]. Qed.

Lemma existsb_bool_decide (k : std_string) (seen : list std_string) :
  existsb (fun k' => bool_decide (k = k')) seen = bool_decide (k ∈ seen).
Proof.
  induction seen as [| x seen IH]; simpl.
  - reflexivity.
  - rewrite IH. rewrite <- bool_decide_or. apply bool_decide_ext.
    rewrite elem_of_cons. tauto.
Qed.

Lemma DeduplicateKeys_loop_filter (seen rest : list std_string) :
  DeduplicateKeys_loop seen rest = filter (fun k => k ∉ seen) (Spec.dedup_first rest).
Proof.
  revert seen. induction rest as [| k rest IH]; intros seen; simpl; [ reflexivity | ].
  rewrite existsb_bool_decide, IH, filter_cons, list_filter_filter.
  assert (Hf : filter (fun k0 => k0 ∉ seen ++ [k]) (Spec.dedup_first rest)
               = filter (fun x => (x ∉ seen) /\ x <> k) (Spec.dedup_first rest)).
  { apply list_filter_iff. intros x. rewrite elem_of_app, list_elem_of_singleton. tauto. }
  rewrite Hf. case_bool_decide; destruct (decide (k ∉ seen)); try tauto; reflexivity.
Qed.

(** [DeduplicateKeys] keeps the first occurrence of each key, in order. *)
Lemma DeduplicateKeys_dedup_first (keys : list std_string) :
  DeduplicateKeys keys = Spec.dedup_first keys.
Proof.
  unfold DeduplicateKeys. rewrite DeduplicateKeys_loop_filter.
  induction (Spec.dedup_first keys) as [| x l IH]; [ reflexivity | ].
  rewrite filter_cons_True by apply not_elem_of_nil. now rewrite IH.
Qed.

Lemma FromConfig_keys_Ok (cfg_keys : list Any) `{!Registry} (acc ks : list std_string) :
  FromConfig_keys cfg_keys acc = Ok ks ->
  exists explicit_keys, cfg_keys = AStr <$> explicit_keys /\ ks = acc ++ explicit_keys.
Proof.
  revert acc. induction cfg_keys as [| e cfg_keys IH]; intros acc Hk; simpl in Hk.
  - injection Hk as <-. exists []. now rewrite app_nil_r.
  - destruct e; simpl in Hk; try discriminate.
    apply IH in Hk as (explicit_keys & -> & ->).
    exists (s :: explicit_keys). now rewrite <- app_assoc.
Qed.

Section Assembler.
Context `{!Registry}.
Variable FromString_rec : std_string -> Result TargetNode.
Variable FromConfig_rec : gmap std_string Any -> Result TargetNode.

(** What an accepted config went through: no [features] entry, a
    registered kind, the config [config1] left by the parser hook of the
    kind (the config itself without a hook), and the keys resolved from
    [config1]. *)
Lemma FromConfig_inv (config : gmap std_string Any) (t : TargetNode) :
  FromConfig FromString_rec FromConfig_rec config = Ok t ->
  config !! kFeatures = None
  /\ exists kind_name knd config1,
       config !! kKind = Some (AStr kind_name)
       /\ TargetKind_Get kind_name = Some knd
       /\ match target_parser knd with
          | Some parser => parser config = Ok config1
          | None => config1 = config
          end
       /\ kind t = name knd
       /\ (features t <> ∅ -> is_Some (target_parser knd))
       /\ let device := option_list (config1 !! kDeviceName ≫= try_cast_String) in
          match config1 !! kKeys with
          | Some v =>
              exists explicit_keys, v = AArray (AStr <$> explicit_keys)
                /\ keys t = DeduplicateKeys (explicit_keys ++ device)
          | None => keys t = DeduplicateKeys (device ++ default_keys knd)
          end.
Proof.
  intros X. unfold FromConfig in X.
  apply ICHECK_Ok in X as [Hf X].
  apply bind_Ok in X as ([[kind feats] config1'] & Hkind & X).
  apply bind_Ok in X as ([tg config2] & Htag & X).
  apply bind_Ok in X as (ks & Hkeys & X).
  apply bind_Ok in X as ([hst config3] & Hhost & X).
  apply bind_Ok in X as (at1 & Hat1 & X).
  apply bind_Ok in X as (at2 & Hat2 & X).
  apply bind_Ok in X as (at3 & Hat3 & X).
  injection X as <-.
  split.
  { unfold count in Hf. apply negb_true_iff, bool_decide_eq_false in Hf.
    now apply eq_None_not_Some. }
  destruct (config !! kKind) as [v |] eqn:Hk; [ | discriminate ].
  destruct v as [| | | kind_name | | |]; simpl in Hkind; try discriminate.
  apply bind_Ok in Hkind as (kind' & Hget & Hkind).
  unfold GetTargetKind in Hget.
  destruct (TargetKind_Get kind_name) as [kind'' |] eqn:Hreg; [ | discriminate ].
  injection Hget as ->.
  apply ICHECK_Ok in Hkind as [_ Hkind].
  apply bind_Ok in Hkind as ([feats' config1] & Hparse & Hkind).
  injection Hkind as -> -> <-.
  (* the lookups of tag, keys and device see through the erased entries *)
  assert (Hsame : forall key : std_string,
            key <> kKind -> key <> kFeatures -> key <> kTag ->
            exists config0,
              match target_parser kind with
              | Some parser => parser config = Ok config0
              | None => config0 = config
              end
              /\ config2 !! key = config0 !! key
              /\ (feats <> ∅ -> is_Some (target_parser kind))).
  { intros key Hk1 Hk2 Hk3.
    assert (Ht : config2 !! key = delete kKind config1 !! key).
    { destruct (delete kKind config1 !! kTag) as [v |]; simpl in Htag.
      - destruct v; simpl in Htag; try discriminate.
        injection Htag as _ <-. now rewrite lookup_delete_ne.
      - now injection Htag as _ <-. }
    rewrite lookup_delete_ne in Ht by congruence.
    destruct (target_parser kind) as [parser |].
    - apply bind_Ok in Hparse as (config0 & Hp & Hparse).
      exists config0. split; [ exact Hp | ]. split; [ | eauto ].
      destruct (config0 !! kFeatures) as [f |].
      + destruct (as_MapObj f ≫= Map_of_MapObj); [ | discriminate ].
        injection Hparse as _ <-. now rewrite Ht, lookup_delete_ne.
      + now injection Hparse as _ <-.
    - injection Hparse as <- <-. exists config. repeat split; [ exact Ht | congruence ]. }
  destruct (Hsame kKeys) as (config0 & Hp0 & Hkk & Hfeat); [ discriminate .. | ].
  destruct (Hsame kDeviceName) as (config0' & Hp0' & Hkd & _); [ discriminate .. | ].
  assert (config0' = config0) as ->.
  { destruct (target_parser kind); congruence. }
  exists kind_name, kind, config0.
  split; [ reflexivity | ]. split; [ exact Hreg | ]. split; [ exact Hp0 | ].
  split; [ reflexivity | ]. split; [ exact Hfeat | ].
  simpl. unfold count. rewrite Hkd, <- Hkk.
  destruct (config2 !! kKeys) as [v |].
  - destruct v; simpl in Hkeys; try discriminate.
    apply FromConfig_keys_Ok in Hkeys as (explicit_keys & -> & ->).
    exists explicit_keys. split; [ reflexivity | ].
    rewrite bool_decide_eq_true_2 by eauto. simpl.
    destruct (config0 !! kDeviceName ≫= try_cast_String); simpl;
      [ reflexivity | now rewrite app_nil_r ].
  - injection Hkeys as <-.
    rewrite bool_decide_eq_false_2 by (intros [? ?]; discriminate). simpl.
    destruct (config0 !! kDeviceName ≫= try_cast_String); reflexivity.
Qed.
End Assembler.

(** C6 (amended). For a config the assembler accepts, with [config1] the
    config left by the parser hook of the kind (the config itself when the
    kind has none): when [config1] has a [keys] entry, it is an array of
    strings and the keys of the target are these, followed by the device
    when [config1] has a string [device], with duplicates removed keeping
    first occurrences; when it has none, the keys are the device, if any,
    followed by the default keys of the kind, with duplicates removed the
    same way. For the example config and an [llvm] kind without parser hook
    the keys are [cpu], [arm] in this order. *)
Theorem FromConfig_keys_resolved `{!Registry} (fuel : nat)
    (config : gmap std_string Any) (t : TargetNode) :
  TargetInternal_FromConfig fuel config = Ok t ->
  (exists kind_name knd config1,
     config !! kKind = Some (AStr kind_name)
     /\ TargetKind_Get kind_name = Some knd
     /\ match target_parser knd with
        | Some parser => parser config = Ok config1
        | None => config1 = config
        end
     /\ let device := option_list (config1 !! kDeviceName ≫= try_cast_String) in
        match config1 !! kKeys with
        | Some v =>
            exists explicit_keys, v = AArray (AStr <$> explicit_keys)
              /\ keys t = Spec.dedup_first (explicit_keys ++ device)
        | None => keys t = Spec.dedup_first (device ++ default_keys knd)
        end)
  /\ (config = example_config ->
      (forall knd, TargetKind_Get "llvm" = Some knd -> target_parser knd = None) ->
      keys t = ["cpu" : std_string; "arm" : std_string]).
Proof.
  intros Ht. destruct fuel as [| fuel]; [ discriminate | ]. simpl in Ht.
  apply FromConfig_inv in Ht as (_ & kind_name & knd & config1 & Hk & Hreg & Hp & _ & _ & Hkeys).
  assert (Hmain : let device := option_list (config1 !! kDeviceName ≫= try_cast_String) in
            match config1 !! kKeys with
            | Some v =>
                exists explicit_keys, v = AArray (AStr <$> explicit_keys)
                  /\ keys t = Spec.dedup_first (explicit_keys ++ device)
            | None => keys t = Spec.dedup_first (device ++ default_keys knd)
            end).
  { simpl in *. destruct (config1 !! kKeys).
    - destruct Hkeys as (ek & -> & Hkeys). exists ek.
      now rewrite <- DeduplicateKeys_dedup_first.
    - now rewrite <- DeduplicateKeys_dedup_first. }
  split; [ now exists kind_name, knd, config1 | ].
  intros -> Hnone.
  assert (kind_name = ("llvm" : std_string)) as ->.
  { vm_compute in Hk. now injection Hk as <-. }
  rewrite (Hnone _ Hreg) in Hp. subst config1.
  simpl in Hmain.
  change (example_config !! kKeys) with (Some (AArray [AStr ("cpu" : std_string)])) in Hmain.
  change (example_config !! kDeviceName) with (Some (AStr ("arm" : std_string))) in Hmain.
  destruct Hmain as (ek & Hek & ->).
  destruct ek as [| k1 [| k2 ek]]; try discriminate.
  now injection Hek as <-.
Qed.

Lemma FromConfig_keys_resolved_witness :
  exists t, @TargetInternal_FromConfig Demo.registry 1 example_config = Ok t
    /\ keys t = ["cpu" : std_string; "arm" : std_string].
Proof.
  exists (mkTargetNode "llvm" None [] ["cpu" : std_string; "arm" : std_string]
            {[ kDeviceName := AStr "arm" ]} ∅).
  assert (H : @TargetInternal_FromConfig Demo.registry 1 example_config
              = Ok (mkTargetNode "llvm" None [] ["cpu" : std_string; "arm" : std_string]
                      {[ kDeviceName := AStr "arm" ]} ∅))
    by (vm_compute; reflexivity).
  split; [ exact H | ].
  apply (proj2 (@FromConfig_keys_resolved Demo.registry 1 example_config _ H));
    [ reflexivity | ].
  intros knd Hk. vm_compute in Hk. now injection Hk as <-.
Defined.

(** C6, as stated, fails: without explicit keys the device comes before the
    default keys of the kind, not after them. *)
Lemma FromConfig_device_precedes_default_keys :
  exists t,
    @TargetInternal_FromConfig Demo.registry 1
      {[ kKind := AStr "llvm"; kDeviceName := AStr "arm" ]} = Ok t
    /\ keys t = ["arm" : std_string; "cpu" : std_string]
    /\ keys t <> Spec.resolve_keys None (default_keys Demo.llvm) (Some ("arm" : std_string)).
Proof.
  exists (mkTargetNode "llvm" None [] ["arm" : std_string; "cpu" : std_string]
            {[ kDeviceName := AStr "arm" ]} ∅).
  split; [ vm_compute; reflexivity | ]. split; [ reflexivity | ].
  vm_compute. discriminate.
Qed.

(** C9. A config with a [features] entry is rejected by the first check of
    [FromConfig], whatever the registry and the rest of the config, and so
    is the construction of a Target from it; and a target whose features are
    not empty comes from a kind with a parser hook. *)
Theorem FromConfig_rejects_features `{!Registry} (fuel : nat)
    (config : gmap std_string Any) :
  (is_Some (config !! kFeatures) ->
     TargetInternal_FromConfig (S fuel) config
       = Fatal "Target Features should be generated by Target parser"
     /\ Target_Map (S fuel) config
        = Fatal "Target Features should be generated by Target parser"
     /\ is_Ok (TargetInternal_FromConfig fuel config) = false
     /\ is_Ok (Target_Map fuel config) = false)
  /\ (forall t, TargetInternal_FromConfig fuel config = Ok t -> features t <> ∅ ->
        exists kind_name knd,
          config !! kKind = Some (AStr kind_name)
          /\ TargetKind_Get kind_name = Some knd
          /\ is_Some (target_parser knd)).
Proof.
  split.
  - intros Hf.
    assert (Hfatal : forall F G, FromConfig F G config
              = Fatal "Target Features should be generated by Target parser").
    { intros F G. unfold FromConfig, count.
      now rewrite (bool_decide_eq_true_2 _ Hf). }
    split; [ apply Hfatal | ].
    split; [ unfold Target_Map, Target_of_Map; simpl; now rewrite Hfatal | ].
    destruct fuel as [| fuel]; [ split; reflexivity | ].
    unfold Target_Map, Target_of_Map. simpl. now rewrite !Hfatal.
  - intros t Ht Hfeat. destruct fuel as [| fuel]; [ discriminate | ]. simpl in Ht.
    apply FromConfig_inv in Ht as (_ & kind_name & knd & config1 & Hk & Hreg & _ & _ & Hp & _).
    exists kind_name, knd. auto.
Qed.

Lemma FromConfig_rejects_features_witness :
  @TargetInternal_FromConfig Demo.registry 1
    {[ kKind := AStr "llvm"; kFeatures := AMap [] ]}
  = Fatal "Target Features should be generated by Target parser".
Proof.
  apply (proj1 (@FromConfig_rejects_features Demo.registry 0
                  {[ kKind := AStr "llvm"; kFeatures := AMap [] ]})).
  vm_compute. eauto.
Defined.

(** C10. When the empty string is not a registered tag, the construction of
    a Target from it stops at the length check of [FromRawString], before
    the string is split, and yields no Target. *)
Theorem FromString_empty `{!Registry} (fuel : nat) :
  TargetTag_Get [] = None ->
  TargetInternal_FromString (S fuel) [] = Fatal "Cannot parse empty target string"
  /\ Target_String (S fuel) [] = Fatal "Cannot parse empty target string"
  /\ is_Ok (TargetInternal_FromString fuel []) = false
  /\ is_Ok (Target_String fuel []) = false.
Proof.
  intros Htag.
  assert (Hfatal : forall F G, FromString F G [] = Fatal "Cannot parse empty target string").
  { intros F G. unfold FromString. now rewrite Htag. }
  split; [ apply Hfatal | ].
  split; [ unfold Target_String, Target_of_String; simpl; now rewrite Hfatal | ].
  destruct fuel as [| fuel]; [ split; reflexivity | ].
  unfold Target_String, Target_of_String. simpl. now rewrite !Hfatal.
Qed.

Lemma FromString_empty_witness :
  @TargetInternal_FromString Demo.registry 1 [] = Fatal "Cannot parse empty target string".
Proof. apply (@FromString_empty Demo.registry 0). reflexivity. Defined.

(** ** SplitString *)

Lemma tokens_cons (sep : ascii) (us : list Spec.unit) (quoted : bool) :
  exists tok toks, (Spec.tokens sep us quoted).1 = tok :: toks.
Proof.
  revert quoted. induction us as [| u us IH]; intros quoted; simpl; [ eauto | ].
  destruct (IH (if match u with Spec.Plain c => Ascii.eqb c quote | _ => false end
                then negb quoted else quoted)) as (tok & toks & Htoks).
  destruct (Spec.tokens sep us _) as [toks' final]. simpl in Htoks. subst toks'.
  destruct (match u with Spec.Plain c => Ascii.eqb c sep && negb quoted | _ => false end);
    simpl; eauto.
Qed.

Lemma absorb_app (out : list std_string) (cur x tok : std_string) (toks : list std_string) :
  Spec.absorb out cur ((x ++ tok) :: toks) = Spec.absorb out (cur ++ x) (tok :: toks).
Proof. simpl. now rewrite !app_assoc. Qed.

Lemma finish_word_absorb (out : list std_string) (cur : std_string) :
  finish_word out cur = (if bool_decide (cur = []) then out else out ++ [cur], []).
Proof.
  unfold finish_word. destruct cur as [| c cur]; reflexivity.
Qed.

(** The loop of [SplitString] computes the two passes of the specification
    at once, for a separator that is neither the escape nor the quote. *)
Lemma SplitString_loop_tokens (sep : ascii) (n : nat) :
  sep <> escape -> sep <> quote ->
  forall (s : std_string) (out : list std_string) (cur : std_string) (quoted : bool),
    (length s <= n)%nat ->
    SplitString_loop sep s out cur quoted
    = (Spec.absorb out cur (Spec.tokens sep (Spec.units s) quoted).1,
       (Spec.tokens sep (Spec.units s) quoted).2).
Proof.
  intros Hesc Hquote.
  assert (Hes : Ascii.eqb escape sep = false) by (apply Ascii.eqb_neq; congruence).
  assert (Hqs : Ascii.eqb quote sep = false) by (apply Ascii.eqb_neq; congruence).
  induction n as [| n IH]; intros s out cur quoted Hlen.
  { destruct s; [ simpl; now rewrite app_nil_r | simpl in Hlen; lia ]. }
  destruct s as [| c s1]; [ simpl; now rewrite app_nil_r | ].
  simpl in Hlen. cbn [SplitString_loop Spec.units].
  destruct (Ascii.eqb_spec c escape) as [-> | Hce].
  - (* an escape character *)
    rewrite Hes. cbn [andb].
    destruct s1 as [| c1 s2].
    + rewrite eqb_escape_quote. cbn [SplitString_loop Spec.tokens].
      rewrite Hes, eqb_escape_quote. cbn [andb fst snd Spec.text Spec.absorb app].
      reflexivity.
    + rewrite IH by (simpl in Hlen; lia). cbn [Spec.tokens].
      destruct (tokens_cons sep (Spec.units s2) quoted) as (tok & toks & Htoks).
      destruct (Spec.tokens sep (Spec.units s2) quoted) as [toks' final].
      cbn [fst] in Htoks. subst toks'. cbn [fst snd Spec.text].
      now rewrite absorb_app.
  - (* any other character *)
    cbn [Spec.tokens].
    destruct (tokens_cons sep (Spec.units s1)
                (if Ascii.eqb c quote then negb quoted else quoted)) as (tok & toks & Htoks).
    destruct (Ascii.eqb_spec c sep) as [-> | Hcs]; cbn [andb].
    + assert (Hsq : Ascii.eqb sep quote = false) by (now apply Ascii.eqb_neq).
      rewrite Hsq in *.
      destruct quoted; cbn [negb].
      * rewrite IH by lia.
        destruct (Spec.tokens sep (Spec.units s1) true) as [toks' final].
        cbn [fst] in Htoks. subst toks'. cbn [fst snd Spec.text].
        now rewrite (absorb_app out cur [sep]).
      * rewrite finish_word_absorb, IH by lia.
        destruct (Spec.tokens sep (Spec.units s1) false) as [toks' final].
        cbn [fst] in Htoks. subst toks'. cbn [fst snd Spec.absorb].
        now rewrite app_nil_r.
    + destruct (Ascii.eqb_spec c quote) as [-> | Hcq].
      * rewrite IH by lia.
        destruct (Spec.tokens sep (Spec.units s1) (negb quoted)) as [toks' final].
        cbn [fst] in Htoks. subst toks'. cbn [fst snd Spec.text].
        now rewrite (absorb_app out cur [quote]).
      * rewrite IH by lia.
        destruct (Spec.tokens sep (Spec.units s1) quoted) as [toks' final].
        cbn [fst] in Htoks. subst toks'. cbn [fst snd Spec.text].
        now rewrite (absorb_app out cur [c]).
Qed.

Lemma absorb_cons (out : list std_string) (cur tok tok' : std_string)
    (toks : list std_string) :
  Spec.absorb out cur (tok :: tok' :: toks)
  = Spec.absorb (if bool_decide (cur ++ tok = []) then out else out ++ [cur ++ tok]) []
      (tok' :: toks).
Proof. reflexivity. Qed.

Lemma absorb_finish (toks : list std_string) (out : list std_string) (cur : std_string) :
  toks <> [] ->
  (finish_word (Spec.absorb out cur toks).1 (Spec.absorb out cur toks).2).1
  = out ++ filter (fun tok => tok <> [])
             ((cur ++ hd [] toks) :: tl toks).
Proof.
  revert out cur. induction toks as [| tok toks IH]; intros out cur Hne; [ congruence | ].
  destruct toks as [| tok' toks].
  - simpl. rewrite finish_word_absorb. simpl.
    rewrite filter_cons, filter_nil.
    case_bool_decide; destruct (decide (cur ++ tok <> [])); try tauto;
      first [ now rewrite app_nil_r | reflexivity ].
  - rewrite absorb_cons, IH by discriminate. cbn [hd tail app].
    rewrite (filter_cons _ (cur ++ tok)).
    case_bool_decide; destruct (decide (cur ++ tok <> [])); try tauto.
    now rewrite <- app_assoc.
Qed.

(** C4 (amended). For a separator that is neither the escape nor the quote
    character, [SplitString] is the splitter of the specification: it cuts
    at the separators outside quoted regions, copies an escape with the
    character after it as a unit, drops the empty tokens and is fatal on
    mismatched quotes; no token of its result is empty; and the example of
    the specification gives the three tokens stated. *)
Theorem SplitString_spec (s : std_string) (sep : ascii) :
  sep <> escape -> sep <> quote ->
  SplitString s sep = Spec.SplitString s sep
  /\ (forall toks, SplitString s sep = Ok toks -> [] ∉ toks)
  /\ SplitString "a,'b,c',d" ","
     = Ok ["a" : std_string; "'b,c'" : std_string; "d" : std_string].
Proof.
  intros Hesc Hquote.
  assert (Heq : SplitString s sep = Spec.SplitString s sep).
  { unfold SplitString, Spec.SplitString.
    rewrite (SplitString_loop_tokens sep (length s)) by auto.
    destruct (tokens_cons sep (Spec.units s) false) as (tok & toks & Htoks).
    pose proof (absorb_finish (tok :: toks) [] []) as Hfin.
    destruct (Spec.tokens sep (Spec.units s) false) as [toks' final].
    simpl in Htoks. subst toks'. cbn [fst snd] in *.
    destruct (Spec.absorb [] [] (tok :: toks)) as [out cur] eqn:Habs.
    cbn [fst snd] in Hfin. unfold ICHECK.
    destruct final; [ reflexivity | ]. cbn [negb].
    now rewrite Hfin by discriminate. }
  split; [ exact Heq | ]. split; [ | reflexivity ].
  intros toks. rewrite Heq. unfold Spec.SplitString.
  destruct (Spec.tokens sep (Spec.units s) false) as [toks' final].
  destruct final; [ discriminate | ]. intros [= <-].
  rewrite list_elem_of_filter. tauto.
Qed.

Lemma SplitString_spec_witness :
  SplitString "-mattr=+neon,'a b'  -opt-level=3" " "
  = Spec.SplitString "-mattr=+neon,'a b'  -opt-level=3" " ".
Proof.
  apply (SplitString_spec "-mattr=+neon,'a b'  -opt-level=3" " "); discriminate.
Defined.

(** C4, as stated for every separator, fails when the separator is the
    escape character: outside quotes the escape is then a separator, and
    the pair it forms with the next character is not copied as a unit. *)
Lemma SplitString_escape_separator :
  SplitString "a\b" escape = Ok ["a" : std_string; "b" : std_string]
  /\ Spec.SplitString "a\b" escape = Ok ["a\b" : std_string].
Proof. split; reflexivity. Qed.

(** ** Tokens that survive the splitter *)

Lemma passes_nil (sep : ascii) (q : bool) : passes sep q [].
Proof. intros rest out cur. now rewrite app_nil_r. Qed.

Lemma passes_app (sep : ascii) (q : bool) (a b : std_string) :
  passes sep q a -> passes sep q b -> passes sep q (a ++ b).
Proof.
  intros Ha Hb rest out cur. now rewrite <- app_assoc, Ha, Hb, app_assoc.
Qed.

Lemma passes_char (sep : ascii) (q : bool) (c : ascii) :
  c <> escape -> c <> quote -> Ascii.eqb c sep && negb q = false ->
  passes sep q [c].
Proof.
  intros He Hq Hs rest out cur. cbn [app SplitString_loop]. rewrite Hs.
  apply Ascii.eqb_neq in He, Hq. now rewrite He, Hq.
Qed.

Lemma passes_pair (sep : ascii) (q : bool) (c : ascii) :
  Ascii.eqb escape sep && negb q = false -> passes sep q [escape; c].
Proof.
  intros Hs rest out cur. cbn [app SplitString_loop]. rewrite Hs.
  now rewrite Ascii.eqb_refl.
Qed.

Lemma passes_Forall (sep : ascii) (q : bool) (w : std_string) :
  Forall (fun c => c <> escape /\ c <> quote /\ c <> sep) w -> passes sep q w.
Proof.
  induction 1 as [| c w (He & Hq & Hs) _ IH]; [ apply passes_nil | ].
  apply (passes_app sep q [c] w); [ | exact IH ].
  apply passes_char; [ exact He | exact Hq | ].
  apply Ascii.eqb_neq in Hs. now rewrite Hs.
Qed.

Lemma passes_Uninterpret (sep : ascii) (q : bool) (s : std_string) :
  sep <> escape -> q = true \/ sep ∉ s -> passes sep q (Uninterpret s).
Proof.
  intros Hesc. induction s as [| c s IH]; intros Hq; [ apply passes_nil | ].
  assert (Hq' : q = true \/ sep ∉ s).
  { destruct Hq as [Hq | Hq]; [ now left | right ]. now apply not_elem_of_cons in Hq. }
  assert (Hsep : Ascii.eqb c sep && negb q = false).
  { destruct Hq as [-> | Hq]; [ apply andb_false_r | ].
    apply not_elem_of_cons in Hq as [Hq _].
    assert (Hn : Ascii.eqb c sep = false) by (apply Ascii.eqb_neq; congruence).
    now rewrite Hn. }
  assert (Hes : Ascii.eqb escape sep && negb q = false).
  { assert (Hn : Ascii.eqb escape sep = false) by (apply Ascii.eqb_neq; congruence).
    now rewrite Hn. }
  cbn [Uninterpret].
  destruct (Ascii.eqb_spec c escape) as [-> | He]; cbn [orb].
  - apply (passes_app sep q [escape; escape]); [ now apply passes_pair | auto ].
  - destruct (Ascii.eqb_spec c quote) as [-> | Hcq].
    + apply (passes_app sep q [escape; quote]); [ now apply passes_pair | auto ].
    + apply (passes_app sep q [c]); [ now apply passes_char | auto ].
Qed.

Lemma passes_Quote (sep : ascii) (u : std_string) :
  sep <> quote -> passes sep true u -> passes sep false (Quote u).
Proof.
  intros Hsq Hu rest out cur. unfold Quote.
  assert (Hn : Ascii.eqb quote sep = false) by (apply Ascii.eqb_neq; congruence).
  cbn [app SplitString_loop]. rewrite Hn, eqb_quote_escape, Ascii.eqb_refl. cbn [andb negb].
  rewrite <- app_assoc, Hu. cbn [app SplitString_loop].
  rewrite andb_false_r, eqb_quote_escape, Ascii.eqb_refl. cbn [negb].
  now rewrite <- !app_assoc.
Qed.

Lemma SplitString_from_passes (sep : ascii) (tok rest : std_string)
    (out : list std_string) (cur : std_string) :
  passes sep false tok ->
  SplitString_from sep (tok ++ rest) out cur = SplitString_from sep rest out (cur ++ tok).
Proof. intros Hp. unfold SplitString_from. now rewrite Hp. Qed.

Lemma SplitString_from_sep (sep : ascii) (rest : std_string)
    (out : list std_string) (cur : std_string) :
  SplitString_from sep (sep :: rest) out cur
  = SplitString_from sep rest (finish_word out cur).1 [].
Proof.
  unfold SplitString_from. cbn [SplitString_loop]. rewrite Ascii.eqb_refl. cbn [andb negb].
  now rewrite finish_word_absorb.
Qed.

(** Non-empty tokens that pass the loop, each after a separator, with or
    without a separator at the end, are split into themselves. *)
Lemma SplitString_from_tokens (sep : ascii) (toks : list std_string) (trail : std_string)
    (out : list std_string) (cur : std_string) :
  Forall (fun tok => tok <> [] /\ passes sep false tok) toks ->
  trail = [] \/ trail = [sep] ->
  SplitString_from sep (concat (cons sep <$> toks) ++ trail) out cur
  = Ok ((finish_word out cur).1 ++ toks).
Proof.
  intros Htoks Htrail. revert out cur.
  induction Htoks as [| tok toks [Hne Hp] _ IH]; intros out cur.
  - cbn [fmap list_fmap concat app]. rewrite app_nil_r.
    destruct Htrail as [-> | ->].
    + reflexivity.
    + rewrite SplitString_from_sep. unfold SplitString_from. cbn.
      now rewrite finish_word_absorb.
  - rewrite fmap_cons. cbn [concat]. rewrite <- !app_assoc. cbn [app].
    rewrite SplitString_from_sep, SplitString_from_passes by exact Hp.
    rewrite IH. cbn [app]. rewrite finish_word_absorb.
    rewrite bool_decide_eq_false_2 by exact Hne. cbn [fst].
    now rewrite <- app_assoc.
Qed.

Lemma SplitString_from_start (sep : ascii) (s : std_string) :
  SplitString s sep = SplitString_from sep s [] [].
Proof. reflexivity. Qed.

(** ** Integers as text *)

Lemma list_ascii_of_string_cons (c : ascii) (s : string) :
  list_ascii_of_string (String c s) = c :: list_ascii_of_string s.
Proof. reflexivity. Qed.

Lemma extract_digits_uint (d : Decimal.uint) (acc : Z) (n : nat) :
  extract_digits (NilEmpty.string_of_uint d) acc n
  = (uint_value d acc, (n + Decimal.nb_digits d)%nat).
Proof.
  revert acc n.
  induction d; intros acc n; cbn [NilEmpty.string_of_uint uint_value Decimal.nb_digits];
    [ cbn; now rewrite Nat.add_0_r | .. ];
    rewrite list_ascii_of_string_cons; cbn [extract_digits];
    match goal with
    | |- context [digit_value ?c] =>
        let v := eval vm_compute in (digit_value c) in change (digit_value c) with v
    end;
    cbv iota; rewrite IHd; f_equal; lia.
Qed.

Lemma uint_value_pos (d : Decimal.uint) (acc : positive) :
  uint_value d (Z.pos acc) = Z.pos (Pos.of_uint_acc d acc).
Proof.
  revert acc. induction d; intros acc; cbn [uint_value Pos.of_uint_acc];
    [ reflexivity | .. ];
    match goal with
    | |- uint_value _ ?z = Z.pos (Pos.of_uint_acc _ ?p) =>
        replace z with (Z.pos p) by lia; apply IHd
    end.
Qed.

Lemma uint_value_0 (d : Decimal.uint) : uint_value d 0 = Z.of_N (Pos.of_uint d).
Proof.
  induction d; cbn [uint_value Pos.of_uint]; [ reflexivity | exact IHd | .. ];
    match goal with
    | |- uint_value _ ?z = Z.of_N (N.pos (Pos.of_uint_acc _ ?p)) =>
        change z with (Z.pos p); apply uint_value_pos
    end.
Qed.

Lemma string_of_uint_head (d : Decimal.uint) :
  d <> Decimal.Nil ->
  exists c s, list_ascii_of_string (NilEmpty.string_of_uint d) = c :: s
    /\ isspace c = false /\ Ascii.eqb c "-" = false /\ Ascii.eqb c "+" = false
    /\ (0 < Decimal.nb_digits d)%nat.
Proof.
  destruct d; [ congruence | .. ]; intros _;
    cbn [NilEmpty.string_of_uint Decimal.nb_digits];
    rewrite list_ascii_of_string_cons; eexists _, _;
    (split; [ reflexivity | ]); repeat split; lia.
Qed.

Lemma to_int_nonnil (z : Z) :
  exists d, d <> Decimal.Nil
    /\ (Z.to_int z = Decimal.Pos d \/ Z.to_int z = Decimal.Neg d /\ z < 0).
Proof.
  destruct z as [| p | p]; cbn [Z.to_int].
  - exists Decimal.zero. split; [ discriminate | now left ].
  - exists (Pos.to_uint p). split; [ apply DecimalPos.Unsigned.to_uint_nonnil | now left ].
  - exists (Pos.to_uint p). split; [ apply DecimalPos.Unsigned.to_uint_nonnil | right ].
    split; [ reflexivity | lia ].
Qed.

(** Reading back the text of a 64-bit integer gives the integer. *)
Lemma extract_int64_to_string (z : Z) :
  INT64_MIN <= z <= INT64_MAX -> extract_int64 (to_string z) = Some z.
Proof.
  intros Hz. unfold to_string, extract_int64.
  pose proof (DecimalZ.of_to z) as Hof.
  destruct (to_int_nonnil z) as (d & Hd & [Hpos | [Hneg Hlt]]).
  - rewrite Hpos in *. cbn [NilZero.string_of_int]. unfold NilZero.string_of_uint.
    replace (match d with Decimal.Nil => "0"%string | _ => NilEmpty.string_of_uint d end)
      with (NilEmpty.string_of_uint d) by (destruct d; congruence).
    destruct (string_of_uint_head d Hd) as (c & s & Hs & Hsp & Hm & Hp & Hn).
    pose proof (extract_digits_uint d 0 0) as He. rewrite Hs in *.
    cbn [skipws]. rewrite Hsp, Hm, Hp, He.
    destruct (Decimal.nb_digits d); [ lia | ]. cbn [Nat.add Nat.eqb].
    rewrite uint_value_0. cbn [Z.of_int] in Hof. unfold Z.of_uint in Hof. rewrite Hof.
    destruct (Z.leb_spec INT64_MIN z); [ | lia ].
    destruct (Z.leb_spec z INT64_MAX); [ reflexivity | lia ].
  - rewrite Hneg in *. cbn [NilZero.string_of_int]. unfold NilZero.string_of_uint.
    replace (match d with Decimal.Nil => "0"%string | _ => NilEmpty.string_of_uint d end)
      with (NilEmpty.string_of_uint d) by (destruct d; congruence).
    rewrite list_ascii_of_string_cons.
    pose proof (extract_digits_uint d 0 0) as He.
    destruct (string_of_uint_head d Hd) as (c & s & Hs & _ & _ & _ & Hn).
    cbn [skipws]. change (isspace "-") with false. cbn [Ascii.eqb Bool.eqb].
    rewrite He.
    destruct (Decimal.nb_digits d); [ lia | ]. cbn [Nat.add Nat.eqb].
    rewrite uint_value_0. cbn [Z.of_int] in Hof. unfold Z.of_uint in Hof.
    replace (- Z.of_N (Pos.of_uint d)) with z by lia.
    destruct (Z.leb_spec INT64_MIN z); [ | lia ].
    destruct (Z.leb_spec z INT64_MAX); [ reflexivity | lia ].
Qed.

(** ** Interpreting what the stringifier writes *)

Lemma Interpret_loop_plain (s result : std_string) (inside_quote : bool) :
  Forall (fun c => c <> quote /\ c <> escape) s ->
  Interpret_loop s inside_quote false result = result ++ s.
Proof.
  intros Hs. revert result.
  induction Hs as [| c s [Hq He] _ IH]; intros result; cbn [Interpret_loop].
  - now rewrite app_nil_r.
  - apply Ascii.eqb_neq in Hq, He. rewrite Hq, He, IH. now rewrite <- app_assoc.
Qed.

Lemma Interpret_plain (s : std_string) :
  Forall (fun c => c <> quote /\ c <> escape) s -> Interpret s = s.
Proof.
  intros Hs. unfold Interpret. case_bool_decide as Hnil; [ now subst | ].
  rewrite IsQuoted_head, substr_all.
  - now apply Interpret_loop_plain.
  - destruct Hs as [| c s [Hq _] _]; [ congruence | ]. cbn. congruence.
Qed.

Lemma IsQuoted_loop_Uninterpret (s : std_string) :
  IsQuoted_loop (Uninterpret s) false = true.
Proof.
  induction s as [| c s IH]; [ reflexivity | ]. cbn [Uninterpret].
  destruct (Ascii.eqb_spec c escape) as [-> | He]; cbn [orb app IsQuoted_loop].
  - now rewrite Ascii.eqb_refl.
  - destruct (Ascii.eqb_spec c quote) as [-> | Hq]; cbn [app IsQuoted_loop].
    + now rewrite Ascii.eqb_refl.
    + apply Ascii.eqb_neq in He, Hq. now rewrite He, Hq.
Qed.

Lemma substr_Quote (u : std_string) :
  substr (Quote u) 1 (length (Quote u) - 1 - 1) = u.
Proof.
  unfold substr, Quote. cbn [app drop length]. rewrite drop_0, length_app. cbn [length].
  replace (S (length u + 1) - 1 - 1)%nat with (length u) by lia.
  apply take_app_length.
Qed.

Lemma IsQuoted_Quote_Uninterpret (s : std_string) :
  IsQuoted (Quote (Uninterpret s)) = true.
Proof.
  unfold IsQuoted. cbn zeta.
  assert (Hlen : length (Quote (Uninterpret s)) = S (S (length (Uninterpret s)))).
  { unfold Quote. cbn [app length]. rewrite length_app. cbn [length]. lia. }
  destruct (Nat.ltb_spec (length (Quote (Uninterpret s))) 2) as [Hlt | _]; [ lia | ].
  rewrite (bool_decide_eq_true_2 (Quote (Uninterpret s) !! 0%nat = Some quote)) by reflexivity.
  rewrite bool_decide_eq_true_2.
  - cbn [orb negb Nat.add]. rewrite substr_Quote. apply IsQuoted_loop_Uninterpret.
  - rewrite Hlen. unfold Quote. cbn [app]. replace (S (S (length (Uninterpret s))) - 1)%nat
      with (S (length (Uninterpret s))) by lia.
    rewrite lookup_cons, lookup_app_r by lia. now rewrite Nat.sub_diag.
Qed.

Lemma Interpret_Quote_Uninterpret (s : std_string) :
  Interpret (Quote (Uninterpret s)) = s.
Proof.
  unfold Interpret. rewrite bool_decide_eq_false_2 by discriminate.
  rewrite IsQuoted_Quote_Uninterpret, substr_Quote.
  apply Interpret_loop_Uninterpret.
Qed.

Lemma Interpret_Uninterpret_nonempty (s : std_string) :
  s <> [] -> Interpret (Uninterpret s) = s.
Proof.
  intros Hs. unfold Interpret. rewrite bool_decide_eq_false_2.
  - rewrite IsQuoted_Uninterpret, substr_all. apply Interpret_loop_Uninterpret.
  - destruct s as [| c s]; [ congruence | ]. cbn [Uninterpret].
    destruct (Ascii.eqb c escape || Ascii.eqb c quote); discriminate.
Qed.

Lemma elem_of_Uninterpret (c : ascii) (s : std_string) : c ∈ s -> c ∈ Uninterpret s.
Proof.
  induction s as [| x s IH]; intros Hc; [ now apply elem_of_nil in Hc | ].
  cbn [Uninterpret]. apply elem_of_app. right.
  apply elem_of_cons in Hc as [-> | Hc]; apply elem_of_cons; auto.
Qed.

Lemma Uninterpret_plain (s : std_string) :
  Forall (fun c => c <> quote /\ c <> escape) s -> Uninterpret s = s.
Proof.
  induction 1 as [| c s [Hq He] _ IH]; [ reflexivity | ]. cbn [Uninterpret].
  apply Ascii.eqb_neq in Hq, He. now rewrite Hq, He, IH.
Qed.

Lemma find_first_of_Some_elem (c : ascii) (s : std_string) :
  find_first_of c s = None <-> c ∉ s.
Proof.
  split; [ | apply find_first_of_None ].
  induction s as [| x s IH]; intros Hf; [ apply not_elem_of_nil | ].
  cbn [find_first_of] in Hf. destruct (Ascii.eqb_spec x c) as [-> | Hx]; [ discriminate | ].
  apply not_elem_of_cons. split; [ congruence | ].
  apply IH. destruct (find_first_of c s); [ discriminate | reflexivity ].
Qed.

(** The trimming of the string schema leaves a trimmed string as it is. *)
Lemma trimmed_find (s : std_string) :
  Canonical.trimmed s = true ->
  find_first_not_of " " s = Some 0%nat
  /\ find_last_not_of " " s = Some (length s - 1)%nat.
Proof.
  unfold Canonical.trimmed. intros H.
  apply andb_true_iff in H as [H Hlast]. apply andb_true_iff in H as [Hnil Hhead].
  apply negb_true_iff, bool_decide_eq_false in Hnil, Hhead, Hlast.
  split.
  - destruct s as [| c s]; [ congruence | ]. cbn [find_first_not_of].
    destruct (Ascii.eqb_spec c " ") as [-> | _]; [ | reflexivity ].
    now contradiction Hhead.
  - unfold find_last_not_of.
    destruct (exists_last (l := s)) as (s' & z & ->); [ exact Hnil | ].
    rewrite last_snoc in Hlast. rewrite rev_unit. cbn [find_first_not_of].
    destruct (Ascii.eqb_spec z " ") as [-> | _]; [ now contradiction Hlast | ].
    cbn. f_equal. lia.
Qed.

Lemma string_of_uint_chars (d : Decimal.uint) :
  Forall (fun c => c <> escape /\ c <> quote /\ c <> " "%char)
    (list_ascii_of_string (NilEmpty.string_of_uint d)).
Proof.
  induction d; cbn [NilEmpty.string_of_uint]; [ constructor | .. ];
    rewrite list_ascii_of_string_cons; (constructor; [ | exact IHd ]);
    repeat split; discriminate.
Qed.

Lemma to_string_chars (z : Z) :
  Forall (fun c => c <> escape /\ c <> quote /\ c <> " "%char) (to_string z)
  /\ to_string z <> [].
Proof.
  unfold to_string.
  destruct (to_int_nonnil z) as (d & Hd & [-> | [-> _]]); cbn [NilZero.string_of_int].
  - unfold NilZero.string_of_uint.
    replace (match d with Decimal.Nil => "0"%string | _ => NilEmpty.string_of_uint d end)
      with (NilEmpty.string_of_uint d) by (destruct d; congruence).
    split; [ apply string_of_uint_chars | ].
    destruct (string_of_uint_head d Hd) as (c & s & -> & _). discriminate.
  - unfold NilZero.string_of_uint.
    replace (match d with Decimal.Nil => "0"%string | _ => NilEmpty.string_of_uint d end)
      with (NilEmpty.string_of_uint d) by (destruct d; congruence).
    rewrite list_ascii_of_string_cons. split; [ | discriminate ].
    constructor; [ repeat split; discriminate | apply string_of_uint_chars ].
Qed.

(** ** Values through the stringifier and the two parsers *)

Section Values.
Context {Reg : Registry}.
Variable FromString_rec : std_string -> Result TargetNode.
Variable FromConfig_rec : gmap std_string Any -> Result TargetNode.

Lemma ParseType_str_int (tk : std_string) (key val : option ValueTypeInfo) (z : Z) :
  INT64_MIN <= z <= INT64_MAX ->
  ParseType_str FromString_rec (mkValueTypeInfo kTVMFFIInt tk key val) (to_string z)
  = Ok (AInt z).
Proof.
  intros Hz. cbn [ParseType_str].
  destruct (to_string_chars z) as [Hc _].
  rewrite Interpret_plain by (eapply Forall_impl; [ exact Hc | cbv beta; tauto ]).
  now rewrite extract_int64_to_string.
Qed.

Lemma ParseType_str_bool (tk : std_string) (key val : option ValueTypeInfo) (b : bool) :
  ParseType_str FromString_rec (mkValueTypeInfo kTVMFFIBool tk key val)
    (to_string (if b then 1 else 0))
  = Ok (ABool b).
Proof. destruct b; reflexivity. Qed.

Lemma ParseType_str_trimmed (tk : std_string) (key val : option ValueTypeInfo)
    (value s : std_string) :
  Interpret value = s -> Canonical.trimmed s = true ->
  ParseType_str FromString_rec (mkValueTypeInfo kTVMFFIStr tk key val) value = Ok (AStr s).
Proof.
  intros Hi Ht. cbn [ParseType_str]. rewrite Hi.
  destruct (trimmed_find s Ht) as [-> ->]. cbn [bool_decide decide_rel].
  do 2 f_equal. unfold substr. rewrite drop_0.
  apply firstn_all2. lia.
Qed.

Lemma ParseType_obj_int (tk : std_string) (key val : option ValueTypeInfo) (z : Z) :
  ParseType_obj FromString_rec FromConfig_rec (mkValueTypeInfo kTVMFFIInt tk key val) (AInt z)
  = Ok (AInt z).
Proof. reflexivity. Qed.

Lemma ParseType_obj_bool (tk : std_string) (key val : option ValueTypeInfo) (b : bool) :
  ParseType_obj FromString_rec FromConfig_rec (mkValueTypeInfo kTVMFFIBool tk key val) (ABool b)
  = Ok (ABool b).
Proof. reflexivity. Qed.

Lemma ParseType_obj_str (tk : std_string) (key val : option ValueTypeInfo) (s : std_string) :
  ParseType_obj FromString_rec FromConfig_rec (mkValueTypeInfo kTVMFFIStr tk key val) (AStr s)
  = Ok (AStr s).
Proof. reflexivity. Qed.
End Values.

(** ** Words, elements and arrays *)

Lemma plain_char_spec (c : ascii) :
  Canonical.plain_char c = true ->
  c <> " "%char /\ c <> ","%char /\ c <> quote /\ c <> escape.
Proof.
  unfold Canonical.plain_char. rewrite !andb_true_iff, !negb_true_iff.
  intros [[[H1 H2] H3] H4]. apply Ascii.eqb_neq in H1, H2, H3, H4. tauto.
Qed.

Lemma plain_word_spec (w : std_string) :
  Canonical.plain_word w = true ->
  w <> [] /\ Forall (fun c => c <> " "%char /\ c <> ","%char /\ c <> quote /\ c <> escape) w.
Proof.
  unfold Canonical.plain_word. rewrite andb_true_iff, negb_true_iff, bool_decide_eq_false.
  intros [Hnil Hall]. split; [ exact Hnil | ].
  apply Forall_forall. intros c Hc. apply plain_char_spec.
  rewrite forallb_forall in Hall. apply Hall. now apply list_elem_of_In.
Qed.

Lemma plain_word_quote_free (w : std_string) :
  Canonical.plain_word w = true -> Forall (fun c => c <> quote /\ c <> escape) w.
Proof.
  intros Hw. apply plain_word_spec in Hw as [_ Hall].
  eapply Forall_impl; [ exact Hall | cbv beta; tauto ].
Qed.

Lemma JoinString_loop_concat (sep : ascii) (ws : list std_string) (result : std_string) :
  JoinString_loop sep ws false result = result ++ concat (cons sep <$> ws).
Proof.
  revert result. induction ws as [| w ws IH]; intros result; cbn [JoinString_loop].
  - cbn. now rewrite app_nil_r.
  - rewrite IH, fmap_cons. cbn [concat]. now rewrite <- !app_assoc.
Qed.

Lemma JoinString_loop_first (sep : ascii) (w : std_string) (ws : list std_string) :
  JoinString_loop sep (w :: ws) true [] = w ++ concat (cons sep <$> ws).
Proof. cbn [JoinString_loop]. now rewrite JoinString_loop_concat. Qed.

Lemma element_spec (w : std_string) :
  Canonical.element w = true -> w <> [] /\ (" "%char ∉ w) /\ (","%char ∉ w).
Proof.
  unfold Canonical.element. rewrite andb_true_iff, negb_true_iff, bool_decide_eq_false.
  intros [Hnil Hall]. split; [ exact Hnil | ].
  rewrite forallb_forall in Hall.
  split; intros Hin; apply list_elem_of_In, Hall in Hin; discriminate.
Qed.

Lemma plain_word_element (w : std_string) :
  Canonical.plain_word w = true -> Canonical.element w = true.
Proof.
  intros Hw. apply plain_word_spec in Hw as [Hnil Hall].
  unfold Canonical.element. rewrite andb_true_iff, negb_true_iff, bool_decide_eq_false.
  split; [ exact Hnil | ]. apply forallb_forall. intros c Hc.
  rewrite Forall_forall in Hall. apply list_elem_of_In, Hall in Hc as (H1 & H2 & _).
  unfold Canonical.element_char. apply Ascii.eqb_neq in H1, H2. now rewrite H1, H2.
Qed.

Lemma element_trimmed (w : std_string) :
  Canonical.element w = true -> Canonical.trimmed w = true.
Proof.
  intros Hw. apply element_spec in Hw as (Hnil & Hsp & _).
  unfold Canonical.trimmed. rewrite !andb_true_iff, !negb_true_iff, !bool_decide_eq_false.
  split; [ split; [ exact Hnil | ] | ].
  - destruct w as [| c w]; [ congruence | ]. intros [= ->].
    apply Hsp, list_elem_of_here.
  - intros Hl. apply last_Some in Hl as [w' ->].
    apply Hsp, elem_of_app. right. apply list_elem_of_here.
Qed.

Lemma not_elem_of_Uninterpret (c : ascii) (s : std_string) :
  c <> escape -> c ∉ s -> c ∉ Uninterpret s.
Proof.
  intros Hc. induction s as [| x s IH]; intros Hs; [ exact Hs | ].
  apply not_elem_of_cons in Hs as [Hx Hs]. cbn [Uninterpret].
  intros Hin. apply elem_of_app in Hin as [Hin | Hin].
  - destruct (Ascii.eqb x escape || Ascii.eqb x quote); [ | now apply elem_of_nil in Hin ].
    now apply list_elem_of_singleton in Hin.
  - apply elem_of_cons in Hin as [-> | Hin]; [ congruence | now apply IH ].
Qed.

Lemma Uninterpret_nonempty (s : std_string) : s <> [] -> Uninterpret s <> [].
Proof.
  destruct s as [| c s]; [ congruence | ]. intros _. cbn [Uninterpret].
  destruct (Ascii.eqb c escape || Ascii.eqb c quote); discriminate.
Qed.

(** The text of an element in an array: escaped once as a string and once
    more as an element. *)
Lemma passes_join (sep c : ascii) (q : bool) (xs : list std_string) :
  passes sep q [c] -> Forall (passes sep q) xs ->
  passes sep q (JoinString_loop c xs true []).
Proof.
  intros Hc Hxs. destruct xs as [| x xs]; [ apply passes_nil | ].
  rewrite JoinString_loop_first. apply Forall_cons in Hxs as [Hx Hxs].
  apply passes_app; [ exact Hx | ].
  induction Hxs as [| y ys Hy _ IH]; [ apply passes_nil | ].
  rewrite fmap_cons. cbn [concat].
  apply passes_app; [ | exact IH ]. now apply (passes_app sep q [c] y).
Qed.

Lemma Interpret_loop_comma (rest result : std_string) :
  Interpret_loop (","%char :: rest) false false result
  = Interpret_loop rest false false (result ++ ",").
Proof. reflexivity. Qed.

Lemma Interpret_join (ws : list std_string) :
  Interpret (JoinString_loop "," ((fun w => Uninterpret (Uninterpret w)) <$> ws) true [])
  = JoinString_loop "," (Uninterpret <$> ws) true [].
Proof.
  destruct ws as [| w ws]; [ reflexivity | ].
  rewrite !fmap_cons, !JoinString_loop_first.
  unfold Interpret. case_bool_decide as Hnil.
  - apply app_eq_nil in Hnil as [Hw Hws].
    destruct w as [| c w].
    + destruct ws as [| w' ws]; [ reflexivity | discriminate ].
    + exfalso. revert Hw. apply Uninterpret_nonempty, Uninterpret_nonempty. discriminate.
  - rewrite IsQuoted_head, substr_all.
    + rewrite Interpret_loop_Uninterpret_app. cbn [app]. clear Hnil.
      generalize (Uninterpret w). induction ws as [| w' ws IH]; intros acc.
      * cbn. now rewrite app_nil_r.
      * rewrite !fmap_cons. cbn [concat app].
        rewrite Interpret_loop_comma, Interpret_loop_Uninterpret_app, IH.
        now rewrite <- !app_assoc.
    + destruct w as [| c w].
      * destruct ws as [| w' ws]; [ discriminate | ]. rewrite fmap_cons. discriminate.
      * intros Hhead. apply (Uninterpret_head (Uninterpret (c :: w))).
        destruct (Uninterpret (Uninterpret (c :: w))) eqn:Hu; [ | exact Hhead ].
        exfalso. revert Hu. apply Uninterpret_nonempty, Uninterpret_nonempty. discriminate.
Qed.

Lemma SplitString_join_elements (ws : list std_string) :
  Forall (fun w => Canonical.element w = true) ws ->
  SplitString (JoinString_loop "," (Uninterpret <$> ws) true []) ","
  = Ok (Uninterpret <$> ws).
Proof.
  intros Hws.
  assert (Htok : Forall (fun tok => tok <> [] /\ passes "," false tok) (Uninterpret <$> ws)).
  { apply Forall_fmap. eapply Forall_impl; [ exact Hws | ]. cbv beta. intros w Hw.
    apply element_spec in Hw as (Hnil & _ & Hcomma).
    split; [ now apply Uninterpret_nonempty | ].
    apply passes_Uninterpret; [ discriminate | now right ]. }
  destruct ws as [| w ws]; [ reflexivity | ].
  rewrite fmap_cons in *. apply Forall_cons in Htok as [[Hnil Hp] Htok].
  rewrite JoinString_loop_first, SplitString_from_start.
  rewrite SplitString_from_passes by exact Hp.
  rewrite <- (app_nil_r (concat _)).
  rewrite SplitString_from_tokens; [ | exact Htok | now left ].
  rewrite finish_word_absorb. cbn [app fst].
  now rewrite bool_decide_eq_false_2.
Qed.

Lemma is_element_spec (l : list Any) :
  forallb Canonical.is_element l = true ->
  exists ws, l = AStr <$> ws /\ Forall (fun w => Canonical.element w = true) ws.
Proof.
  induction l as [| e l IH]; intros Hl.
  - exists []. split; [ reflexivity | constructor ].
  - cbn [forallb] in Hl. apply andb_true_iff in Hl as [He Hl].
    destruct (IH Hl) as (ws & -> & Hws).
    destruct e; try discriminate. exists (s :: ws). split; [ reflexivity | ].
    constructor; assumption.
Qed.

Section Words.
Context {Reg : Registry}.
Variable FromString_rec : std_string -> Result TargetNode.
Variable FromConfig_rec : gmap std_string Any -> Result TargetNode.

Lemma StringifyAtomicType_element (w : std_string) :
  Canonical.element w = true -> StringifyAtomicType (AStr w) = Ok (Uninterpret w).
Proof.
  intros Hw. cbn [StringifyAtomicType].
  rewrite (bool_decide_eq_true_2 (find_first_of " " (Uninterpret w) = None));
    [ reflexivity | ].
  apply find_first_of_None. apply element_spec in Hw as (_ & Hsp & _).
  apply not_elem_of_Uninterpret; [ discriminate | exact Hsp ].
Qed.

Lemma StringifyArray_loop_elements (ws elements : list std_string) :
  Forall (fun w => Canonical.element w = true) ws ->
  StringifyArray_loop (AStr <$> ws) elements
  = Ok (elements ++ ((fun w => Uninterpret (Uninterpret w)) <$> ws)).
Proof.
  intros Hws. revert elements.
  induction Hws as [| w ws Hw _ IH]; intros elements.
  - cbn. now rewrite app_nil_r.
  - rewrite !fmap_cons. cbn [StringifyArray_loop].
    rewrite StringifyAtomicType_element by exact Hw. cbn [mbind Result_bind].
    rewrite (bool_decide_eq_true_2
               (find_first_of "," (Uninterpret (Uninterpret w)) = None)).
    + cbn [negb andb]. rewrite IH. now rewrite <- app_assoc.
    + apply find_first_of_None. apply element_spec in Hw as (_ & _ & Hcomma).
      apply not_elem_of_Uninterpret; [ discriminate | ].
      apply not_elem_of_Uninterpret; [ discriminate | exact Hcomma ].
Qed.

Lemma StringifyArray_elements (ws : list std_string) :
  Forall (fun w => Canonical.element w = true) ws ->
  StringifyArray (AStr <$> ws)
  = Ok (JoinString_loop "," ((fun w => Uninterpret (Uninterpret w)) <$> ws) true []).
Proof.
  intros Hws. unfold StringifyArray. now rewrite StringifyArray_loop_elements.
Qed.

Lemma ParseType_array_str_elements (info : ValueTypeInfo)
    (wrap : std_string -> std_string -> std_string) (ws : list std_string) (result : list Any) :
  type_index info = kTVMFFIStr ->
  Forall (fun w => Canonical.element w = true) ws ->
  ParseType_array (ParseType_str FromString_rec info) wrap (Uninterpret <$> ws) result
  = Ok (result ++ (AStr <$> ws)).
Proof.
  intros Hinfo Hws. destruct info as [ti tk key val]. cbn in Hinfo. subst ti.
  revert result. induction Hws as [| w ws Hw _ IH]; intros result.
  - cbn. now rewrite app_nil_r.
  - rewrite !fmap_cons. cbn [ParseType_array].
    rewrite (ParseType_str_trimmed _ _ _ _ _ w).
    + cbn [try_catch mbind Result_bind]. rewrite IH. now rewrite <- app_assoc.
    + apply Interpret_Uninterpret_nonempty. now apply element_spec in Hw.
    + now apply element_trimmed.
Qed.

Lemma ParseType_array_obj_words (info : ValueTypeInfo)
    (wrap : std_string -> std_string -> std_string) (ws : list std_string) (result : list Any) :
  type_index info = kTVMFFIStr ->
  ParseType_array (ParseType_obj FromString_rec FromConfig_rec info) wrap (AStr <$> ws) result
  = Ok (result ++ (AStr <$> ws)).
Proof.
  intros Hinfo. destruct info as [ti tk key val]. cbn in Hinfo. subst ti.
  revert result. induction ws as [| w ws IH]; intros result.
  - cbn. now rewrite app_nil_r.
  - rewrite fmap_cons. cbn [ParseType_array]. rewrite ParseType_obj_str.
    cbn [try_catch mbind Result_bind]. rewrite IH. now rewrite <- app_assoc.
Qed.
End Words.

(** ** Canonical values *)

Section CanonicalValues.
Context {Reg : Registry}.
Variable FromString_rec : std_string -> Result TargetNode.
Variable FromConfig_rec : gmap std_string Any -> Result TargetNode.

Lemma ParseType_str_array (tk : std_string) (key : ValueTypeInfo)
    (val : option ValueTypeInfo) (str : std_string) :
  ParseType_str FromString_rec (mkValueTypeInfo kArrayIndex tk (Some key) val) str
  = (substrs ← SplitString (Interpret str) ",";
     result ← ParseType_array (ParseType_str FromString_rec key)
                (fun message index => message ++ index) substrs [];
     Ok (AArray result)).
Proof. reflexivity. Qed.

Lemma ParseType_obj_array (tk : std_string) (key : ValueTypeInfo)
    (val : option ValueTypeInfo) (l : list Any) :
  ParseType_obj FromString_rec FromConfig_rec
    (mkValueTypeInfo kArrayIndex tk (Some key) val) (AArray l)
  = (result ← ParseType_array (ParseType_obj FromString_rec FromConfig_rec key)
                (fun message index => index ++ message) l [];
     Ok (AArray result)).
Proof. reflexivity. Qed.

Lemma has_space_Uninterpret (s : std_string) :
  find_first_of " " (Uninterpret s) = None -> " "%char ∉ s.
Proof.
  intros Hf Hin. apply find_first_of_Some_elem in Hf. apply Hf.
  now apply elem_of_Uninterpret.
Qed.

(** A canonical value is rendered as a non-empty text that passes the
    splitter of the flags as one token, and both parsers give the value
    back: the one from the text and the one from the value. *)
Lemma canonical_value_roundtrip (info : ValueTypeInfo) (v : Any) :
  Canonical.canonical_value info v = true ->
  Stringify_value v = Ok (value_text v)
  /\ value_text v <> []
  /\ v <> ANone
  /\ passes " " false (value_text v)
  /\ ParseType_str FromString_rec info (value_text v) = Ok v
  /\ ParseType_obj FromString_rec FromConfig_rec info v = Ok v.
Proof.
  destruct info as [ti tk key val].
  destruct ti, v; try discriminate; cbn [Canonical.canonical_value]; intros Hc;
    try (destruct key as [[[] ? ? ?] |]; discriminate).
  - (* integer *)
    apply andb_true_iff in Hc as [Hlo Hhi]. apply Z.leb_le in Hlo, Hhi.
    destruct (to_string_chars z) as [Hchars Hnil].
    unfold value_text. cbn [Stringify_value as_ArrayObj StringifyAtomicType].
    repeat split; [ exact Hnil | discriminate | | now apply ParseType_str_int ].
    apply passes_Forall. exact Hchars.
  - (* boolean *)
    destruct (to_string_chars (if b then 1 else 0)) as [Hchars Hnil].
    unfold value_text. cbn [Stringify_value as_ArrayObj StringifyAtomicType].
    repeat split; [ exact Hnil | discriminate | | apply ParseType_str_bool ].
    apply passes_Forall. exact Hchars.
  - (* string *)
    assert (Hnil : s <> []).
    { unfold Canonical.trimmed in Hc. rewrite !andb_true_iff, !negb_true_iff in Hc.
      destruct Hc as [[Hc _] _]. now apply bool_decide_eq_false in Hc. }
    unfold value_text. cbn [Stringify_value as_ArrayObj StringifyAtomicType].
    rewrite IsQuoted_Uninterpret. cbn [negb]. rewrite andb_true_r.
    case_bool_decide as Hsp; cbn [negb].
    + split; [ reflexivity | ]. split.
      { destruct s; [ congruence | ]. cbn [Uninterpret].
        destruct (Ascii.eqb _ escape || Ascii.eqb _ quote); discriminate. }
      split; [ discriminate | ]. split.
      { apply passes_Uninterpret; [ discriminate | right ].
        now apply has_space_Uninterpret. }
      split; [ | reflexivity ].
      apply ParseType_str_trimmed; [ now apply Interpret_Uninterpret_nonempty | exact Hc ].
    + split; [ reflexivity | ]. split; [ discriminate | ].
      split; [ discriminate | ]. split.
      { apply passes_Quote; [ discriminate | ].
        apply passes_Uninterpret; [ discriminate | now left ]. }
      split; [ | reflexivity ].
      apply ParseType_str_trimmed; [ apply Interpret_Quote_Uninterpret | exact Hc ].
  - (* array of elements *)
    destruct key as [[[] etk ekey eval] |]; try discriminate.
    apply andb_true_iff in Hc as [Hnil Hws].
    apply negb_true_iff, bool_decide_eq_false in Hnil.
    apply is_element_spec in Hws as (ws & -> & Hws).
    assert (Hne : ws <> []) by (intros ->; now apply Hnil).
    unfold value_text. cbn [Stringify_value as_ArrayObj].
    rewrite StringifyArray_elements by exact Hws.
    split; [ reflexivity | ]. split.
    { destruct ws as [| w ws]; [ congruence | ]. rewrite fmap_cons, JoinString_loop_first.
      apply Forall_cons in Hws as [Hw _]. apply element_spec in Hw as [Hw _].
      intros Happ. apply app_eq_nil in Happ as [Happ _]. revert Happ.
      now apply Uninterpret_nonempty, Uninterpret_nonempty. }
    split; [ discriminate | ]. split.
    { apply passes_join.
      - apply passes_char; [ discriminate | discriminate | reflexivity ].
      - apply Forall_fmap. eapply Forall_impl; [ exact Hws | ]. cbv beta. intros w Hw.
        apply element_spec in Hw as (_ & Hsp & _).
        apply passes_Uninterpret; [ discriminate | right ].
        apply not_elem_of_Uninterpret; [ discriminate | exact Hsp ]. }
    split.
    + rewrite ParseType_str_array, Interpret_join.
      rewrite SplitString_join_elements by exact Hws. cbn [mbind Result_bind].
      rewrite ParseType_array_str_elements by (auto; reflexivity). reflexivity.
    + rewrite ParseType_obj_array.
      rewrite ParseType_array_obj_words by reflexivity. reflexivity.
Qed.
End CanonicalValues.

(** ** Flags through the raw-string parser *)

Lemma plain_key_spec (key : std_string) :
  Canonical.plain_key key = true ->
  key <> [] /\ key !! 0%nat <> Some "-"%char
  /\ Forall (fun c => c <> " "%char /\ c <> "="%char /\ c <> quote /\ c <> escape) key.
Proof.
  unfold Canonical.plain_key.
  rewrite !andb_true_iff, !negb_true_iff, !bool_decide_eq_false.
  intros [[Hnil Hdash] Hall]. repeat split; [ exact Hnil | exact Hdash | ].
  apply Forall_forall. intros c Hc. rewrite forallb_forall in Hall.
  apply list_elem_of_In, Hall in Hc. unfold Canonical.key_char in Hc.
  rewrite !andb_true_iff, !negb_true_iff in Hc.
  destruct Hc as [[[H1 H2] H3] H4]. apply Ascii.eqb_neq in H1, H2, H3, H4. tauto.
Qed.

Lemma foldl_insert_union (kvs : list (std_string * Any)) (config : gmap std_string Any) :
  NoDup kvs.*1 ->
  foldl (fun c kv => <[kv.1 := kv.2]> c) config kvs = list_to_map kvs ∪ config.
Proof.
  revert config. induction kvs as [| [k v] kvs IH]; intros config Hnd.
  - cbn. now rewrite (left_id_L ∅ (∪)).
  - rewrite fmap_cons in Hnd. apply NoDup_cons in Hnd as [Hk Hnd].
    cbn [foldl fst snd]. rewrite IH by exact Hnd.
    change (list_to_map ((k, v) :: kvs)) with (<[k := v]> (list_to_map kvs : gmap std_string Any)).
    rewrite <- insert_union_l. symmetry. apply insert_union_r.
    now apply not_elem_of_list_to_map_1.
Qed.

Section Flags.
Context {Reg : Registry}.
Variable FromString_rec : std_string -> Result TargetNode.
Variable FromConfig_rec : gmap std_string Any -> Result TargetNode.
Variable knd : TargetKindNode.

Lemma flag_token (kv : std_string * Any) :
  carried knd kv -> flag kv <> [] /\ passes " " false (flag kv).
Proof.
  intros [Hkey (info & _ & Hv)]. split; [ discriminate | ].
  apply plain_key_spec in Hkey as (_ & _ & Hall).
  destruct (canonical_value_roundtrip FromString_rec FromConfig_rec _ _ Hv)
    as (_ & _ & _ & Hp & _).
  unfold flag. apply (passes_app " " false ["-"%char]).
  { apply passes_char; [ discriminate | discriminate | reflexivity ]. }
  apply passes_app.
  { apply passes_Forall. eapply Forall_impl; [ exact Hall | cbv beta; tauto ]. }
  apply (passes_app " " false ["="%char]); [ | exact Hp ].
  apply passes_char; [ discriminate | discriminate | reflexivity ].
Qed.

Lemma flag_parse (kv : std_string * Any) (s_next : std_string) :
  carried knd kv ->
  (s ← RemovePrefixDashes (flag kv); ParseKVPair s s_next)
  = Ok (1%nat, kv.1, value_text kv.2).
Proof.
  intros [Hkey (info & _ & Hv)].
  apply plain_key_spec in Hkey as (Hnil & Hdash & Hall).
  destruct (canonical_value_roundtrip FromString_rec FromConfig_rec _ _ Hv)
    as (_ & Hvnil & _).
  destruct kv as [key v]. cbn [fst snd] in *.
  assert (Hcount : count_dashes (key ++ "=" ++ value_text v) = 0%nat).
  { destruct key as [| c key]; [ congruence | ]. cbn [app count_dashes].
    destruct (Ascii.eqb_spec c "-") as [-> | _]; [ now contradiction Hdash | reflexivity ]. }
  unfold flag, RemovePrefixDashes. cbn [fst snd].
  change ("-" ++ key ++ "=" ++ value_text v)
    with ("-"%char :: (key ++ "=" ++ value_text v)).
  cbn [count_dashes]. rewrite Ascii.eqb_refl, Hcount. cbn [Nat.eqb length].
  destruct (Nat.leb_spec (S (length (key ++ "=" ++ value_text v))) 1) as [Hle | _].
  { rewrite length_app in Hle. destruct key; [ congruence | cbn in Hle; lia ]. }
  unfold substr_from. cbn [drop mbind Result_bind].
  apply (ParseKVPair_split key (value_text v) s_next); [ | exact Hnil | exact Hvnil ].
  intros Hin. rewrite Forall_forall in Hall. now destruct (Hall _ Hin) as (_ & H & _).
Qed.

Lemma FromRawString_loop_flags (target_str : std_string) (kvs : list (std_string * Any))
    (config : gmap std_string Any) :
  Forall (carried knd) kvs -> NoDup kvs.*1 ->
  (forall key, key ∈ kvs.*1 -> config !! key = None) ->
  FromRawString_loop FromString_rec target_str knd (flag <$> kvs) config
  = Ok (list_to_map kvs ∪ config).
Proof.
  intros Hall Hnd Hfresh. rewrite <- foldl_insert_union by exact Hnd.
  revert config Hnd Hfresh. induction Hall as [| kv kvs Hkv _ IH]; intros config Hnd Hfresh.
  - reflexivity.
  - rewrite fmap_cons in *. cbn [FromRawString_loop foldl].
    rewrite flag_parse by exact Hkv. cbn [try_catch mbind Result_bind].
    apply NoDup_cons in Hnd as [Hk Hnd].
    unfold count. rewrite Hfresh by apply list_elem_of_here.
    rewrite bool_decide_eq_false_2 by (intros [? ?]; discriminate).
    destruct Hkv as [_ (info & Hinfo & Hv)].
    unfold FindTypeInfo. rewrite Hinfo. cbn [mbind Result_bind].
    destruct (canonical_value_roundtrip FromString_rec FromConfig_rec _ _ Hv)
      as (_ & _ & _ & _ & Hparse & _).
    rewrite Hparse. cbn [try_catch mbind Result_bind].
    apply IH; [ exact Hnd | ].
    intros key Hkey. rewrite lookup_insert_ne by (intros Heq; apply Hk; now rewrite Heq).
    apply Hfresh. now apply list_elem_of_further.
Qed.
End Flags.

(** ** The attributes through the stringifier *)

Lemma sorted_entries_fst (attrs : gmap std_string Any) :
  (sorted_entries attrs).*1 = merge_sort String_le ((map_to_list attrs).*1).
Proof.
  unfold sorted_entries. rewrite <- list_fmap_compose. apply list_fmap_id.
Qed.

Lemma sorted_entries_lookup (attrs : gmap std_string Any) (kv : std_string * Any) :
  kv ∈ sorted_entries attrs <-> attrs !! kv.1 = Some kv.2.
Proof.
  destruct kv as [k v]. cbn [fst snd].
  unfold sorted_entries. rewrite list_elem_of_fmap. split.
  - intros (key & [= -> ->] & Hkey).
    rewrite merge_sort_Permutation in Hkey.
    apply list_elem_of_fmap in Hkey as ([k' v'] & -> & Hkv).
    apply elem_of_map_to_list in Hkv. cbn [fst]. now rewrite Hkv.
  - intros Hkv. exists k. split.
    + now rewrite Hkv.
    + rewrite merge_sort_Permutation. apply list_elem_of_fmap.
      exists (k, v). split; [ reflexivity | ].
      now apply elem_of_map_to_list.
Qed.

Lemma sorted_entries_NoDup (attrs : gmap std_string Any) :
  NoDup (sorted_entries attrs).*1.
Proof.
  rewrite sorted_entries_fst, merge_sort_Permutation. apply NoDup_fst_map_to_list.
Qed.

Lemma sorted_entries_to_map (attrs : gmap std_string Any) :
  list_to_map (sorted_entries attrs) = attrs.
Proof.
  apply map_eq. intros key. destruct (attrs !! key) as [v |] eqn:Hkey.
  - apply elem_of_list_to_map_1; [ apply sorted_entries_NoDup | ].
    now apply sorted_entries_lookup.
  - apply not_elem_of_list_to_map_1. intros Hin.
    apply list_elem_of_fmap in Hin as ([k v] & -> & Hkv).
    apply sorted_entries_lookup in Hkv. cbn [fst snd] in *. congruence.
Qed.

Section Stringifier.
Context {Reg : Registry}.
Variable FromString_rec : std_string -> Result TargetNode.
Variable FromConfig_rec : gmap std_string Any -> Result TargetNode.
Variable knd : TargetKindNode.

Lemma StringifyAttrsToRaw_loop_flags (attrs : gmap std_string Any)
    (kvs : list (std_string * Any)) (result : list std_string) :
  Forall (fun kv => attrs !! kv.1 = Some kv.2 /\ carried knd kv) kvs ->
  StringifyAttrsToRaw_loop attrs kvs.*1 result = Ok (result ++ (flag <$> kvs)).
Proof.
  intros Hall. revert result.
  induction Hall as [| [key v] kvs [Hkey [_ (info & _ & Hv)]] _ IH]; intros result.
  - cbn. now rewrite app_nil_r.
  - rewrite !fmap_cons. cbn [fst snd] in *. cbn [StringifyAttrsToRaw_loop]. rewrite Hkey.
    destruct (canonical_value_roundtrip FromString_rec FromConfig_rec _ _ Hv)
      as (Hs & Hnil & Hnone & _).
    change (match as_ArrayObj v with
            | Some array => StringifyArray array
            | None => StringifyAtomicType v
            end) with (Stringify_value v).
    rewrite Hs.
    destruct v; try congruence; cbn [mbind Result_bind];
      rewrite (bool_decide_eq_false_2 _ Hnil); cbn [negb];
      rewrite IH, <- app_assoc; reflexivity.
Qed.

Lemma StringifyAttrsToRaw_flags (attrs : gmap std_string Any) :
  (forall key v, attrs !! key = Some v -> carried knd (key, v)) ->
  StringifyAttrsToRaw attrs
  = Ok (Some (JoinString_loop " " (flag <$> sorted_entries attrs) true [])).
Proof.
  intros Hattrs. unfold StringifyAttrsToRaw.
  rewrite <- sorted_entries_fst, StringifyAttrsToRaw_loop_flags.
  - reflexivity.
  - apply Forall_forall. intros [key v] Hkv. apply sorted_entries_lookup in Hkv.
    split; [ exact Hkv | now apply Hattrs ].
Qed.
End Stringifier.

(** ** The canonical config through the assembler *)

Lemma filter_all {A} (P : A -> Prop) `{!forall x, Decision (P x)} (l : list A) :
  Forall P l -> filter P l = l.
Proof.
  induction 1 as [| x l Hx _ IH]; [ reflexivity | ].
  now rewrite filter_cons_True, IH.
Qed.

Lemma dedup_first_NoDup (l : list std_string) : NoDup l -> Spec.dedup_first l = l.
Proof.
  induction 1 as [| k l Hk _ IH]; [ reflexivity | ].
  cbn [Spec.dedup_first]. rewrite IH. f_equal. apply filter_all.
  apply Forall_forall. intros x Hx ->. contradiction.
Qed.

Lemma dedup_first_snoc (l : list std_string) (d : std_string) :
  NoDup l -> d ∈ l -> Spec.dedup_first (l ++ [d]) = l.
Proof.
  induction 1 as [| k l Hk Hnd IH]; intros Hd; [ now apply elem_of_nil in Hd | ].
  cbn [app Spec.dedup_first]. f_equal.
  destruct (decide (d = k)) as [-> | Hne].
  - rewrite dedup_first_NoDup.
    + rewrite filter_app, filter_all.
      * rewrite filter_cons_False by tauto. now rewrite filter_nil, app_nil_r.
      * apply Forall_forall. intros x Hx ->. contradiction.
    + apply NoDup_app. repeat split; [ exact Hnd | | apply NoDup_singleton ].
      intros x Hx Hx'. apply list_elem_of_singleton in Hx'. subst. contradiction.
  - apply elem_of_cons in Hd as [? | Hd]; [ contradiction | ].
    rewrite IH by exact Hd. apply filter_all.
    apply Forall_forall. intros x Hx ->. contradiction.
Qed.

Lemma FromConfig_keys_words `{!Registry} (ks acc : list std_string) :
  FromConfig_keys (AStr <$> ks) acc = Ok (acc ++ ks).
Proof.
  revert acc. induction ks as [| k ks IH]; intros acc.
  - cbn. now rewrite app_nil_r.
  - rewrite fmap_cons. cbn [FromConfig_keys try_cast_String]. rewrite IH.
    now rewrite <- app_assoc.
Qed.

Lemma union_defaults (attrs defaults : gmap std_string Any) :
  (forall key d, defaults !! key = Some d -> is_Some (attrs !! key)) ->
  attrs ∪ defaults = attrs.
Proof.
  intros Hd. apply map_eq. intros key. rewrite lookup_union.
  destruct (attrs !! key) as [v |] eqn:Ha; [ now destruct (defaults !! key) | ].
  destruct (defaults !! key) as [d |] eqn:Hk; [ | reflexivity ].
  destruct (Hd _ _ Hk) as [v Hv]. congruence.
Qed.

Section Assembling.
Context {Reg : Registry}.
Variable FromString_rec : std_string -> Result TargetNode.
Variable FromConfig_rec : gmap std_string Any -> Result TargetNode.
Variable knd : TargetKindNode.

Lemma FromConfig_attrs_canonical (kvs : list (std_string * Any))
    (attrs : gmap std_string Any) :
  Forall (carried knd) kvs -> NoDup kvs.*1 ->
  FromConfig_attrs FromString_rec FromConfig_rec knd kvs attrs
  = Ok (list_to_map kvs ∪ attrs).
Proof.
  intros Hall Hnd. rewrite <- foldl_insert_union by exact Hnd. clear Hnd.
  revert attrs. induction Hall as [| [key v] kvs [_ (info & Hinfo & Hv)] _ IH]; intros attrs.
  - reflexivity.
  - cbn [fst snd] in *. cbn [FromConfig_attrs foldl].
    unfold FindTypeInfo. rewrite Hinfo. cbn [mbind Result_bind].
    destruct (canonical_value_roundtrip FromString_rec FromConfig_rec _ _ Hv)
      as (_ & _ & _ & _ & _ & Hparse).
    rewrite Hparse. cbn [try_catch mbind Result_bind]. apply IH.
Qed.
End Assembling.

Ltac in_reserved :=
  unfold Canonical.reserved;
  repeat first [ apply list_elem_of_here | apply list_elem_of_further ].

Section CanonicalConfig.
Context {Reg : Registry}.
Variable FromString_rec : std_string -> Result TargetNode.
Variable FromConfig_rec : gmap std_string Any -> Result TargetNode.
Variable knd : TargetKindNode.
Variable kn : std_string.
Variable ks : list std_string.
Variable attrs0 : gmap std_string Any.

Hypothesis Hget : TargetKind_Get kn = Some knd.
Hypothesis Hpre : preprocessor knd = None.
Hypothesis Hpar : target_parser knd = None.
Hypothesis Hnodup : NoDup ks.
Hypothesis Hdefault_keys : ks = [] -> default_keys knd = [].
Hypothesis Hdevice : forall d, attrs0 !! kDeviceName = Some (AStr d) -> d ∈ ks.
Hypothesis Hattrs : forall key v, attrs0 !! key = Some v ->
  (key ∉ Canonical.reserved) /\ carried knd (key, v).
Hypothesis Hdefaults : forall key d, key2default_ knd !! key = Some d ->
  is_Some (attrs0 !! key).

Lemma reserved_absent (key : std_string) :
  key ∈ Canonical.reserved -> attrs0 !! key = None.
Proof.
  intros Hr. destruct (attrs0 !! key) as [v |] eqn:Hk; [ | reflexivity ].
  now destruct (Hattrs _ _ Hk) as [Hn _].
Qed.

(** The config that the flags of a canonical target build. *)
Lemma canonical_config_eq :
  list_to_map (keys_entry ks ++ sorted_entries attrs0) ∪ {[ kKind := AStr kn ]}
  = <[ kKind := AStr kn ]>
      (if bool_decide (ks = []) then attrs0
       else <[ kKeys := AArray (AStr <$> ks) ]> attrs0).
Proof.
  rewrite list_to_map_app, sorted_entries_to_map.
  assert (Hkind : attrs0 !! kKind = None) by (apply reserved_absent; in_reserved).
  assert (Hkeys : attrs0 !! kKeys = None) by (apply reserved_absent; in_reserved).
  unfold keys_entry. case_bool_decide.
  - rewrite list_to_map_nil, (left_id_L ∅ (∪)). symmetry.
    now apply insert_union_singleton_r.
  - rewrite list_to_map_cons, list_to_map_nil, insert_empty.
    rewrite <- insert_union_singleton_l. symmetry.
    apply insert_union_singleton_r.
    rewrite lookup_insert_ne by discriminate. exact Hkind.
Qed.

Lemma FromConfig_canonical :
  FromConfig FromString_rec FromConfig_rec
    (list_to_map (keys_entry ks ++ sorted_entries attrs0) ∪ {[ kKind := AStr kn ]})
  = Ok (mkTargetNode (name knd) None [] ks attrs0 ∅).
Proof.
  rewrite canonical_config_eq.
  assert (Hkind : attrs0 !! kKind = None) by (apply reserved_absent; in_reserved).
  assert (Hkeys : attrs0 !! kKeys = None) by (apply reserved_absent; in_reserved).
  assert (Htag : attrs0 !! kTag = None) by (apply reserved_absent; in_reserved).
  assert (Hhost : attrs0 !! kHost = None) by (apply reserved_absent; in_reserved).
  assert (Hfeat : attrs0 !! kFeatures = None) by (apply reserved_absent; in_reserved).
  assert (Hfrom : attrs0 !! ("from_device" : std_string) = None)
    by (apply reserved_absent; in_reserved).
  set (c1 := if bool_decide (ks = []) then attrs0
             else <[ kKeys := AArray (AStr <$> ks) ]> attrs0).
  assert (Hc1 : forall key, key <> kKeys -> c1 !! key = attrs0 !! key).
  { intros key Hne. unfold c1. case_bool_decide; [ reflexivity | ].
    now rewrite lookup_insert_ne. }
  assert (Hc1kind : c1 !! kKind = None) by (rewrite Hc1; [ exact Hkind | discriminate ]).
  assert (Hdel : delete kKeys c1 = attrs0).
  { unfold c1. case_bool_decide; [ now apply delete_id | ].
    rewrite delete_insert_eq. now apply delete_id. }
  unfold FromConfig, count.
  rewrite lookup_insert_ne, Hc1, Hfeat by discriminate.
  rewrite bool_decide_eq_false_2 by (intros [? ?]; discriminate).
  unfold ICHECK at 1. cbn [negb].
  rewrite lookup_insert_eq. cbn [try_cast_String].
  unfold GetTargetKind. rewrite Hget. cbn [mbind Result_bind].
  rewrite Hpre, Hpar.
  rewrite (bool_decide_eq_false_2 (is_Some None)) by (intros [? ?]; discriminate).
  unfold ICHECK at 1. cbn [negb andb mbind Result_bind].
  rewrite delete_insert_eq, (delete_id c1) by exact Hc1kind.
  rewrite Hc1, Htag by discriminate. cbn [mbind Result_bind].
  rewrite Hdel, Hhost. cbn [mbind Result_bind].
  rewrite (Hc1 kDeviceName) by discriminate.
  assert (Hdev : forall d, attrs0 !! kDeviceName ≫= try_cast_String = Some d -> d ∈ ks).
  { intros d Hd. apply Hdevice.
    destruct (attrs0 !! kDeviceName) as [[] |]; try discriminate. now injection Hd as ->. }
  assert (Hloop : FromConfig_attrs FromString_rec FromConfig_rec knd (map_to_list attrs0) ∅
                  = Ok attrs0).
  { rewrite (FromConfig_attrs_canonical FromString_rec FromConfig_rec).
    - now rewrite list_to_map_to_list, (right_id_L ∅ (∪)).
    - apply Forall_forall. intros [key v] Hkv. apply elem_of_map_to_list in Hkv.
      now apply Hattrs.
    - apply NoDup_fst_map_to_list. }
  assert (Hkeys_of : exists keys0,
            match c1 !! kKeys with
            | Some v =>
                match as_ArrayObj v with
                | Some cfg_keys => FromConfig_keys cfg_keys []
                | None =>
                    THROW "TypeError"
                      ("Expect type of field " ++ [dquote] ++ "keys" ++ [dquote]
                       ++ " is Array, but get type: " ++ GetTypeKey v)
                end
            | None => Ok []
            end = Ok keys0
            /\ DeduplicateKeys
                 (if negb (bool_decide (is_Some (c1 !! kKeys)))
                  then match attrs0 !! kDeviceName ≫= try_cast_String with
                       | Some device => keys0 ++ [device]
                       | None => keys0
                       end ++ default_keys knd
                  else match attrs0 !! kDeviceName ≫= try_cast_String with
                       | Some device => keys0 ++ [device]
                       | None => keys0
                       end) = ks).
  { unfold c1. case_bool_decide as Hks.
    - exists []. rewrite Hkeys. split; [ reflexivity | ].
      rewrite bool_decide_eq_false_2 by (intros [? ?]; discriminate). cbn [negb].
      rewrite Hdefault_keys by exact Hks.
      destruct (attrs0 !! kDeviceName ≫= try_cast_String) as [d |] eqn:Hd.
      + specialize (Hdev d eq_refl). rewrite Hks in Hdev. now apply elem_of_nil in Hdev.
      + now rewrite Hks.
    - exists ks. rewrite lookup_insert_eq. cbn [as_ArrayObj].
      rewrite FromConfig_keys_words. split; [ reflexivity | ].
      rewrite bool_decide_eq_true_2 by eauto. cbn [negb].
      rewrite DeduplicateKeys_dedup_first.
      destruct (attrs0 !! kDeviceName ≫= try_cast_String) as [d |] eqn:Hd.
      + apply dedup_first_snoc; [ exact Hnodup | exact (Hdev d eq_refl) ].
      + now apply dedup_first_NoDup. }
  destruct Hkeys_of as (keys0 & -> & Hks).
  cbn [mbind Result_bind]. rewrite Hloop. cbn [mbind Result_bind].
  rewrite Hfrom. cbn [mbind Result_bind]. rewrite Hpre. cbn [mbind Result_bind].
  rewrite union_defaults by exact Hdefaults. now rewrite Hks.
Qed.
End CanonicalConfig.

(** ** Canonical targets *)

Lemma forallb_words (ks : list std_string) :
  forallb Canonical.plain_word ks = true ->
  Forall (fun w => Canonical.plain_word w = true) ks
  /\ forallb Canonical.is_element (AStr <$> ks) = true.
Proof.
  induction ks as [| k ks IH]; intros Hks; [ split; [ constructor | reflexivity ] | ].
  cbn [forallb] in Hks. apply andb_true_iff in Hks as [Hk Hks].
  destruct (IH Hks) as [Hall Hw]. split; [ now constructor | ].
  rewrite fmap_cons. cbn [forallb Canonical.is_element].
  now rewrite (plain_word_element _ Hk), Hw.
Qed.

(** What the boolean [canonical] says. *)
Lemma canonical_spec (knd : TargetKindNode) (t : TargetNode) :
  Canonical.canonical knd t = true ->
  Canonical.plain_name (kind t) = true
  /\ host t = None /\ tag t = [] /\ features t = ∅
  /\ NoDup (keys t)
  /\ Forall (fun w => Canonical.plain_word w = true) (keys t)
  /\ (forall d, attrs t !! kDeviceName = Some (AStr d) -> d ∈ keys t)
  /\ (keys t = [] -> default_keys knd = [])
  /\ (keys t <> [] -> carried knd (kKeys, AArray (AStr <$> keys t)))
  /\ (forall key v, attrs t !! key = Some v ->
        (key ∉ Canonical.reserved) /\ carried knd (key, v))
  /\ (forall key d, key2default_ knd !! key = Some d -> is_Some (attrs t !! key)).
Proof.
  unfold Canonical.canonical, Canonical.canonical_keys.
  rewrite !andb_true_iff, !bool_decide_eq_true.
  intros [[[[[[Hname Hhost] Htag] Hfeat] [[[Hnd Hwords] Hdev] Hkeys]] Hattrs] Hdef].
  destruct (forallb_words _ Hwords) as [Hall Hisw].
  split; [ exact Hname | ]. split; [ exact Hhost | ]. split; [ exact Htag | ].
  split; [ now apply map_to_list_empty_iff | ]. split; [ exact Hnd | ].
  split; [ exact Hall | ]. split.
  { intros d Hd. rewrite Hd in Hdev. now apply bool_decide_eq_true in Hdev. }
  split.
  { intros Hnil. rewrite bool_decide_eq_true_2 in Hkeys by exact Hnil.
    now apply bool_decide_eq_true in Hkeys. }
  split.
  { intros Hne. rewrite bool_decide_eq_false_2 in Hkeys by exact Hne.
    split; [ reflexivity | ]. cbn [fst snd].
    destruct (key2vtype_ knd !! kKeys) as [[[] tk [[[] etk ekey eval] |] val] |];
      try discriminate.
    eexists. split; [ reflexivity | ]. cbn [Canonical.canonical_value].
    rewrite Hisw, andb_true_r. apply negb_true_iff, bool_decide_eq_false.
    destruct (keys t); [ congruence | discriminate ]. }
  split.
  { intros key v Hkv. rewrite forallb_forall in Hattrs.
    specialize (Hattrs (key, v)). unfold Canonical.canonical_attr in Hattrs.
    cbn [fst snd] in Hattrs. rewrite !andb_true_iff, negb_true_iff in Hattrs.
    destruct Hattrs as [[Hpk Hres] Hval].
    { apply list_elem_of_In. now apply elem_of_map_to_list. }
    apply bool_decide_eq_false in Hres. split; [ exact Hres | ].
    split; [ exact Hpk | ]. cbn [fst snd].
    destruct (key2vtype_ knd !! key) as [info |]; [ eauto | discriminate ]. }
  intros key d Hkd. rewrite forallb_forall in Hdef.
  specialize (Hdef (key, d)). cbn [fst] in Hdef.
  eapply bool_decide_eq_true_1. apply Hdef.
  apply list_elem_of_In. now apply elem_of_map_to_list.
Qed.

Lemma plain_name_spec (n : std_string) :
  Canonical.plain_name n = true ->
  n <> [] /\ n !! 0%nat <> Some "{"%char
  /\ Forall (fun c => c <> escape /\ c <> quote /\ c <> " "%char) n.
Proof.
  unfold Canonical.plain_name.
  rewrite !andb_true_iff, !negb_true_iff, !bool_decide_eq_false.
  intros [[Hnil Hbrace] Hall]. repeat split; [ exact Hnil | exact Hbrace | ].
  apply Forall_forall. intros c Hc. rewrite forallb_forall in Hall.
  apply list_elem_of_In, Hall in Hc. unfold Canonical.name_char in Hc.
  rewrite !andb_true_iff, !negb_true_iff in Hc.
  destruct Hc as [[H1 H2] H3]. apply Ascii.eqb_neq in H1, H2, H3. tauto.
Qed.

Lemma keys_entry_cases (ks : list std_string) :
  ks = [] /\ keys_entry ks = []
  \/ ks <> [] /\ keys_entry ks = [(kKeys, AArray (AStr <$> ks))].
Proof.
  unfold keys_entry. destruct (decide (ks = [])) as [Hks | Hks].
  - left. now rewrite (bool_decide_eq_true_2 _ Hks).
  - right. now rewrite (bool_decide_eq_false_2 _ Hks).
Qed.

Section Roundtrip.
Context {Reg : Registry}.

Lemma keys_flag (ks : list std_string) :
  Forall (fun w => Canonical.plain_word w = true) ks ->
  " -keys=" ++ JoinString_loop "," ks true []
  = " "%char :: flag (kKeys, AArray (AStr <$> ks)).
Proof.
  intros Hks. unfold flag, value_text, Stringify_value. cbn [fst snd as_ArrayObj].
  rewrite StringifyArray_elements
    by (eapply Forall_impl; [ exact Hks | apply plain_word_element ]).
  replace ((fun w => Uninterpret (Uninterpret w)) <$> ks) with ks; [ reflexivity | ].
  induction Hks as [| k ks Hk _ IH]; [ reflexivity | ].
  rewrite fmap_cons, <- IH.
  pose proof (plain_word_quote_free _ Hk) as Hfree.
  now rewrite (Uninterpret_plain k Hfree), (Uninterpret_plain k Hfree).
Qed.

(** The text of a canonical target: the kind, then each flag after a
    space, with a space at the end when there is no attribute. *)
Lemma str_canonical (knd : TargetKindNode) (t : TargetNode) :
  Canonical.canonical knd t = true ->
  str t
  = Ok (kind t
        ++ concat (cons " "%char <$> (flag <$> (keys_entry (keys t) ++ sorted_entries (attrs t))))
        ++ (if bool_decide (sorted_entries (attrs t) = []) then " " else [])).
Proof.
  intros Hc. apply canonical_spec in Hc
    as (_ & _ & _ & _ & _ & Hwords & _ & _ & _ & Hattrs & _).
  unfold str. rewrite (StringifyAttrsToRaw_flags (fun _ => OutOfFuel) (fun _ => OutOfFuel) knd)
    by (intros key v Hkv; now apply Hattrs).
  cbn [mbind Result_bind]. f_equal.
  rewrite !fmap_app, concat_app.
  assert (Hflags : " " ++ JoinString_loop " " (flag <$> sorted_entries (attrs t)) true []
                   = concat (cons " "%char <$> (flag <$> sorted_entries (attrs t)))
                     ++ (if bool_decide (sorted_entries (attrs t) = []) then " " else [])).
  { destruct (sorted_entries (attrs t)) as [| kv kvs]; [ reflexivity | ].
    rewrite bool_decide_eq_false_2 by discriminate.
    rewrite !fmap_cons, JoinString_loop_first. cbn [concat]. now rewrite app_nil_r. }
  rewrite <- (app_assoc (concat _) (concat _)), <- Hflags.
  unfold keys_entry. destruct (decide (keys t = [])) as [Hks | Hks].
  - rewrite (bool_decide_eq_true_2 _ Hks). reflexivity.
  - rewrite (bool_decide_eq_false_2 _ Hks). cbn [negb fmap list_fmap concat].
    rewrite app_nil_r, <- (keys_flag _ Hwords). now rewrite <- !app_assoc.
Qed.

(** C1 (amended). For a canonical target [t] of a kind without hooks -- no
    host, no tag, no features, names free of the characters of the flag
    grammar, keys that are distinct words, attributes that are 64-bit
    integers, booleans, non-empty trimmed strings or non-empty arrays of
    non-empty strings without space or comma, of the type of their schema,
    and every default of the kind among the attributes -- the stringifier
    produces a string, and parsing that string, when it is not a registered
    tag, yields [t] itself: same kind, tag, keys, attributes and host. *)
Theorem str_roundtrip (fuel : nat) (knd : TargetKindNode) (t : TargetNode) :
  TargetKind_Get (kind t) = Some knd ->
  name knd = kind t ->
  preprocessor knd = None ->
  target_parser knd = None ->
  Canonical.canonical knd t = true ->
  exists s,
    str t = Ok s
    /\ (TargetTag_Get s = None -> TargetInternal_FromString (S fuel) s = Ok t).
Proof.
  intros Hget Hname Hpre Hpar Hc.
  rewrite (str_canonical knd t Hc). eexists. split; [ reflexivity | ].
  intros Htag.
  pose proof (canonical_spec knd t Hc)
    as (Hpn & Hhost & Htg & Hfeat & Hnd & Hwords & Hdev & Hdk & Hke & Hattrs & Hdef).
  apply plain_name_spec in Hpn as (Hnil & Hbrace & Hchars).
  set (allkvs := keys_entry (keys t) ++ sorted_entries (attrs t)) in *.
  set (trail := if bool_decide (sorted_entries (attrs t) = []) then " " : std_string else [])
    in *.
  (* every entry of the text is carried *)
  assert (Hcarried : Forall (carried knd) allkvs).
  { apply Forall_app. split.
    - destruct (keys_entry_cases (keys t)) as [[_ ->] | [Hks ->]]; [ constructor | ].
      constructor; [ now apply Hke | constructor ].
    - apply Forall_forall. intros [key v] Hkv.
      apply sorted_entries_lookup in Hkv. now apply Hattrs. }
  assert (Hreserved : forall key, key ∈ Canonical.reserved -> key ∉ (sorted_entries (attrs t)).*1).
  { intros key Hr Hin. apply list_elem_of_fmap in Hin as ([k v] & -> & Hkv).
    apply sorted_entries_lookup in Hkv. now destruct (Hattrs _ _ Hkv) as [Hn _]. }
  assert (Hnodup : NoDup allkvs.*1).
  { unfold allkvs. rewrite fmap_app. apply NoDup_app.
    split; [ | split; [ | apply sorted_entries_NoDup ] ].
    - destruct (keys_entry_cases (keys t)) as [[_ ->] | [_ ->]];
        [ constructor | apply NoDup_singleton ].
    - intros key Hkey.
      destruct (keys_entry_cases (keys t)) as [[_ Hke'] | [_ Hke']]; rewrite Hke' in Hkey.
      + now apply elem_of_nil in Hkey.
      + apply list_elem_of_singleton in Hkey as ->. apply Hreserved. in_reserved. }
  assert (Hfresh : forall key, key ∈ allkvs.*1 ->
            ({[ kKind := AStr (kind t) ]} : gmap std_string Any) !! key = None).
  { intros key Hkey. apply lookup_singleton_ne. intros <-.
    unfold allkvs in Hkey. rewrite fmap_app in Hkey. apply elem_of_app in Hkey as [Hkey | Hkey].
    - destruct (keys_entry_cases (keys t)) as [[_ Hke'] | [_ Hke']]; rewrite Hke' in Hkey.
      + now apply elem_of_nil in Hkey.
      + now apply list_elem_of_singleton in Hkey.
    - revert Hkey. apply Hreserved. in_reserved. }
  (* the text splits into the kind and the flags *)
  assert (Hsplit : SplitString (kind t ++ concat (cons " "%char <$> (flag <$> allkvs)) ++ trail) " "
                   = Ok (kind t :: (flag <$> allkvs))).
  { rewrite SplitString_from_start, SplitString_from_passes by (now apply passes_Forall).
    rewrite SplitString_from_tokens.
    - rewrite finish_word_absorb. cbn [app].
      now rewrite bool_decide_eq_false_2 by exact Hnil.
    - apply Forall_fmap. eapply Forall_impl; [ exact Hcarried | ].
      intros kv Hkv. now apply (flag_token (fun _ => OutOfFuel) (fun _ => OutOfFuel) knd).
    - unfold trail. destruct (bool_decide (sorted_entries (attrs t) = []));
        [ now right | now left ]. }
  cbn [TargetInternal_FromString]. unfold FromString. rewrite Htag.
  assert (Hhead : (kind t ++ concat (cons " "%char <$> (flag <$> allkvs)) ++ trail) !! 0%nat
                  <> Some "{"%char).
  { destruct (kind t) as [| c n]; [ congruence | exact Hbrace ]. }
  rewrite (bool_decide_eq_false_2 _ Hhead), andb_false_r.
  unfold FromRawString.
  destruct (Nat.ltb_spec 0 (length (kind t ++ concat (cons " "%char <$> (flag <$> allkvs)) ++ trail)))
    as [_ | Hlen].
  2: { rewrite length_app in Hlen. destruct (kind t); [ congruence | cbn in Hlen; lia ]. }
  unfold ICHECK at 1. rewrite Hsplit. cbn [mbind Result_bind].
  unfold GetTargetKind. rewrite Hget. cbn [mbind Result_bind].
  rewrite (FromRawString_loop_flags _ (TargetInternal_FromConfig fuel)) by assumption.
  cbn [mbind Result_bind].
  unfold allkvs. rewrite (FromConfig_canonical _ _ knd) by assumption.
  rewrite Hname. destruct t as [kn h tg ks at_ ft]. cbn in Hhost, Htg, Hfeat. now subst.
Qed.
End Roundtrip.

(** A target with keys, a device, an integer, a boolean, a string with a
    space and a quote, and an array with a quote and an escape in its
    elements, in the demo registry. *)
Lemma str_roundtrip_witness :
  let t := mkTargetNode "llvm" None [] ["cpu" : std_string; "arm" : std_string]
             (list_to_map
                [("device" : std_string, AStr "arm"); ("mcpu" : std_string, AStr "a 'b");
                 ("mattr" : std_string, AArray [AStr "+neon"; AStr "+v'8\"]);
                 ("opt-level" : std_string, AInt (-3));
                 ("link-params" : std_string, ABool true)]) ∅ in
  exists s, @str Demo.registry t = Ok s
    /\ @TargetInternal_FromString Demo.registry 1 s = Ok t.
Proof.
  intros t.
  destruct (@str_roundtrip Demo.registry 0 Demo.llvm t) as (s & Hs & Hparse);
    [ reflexivity | reflexivity | reflexivity | reflexivity | vm_compute; reflexivity | ].
  exists s. split; [ exact Hs | ]. apply Hparse. reflexivity.
Defined.

(** C1, as stated, fails on targets built from raw flag strings: the text
    of a target leaves out its host, and an attribute whose value is the
    empty string; an array with one element that contains a comma is read
    back as two elements; explicit empty keys are read back as the default
    keys; the text of an array whose element contains a space does not
    parse at all; and the text leaves out the tag. *)
Lemma str_not_injective :
  (exists t s t',
     @TargetInternal_FromString Demo.registry 2 "llvm -host=llvm" = Ok t
     /\ @str Demo.registry t = Ok s
     /\ @TargetInternal_FromString Demo.registry 2 s = Ok t'
     /\ host t <> host t')
  /\ (exists t s t',
        @TargetInternal_FromString Demo.registry 2 "llvm -mcpu=''" = Ok t
        /\ @str Demo.registry t = Ok s
        /\ @TargetInternal_FromString Demo.registry 2 s = Ok t'
        /\ attrs t <> attrs t')
  /\ (exists t s t',
        @TargetInternal_FromString Demo.registry 2 "llvm -mattr=\'a,b\'" = Ok t
        /\ @str Demo.registry t = Ok s
        /\ @TargetInternal_FromString Demo.registry 2 s = Ok t'
        /\ attrs t <> attrs t')
  /\ (exists t s t',
        @TargetInternal_FromString Demo.registry 2 "llvm -keys=''" = Ok t
        /\ @str Demo.registry t = Ok s
        /\ @TargetInternal_FromString Demo.registry 2 s = Ok t'
        /\ keys t <> keys t')
  /\ (exists t s,
        @TargetInternal_FromString Demo.registry 2 "llvm -mattr='a b'" = Ok t
        /\ @str Demo.registry t = Ok s
        /\ is_Ok (@TargetInternal_FromString Demo.registry 2 s) = false)
  /\ (exists t s t',
        @TargetInternal_FromString Demo.registry 2 "llvm -tag=x" = Ok t
        /\ @str Demo.registry t = Ok s
        /\ @TargetInternal_FromString Demo.registry 2 s = Ok t'
        /\ tag t <> tag t').
Proof.
  split; [ | split; [ | split; [ | split; [ | split ] ] ] ].
  - exists (mkTargetNode "llvm" (Some (mkTargetNode "llvm" None [] ["cpu" : std_string] ∅ ∅))
              [] ["cpu" : std_string] ∅ ∅),
      ("llvm -keys=cpu " : std_string),
      (mkTargetNode "llvm" None [] ["cpu" : std_string] ∅ ∅).
    repeat split; try (vm_compute; reflexivity). discriminate.
  - exists (mkTargetNode "llvm" None [] ["cpu" : std_string] {[ ("mcpu" : std_string) := AStr [] ]} ∅),
      ("llvm -keys=cpu " : std_string),
      (mkTargetNode "llvm" None [] ["cpu" : std_string] ∅ ∅).
    repeat split; try (vm_compute; reflexivity).
    cbn [attrs]. intros Heq.
    apply (f_equal (fun m => m !! ("mcpu" : std_string))) in Heq.
    vm_compute in Heq. discriminate.
  - exists (mkTargetNode "llvm" None [] ["cpu" : std_string]
              {[ ("mattr" : std_string) := AArray [AStr "a,b"] ]} ∅),
      ("llvm -keys=cpu -mattr='a,b'" : std_string),
      (mkTargetNode "llvm" None [] ["cpu" : std_string]
         {[ ("mattr" : std_string) := AArray [AStr "a"; AStr "b"] ]} ∅).
    repeat split; try (vm_compute; reflexivity).
    cbn [attrs]. intros Heq.
    apply (f_equal (fun m => m !! ("mattr" : std_string))) in Heq.
    vm_compute in Heq. discriminate.
  - exists (mkTargetNode "llvm" None [] [] ∅ ∅),
      ("llvm " : std_string),
      (mkTargetNode "llvm" None [] ["cpu" : std_string] ∅ ∅).
    repeat split; try (vm_compute; reflexivity). discriminate.
  - exists (mkTargetNode "llvm" None [] ["cpu" : std_string]
              {[ ("mattr" : std_string) := AArray [AStr "a b"] ]} ∅),
      ("llvm -keys=cpu -mattr=\'a b\'" : std_string).
    repeat split; vm_compute; reflexivity.
  - exists (mkTargetNode "llvm" None "x" ["cpu" : std_string] ∅ ∅),
      ("llvm -keys=cpu " : std_string),
      (mkTargetNode "llvm" None [] ["cpu" : std_string] ∅ ∅).
    repeat split; try (vm_compute; reflexivity). discriminate.
Qed.

(** * Further properties

    Properties read off the code, beyond those the specification states:
    the helper functions, the quoting primitives, the two value parsers, the
    exported form of a target, the attributes and the keys of an assembled
    target, the errors of the constructors, the stringifier and the scopes. *)

(** ** Further properties: the helper functions *)

Lemma dedup_first_elem_of (l : list std_string) (k : std_string) :
  k ∈ Spec.dedup_first l <-> k ∈ l.
Proof.
  induction l as [| x l IH]; [ reflexivity | ].
  cbn [Spec.dedup_first]. rewrite !elem_of_cons, list_elem_of_filter, IH.
  destruct (decide (k = x)); tauto.
Qed.

Lemma dedup_first_NoDup_result (l : list std_string) : NoDup (Spec.dedup_first l).
Proof.
  induction l as [| x l IH]; [ constructor | ].
  cbn [Spec.dedup_first]. constructor.
  - rewrite list_elem_of_filter. tauto.
  - now apply NoDup_filter.
Qed.

Lemma dedup_first_sublist (l : list std_string) : Spec.dedup_first l `sublist_of` l.
Proof.
  induction l as [| x l IH]; [ constructor | ].
  cbn [Spec.dedup_first]. constructor.
  etransitivity; [ apply sublist_filter | exact IH ].
Qed.

(** X1. the result of DeduplicateKeys has no duplicate, has the elements of the
    input and no other, and keeps them in the order of the input. *)
Theorem DeduplicateKeys_NoDup (keys : list std_string) :
  NoDup (DeduplicateKeys keys)
  /\ (forall k, k ∈ DeduplicateKeys keys <-> k ∈ keys)
  /\ DeduplicateKeys keys `sublist_of` keys.
Proof.
  rewrite DeduplicateKeys_dedup_first. split; [ apply dedup_first_NoDup_result | ].
  split; [ intros k; apply dedup_first_elem_of | apply dedup_first_sublist ].
Qed.

(** X2. DeduplicateKeys leaves a list unchanged exactly when the list has no
    duplicate; applying it twice is applying it once. *)
Theorem DeduplicateKeys_fixed (keys : list std_string) :
  (DeduplicateKeys keys = keys <-> NoDup keys)
  /\ DeduplicateKeys (DeduplicateKeys keys) = DeduplicateKeys keys.
Proof.
  rewrite !DeduplicateKeys_dedup_first. split; [ split | ].
  - intros <-. apply dedup_first_NoDup_result.
  - apply dedup_first_NoDup.
  - apply dedup_first_NoDup, dedup_first_NoDup_result.
Qed.

Lemma count_dashes_repeat (n : nat) (r : std_string) :
  r !! 0%nat <> Some "-"%char ->
  count_dashes (repeat "-"%char n ++ r) = n.
Proof.
  intros Hr. induction n as [| n IH]; cbn [repeat app count_dashes].
  - destruct r as [| c r]; [ reflexivity | ]. cbn [count_dashes].
    destruct (Ascii.eqb_spec c "-"); [ subst; now contradict Hr | reflexivity ].
  - now rewrite IH.
Qed.

Lemma count_dashes_split (s : std_string) :
  s = repeat "-"%char (count_dashes s) ++ drop (count_dashes s) s
  /\ drop (count_dashes s) s !! 0%nat <> Some "-"%char
  /\ (count_dashes s <= length s)%nat.
Proof.
  induction s as [| c s (IH1 & IH2 & IH3)]; [ repeat split; cbn; [ discriminate | lia ] | ].
  cbn [count_dashes]. destruct (Ascii.eqb_spec c "-") as [-> | Hne].
  - cbn [repeat app drop length]. repeat split; [ now f_equal | exact IH2 | lia ].
  - cbn [repeat app drop length]. repeat split; [ | lia ].
    cbn. congruence.
Qed.

(** X3. RemovePrefixDashes returns [r] exactly when the input is one or more
    dashes followed by [r], and [r] is not empty and does not start with a
    dash; every other input is a ValueError. *)
Theorem RemovePrefixDashes_iff (s : std_string) :
  (forall r, RemovePrefixDashes s = Ok r
     <-> exists n, (0 < n)%nat /\ s = repeat "-"%char n ++ r
                   /\ r <> [] /\ r !! 0%nat <> Some "-"%char)
  /\ (is_Ok (RemovePrefixDashes s) = false ->
        exists message, RemovePrefixDashes s = Throw (mkError "ValueError" message)).
Proof.
  destruct (count_dashes_split s) as (Hs & Hhead & Hle).
  unfold RemovePrefixDashes, substr_from, THROW. split.
  - intros r. split.
    + destruct (Nat.eqb_spec (count_dashes s) 0); [ discriminate | ].
      destruct (Nat.leb_spec (length s) (count_dashes s)); [ discriminate | ].
      intros [= <-]. exists (count_dashes s). repeat split; [ lia | exact Hs | | exact Hhead ].
      intros Hnil. apply (f_equal length) in Hnil. rewrite length_drop in Hnil.
      cbn in Hnil. lia.
    + intros (n & Hn & -> & Hnil & Hr).
      rewrite count_dashes_repeat by exact Hr.
      destruct (Nat.eqb_spec n 0); [ lia | ].
      rewrite length_app, repeat_length.
      destruct (Nat.leb_spec (n + length r) n) as [Hlen | _].
      * destruct r; [ congruence | cbn in Hlen; lia ].
      * f_equal. rewrite drop_app_length'; [ reflexivity | now rewrite repeat_length ].
  - destruct (count_dashes s =? 0)%nat; [ eauto | ].
    destruct (length s <=? count_dashes s)%nat; [ eauto | discriminate ].
Qed.

(** ** Further properties: quoting and escaping *)

(** X4. the text of a string value is the escaped string, enclosed in quotes
    exactly when the string contains a space, and Interpret reads the string
    back from it. *)
Theorem StringifyAtomicType_string `{!Registry} (s : std_string) :
  StringifyAtomicType (AStr s)
  = Ok (if bool_decide (" "%char ∈ s) then Quote (Uninterpret s) else Uninterpret s)
  /\ (forall u, StringifyAtomicType (AStr s) = Ok u -> Interpret u = s).
Proof.
  assert (Htext : StringifyAtomicType (AStr s)
                  = Ok (if bool_decide (" "%char ∈ s) then Quote (Uninterpret s)
                        else Uninterpret s)).
  { cbn [StringifyAtomicType]. rewrite IsQuoted_Uninterpret. cbn [negb].
    rewrite andb_true_r. destruct (decide (" "%char ∈ s)) as [Hsp | Hsp].
    - rewrite (bool_decide_eq_true_2 _ Hsp).
      rewrite bool_decide_eq_false_2; [ reflexivity | ].
      rewrite find_first_of_Some_elem. intros Hn. apply Hn. now apply elem_of_Uninterpret.
    - rewrite (bool_decide_eq_false_2 _ Hsp).
      rewrite bool_decide_eq_true_2; [ reflexivity | ].
      apply find_first_of_None, not_elem_of_Uninterpret; [ discriminate | exact Hsp ]. }
  split; [ exact Htext | ]. rewrite Htext. intros u [= <-].
  case_bool_decide as Hsp.
  - apply Interpret_Quote_Uninterpret.
  - destruct s as [| c s]; [ reflexivity | ].
    now apply Interpret_Uninterpret_nonempty.
Qed.

Lemma Interpret_loop_sublist (body : std_string) (inside_quote escaping : bool)
    (result : std_string) :
  exists r, Interpret_loop body inside_quote escaping result = result ++ r
            /\ r `sublist_of` body.
Proof.
  revert inside_quote escaping result.
  induction body as [| c body IH]; intros inside_quote escaping result.
  - exists []. split; [ now rewrite app_nil_r | constructor ].
  - cbn [Interpret_loop].
    assert (Hkeep : forall iq esc, exists r,
              Interpret_loop body iq esc (result ++ [c]) = result ++ r
              /\ r `sublist_of` c :: body).
    { intros iq esc. destruct (IH iq esc (result ++ [c])) as (r & -> & Hr).
      exists (c :: r). split; [ now rewrite <- app_assoc | now constructor ]. }
    assert (Hdrop : forall iq esc, exists r,
              Interpret_loop body iq esc result = result ++ r
              /\ r `sublist_of` c :: body).
    { intros iq esc. destruct (IH iq esc result) as (r & -> & Hr).
      exists r. split; [ reflexivity | now constructor ]. }
    destruct escaping; [ apply Hkeep | ].
    destruct (Ascii.eqb c escape).
    + destruct (negb inside_quote); [ apply Hdrop | apply Hkeep ].
    + destruct (Ascii.eqb c quote); apply Hkeep.
Qed.

Lemma sublist_Uninterpret (s : std_string) : s `sublist_of` Uninterpret s.
Proof.
  induction s as [| c s IH]; [ constructor | ]. cbn [Uninterpret].
  apply sublist_inserts_l. now constructor.
Qed.

(** X5. Interpret only removes characters, and Uninterpret only adds some: the
    result of Interpret is a subsequence of its argument, the argument of
    Uninterpret a subsequence of its result; both leave a string without quote
    and escape characters unchanged. *)
Theorem Interpret_sublist (s : std_string) :
  Interpret s `sublist_of` s
  /\ s `sublist_of` Uninterpret s
  /\ (quote ∉ s -> escape ∉ s -> Interpret s = s /\ Uninterpret s = s).
Proof.
  split; [ | split ].
  - unfold Interpret. case_bool_decide; [ subst; constructor | ].
    destruct (IsQuoted s); cbv beta iota zeta;
      match goal with
      | |- Interpret_loop ?body false false [] `sublist_of` _ =>
          destruct (Interpret_loop_sublist body false false []) as (r & -> & Hr)
      end;
      cbn [app]; (etransitivity; [ exact Hr | ]); unfold substr;
      (etransitivity; [ apply sublist_take | apply sublist_drop ]).
  - apply sublist_Uninterpret.
  - intros Hq He.
    assert (Hall : Forall (fun c => c <> quote /\ c <> escape) s).
    { apply Forall_forall. intros c Hc. split; intros ->; contradiction. }
    split; [ now apply Interpret_plain | now apply Uninterpret_plain ].
Qed.

Lemma passes_inside_quotes (sep : ascii) (u : std_string) :
  quote ∉ u -> escape ∉ u -> passes sep true u.
Proof.
  induction u as [| c u IH]; intros Hq He; [ apply passes_nil | ].
  apply not_elem_of_cons in Hq as [Hcq Hq]. apply not_elem_of_cons in He as [Hce He].
  apply (passes_app sep true [c] u); [ | now apply IH ].
  apply passes_char; [ congruence | congruence | ]. cbn [negb]. apply andb_false_r.
Qed.

(** X6. for a separator other than the quote and the escape character,
    SplitString undoes JoinString on a list of words when each word is
    either not empty and free of separators, quotes and escapes, or a text
    free of quotes and escapes, separators allowed, enclosed in quotes: a
    separator between quotes does not split. *)
Theorem SplitString_JoinString (ws : list std_string) (sep : ascii) :
  sep <> quote -> sep <> escape ->
  Forall (fun w => (w <> [] /\ (sep ∉ w) /\ (quote ∉ w) /\ (escape ∉ w))
                   \/ (exists u, w = Quote u /\ (quote ∉ u) /\ (escape ∉ u))) ws ->
  exists s, JoinString ws sep = Ok s /\ SplitString s sep = Ok ws.
Proof.
  intros Hq He Hws. exists (JoinString_loop sep ws true []). split.
  - unfold JoinString. apply Ascii.eqb_neq in Hq, He. now rewrite Hq, He.
  - assert (Htok : Forall (fun tok => tok <> [] /\ passes sep false tok) ws).
    { eapply Forall_impl; [ exact Hws | ]. cbv beta.
      intros w [(Hnil & Hs & Hwq & Hwe) | (u & -> & Huq & Hue)].
      - split; [ exact Hnil | ]. apply passes_Forall, Forall_forall.
        intros c Hc. repeat split; intros ->; contradiction.
      - split; [ discriminate | ]. apply passes_Quote; [ exact Hq | ].
        now apply passes_inside_quotes. }
    destruct ws as [| w ws]; [ reflexivity | ].
    apply Forall_cons in Htok as [[Hnil Hp] Htok].
    rewrite JoinString_loop_first, SplitString_from_start.
    rewrite SplitString_from_passes by exact Hp.
    rewrite <- (app_nil_r (concat _)).
    rewrite SplitString_from_tokens; [ | exact Htok | now left ].
    rewrite finish_word_absorb. cbn [app fst].
    now rewrite bool_decide_eq_false_2.
Qed.

Lemma SplitString_JoinString_witness :
  exists s, JoinString ["-mcpu=a53" : std_string; Quote "-mattr=a b"] " " = Ok s
            /\ SplitString s " " = Ok ["-mcpu=a53" : std_string; Quote "-mattr=a b"].
Proof.
  apply SplitString_JoinString; [ discriminate | discriminate | ].
  constructor; [ left | constructor; [ right; exists ("-mattr=a b" : std_string) | constructor ] ];
    repeat split; try discriminate;
    rewrite <- find_first_of_Some_elem; reflexivity.
Defined.

(** ** Further properties: values *)

(** X7. a value in canonical form for its schema has a non-empty text, and
    parsing that text for the schema gives the value back. *)
Theorem Stringify_ParseType_value {Reg : Registry}
    (FromString_rec : std_string -> Result TargetNode) (info : ValueTypeInfo) (v : Any) :
  Canonical.canonical_value info v = true ->
  exists text, Stringify_value v = Ok text /\ text <> []
    /\ ParseType_str FromString_rec info text = Ok v.
Proof.
  intros Hv.
  destruct (canonical_value_roundtrip FromString_rec (fun _ => OutOfFuel) info v Hv)
    as (Htext & Hnil & _ & _ & Hparse & _).
  exists (value_text v). auto.
Qed.

Lemma Stringify_ParseType_value_witness :
  let v := AArray [AStr "+neon"; AStr "it's"; AStr "a\b"] in
  exists text, @Stringify_value Demo.registry v = Ok text /\ text <> []
    /\ ParseType_str (fun _ => OutOfFuel) (Demo.array_of Demo.t_str) text = Ok v.
Proof.
  intros v.
  apply (@Stringify_ParseType_value Demo.registry (fun _ => OutOfFuel)
           (Demo.array_of Demo.t_str) v).
  vm_compute. reflexivity.
Defined.

(** The characters whose lower case is a letter of "true" or "false". *)
Lemma tolower_letter (c : ascii) :
  tolower c ∈ ("truefals" : std_string) ->
  c <> quote /\ c <> escape /\ isspace c = false /\ digit_value c = None
  /\ Ascii.eqb c "-" = false /\ Ascii.eqb c "+" = false.
Proof.
  intros Hin.
  assert (Hb : existsb (Ascii.eqb (tolower c)) ("truefals" : std_string) = true).
  { apply existsb_exists. exists (tolower c). split; [ now apply list_elem_of_In | ].
    apply Ascii.eqb_refl. }
  clear Hin. revert Hb.
  destruct c as [[] [] [] [] [] [] [] []]; vm_compute; intros Hb; try discriminate Hb;
    repeat split; discriminate.
Qed.

Lemma tolower_word (s : std_string) (w : std_string) :
  tolower <$> s = w -> Forall (fun c => c ∈ ("truefals" : std_string)) w -> w <> [] ->
  Interpret s = s /\ extract_int64 s = None.
Proof.
  intros Hs Hw Hnil.
  assert (Hall : Forall (fun c => tolower c ∈ ("truefals" : std_string)) s).
  { subst w. now apply Forall_fmap in Hw. }
  split.
  - apply Interpret_plain. eapply Forall_impl; [ exact Hall | ]. cbv beta.
    intros c Hc. apply tolower_letter in Hc. tauto.
  - destruct s as [| c s]; [ now subst w | ].
    apply Forall_cons in Hall as [Hc _]. apply tolower_letter in Hc
      as (_ & _ & Hsp & Hd & Hm & Hp).
    unfold extract_int64. cbn [skipws]. rewrite Hsp, Hm, Hp.
    cbn [extract_digits]. now rewrite Hd.
Qed.

(** X8. a string that reads true or false, in any mix of upper and lower case,
    parses as 1 or 0 for an integer option and as true or false for a boolean
    option. *)
Theorem ParseType_str_true_false
    (FromString_rec : std_string -> Result TargetNode)
    (tk : std_string) (key val : option ValueTypeInfo) (s : std_string) (b : bool) :
  tolower <$> s = (if b then "true" : std_string else "false" : std_string) ->
  ParseType_str FromString_rec (mkValueTypeInfo kTVMFFIInt tk key val) s
  = Ok (AInt (if b then 1 else 0))
  /\ ParseType_str FromString_rec (mkValueTypeInfo kTVMFFIBool tk key val) s = Ok (ABool b).
Proof.
  intros Hs.
  destruct (tolower_word s _ Hs) as [Hi Hx].
  { destruct b; repeat constructor;
      rewrite <- find_first_of_Some_elem; discriminate. }
  { destruct b; discriminate. }
  cbn [ParseType_str]. rewrite Hi, Hx, Hs.
  destruct b; split; reflexivity.
Qed.

Lemma ParseType_str_true_false_witness :
  ParseType_str (fun _ => OutOfFuel) Demo.t_int "TrUe" = Ok (AInt 1)
  /\ ParseType_str (fun _ => OutOfFuel) Demo.t_bool "TrUe" = Ok (ABool true).
Proof.
  apply (ParseType_str_true_false (fun _ => OutOfFuel) "int" None None "TrUe" true).
  reflexivity.
Defined.

(** ** Further properties: stripping spaces *)

Lemma find_first_not_of_repeat (c : ascii) (n : nat) :
  find_first_not_of c (repeat c n) = None.
Proof.
  induction n as [| n IH]; [ reflexivity | ].
  cbn [repeat find_first_not_of]. now rewrite Ascii.eqb_refl, IH.
Qed.

Lemma find_first_not_of_skip (c x : ascii) (n : nat) (t : std_string) :
  x <> c -> find_first_not_of c (repeat c n ++ x :: t) = Some n.
Proof.
  intros Hx. induction n as [| n IH]; cbn [repeat app find_first_not_of].
  - apply Ascii.eqb_neq in Hx. now rewrite Hx.
  - now rewrite Ascii.eqb_refl, IH.
Qed.

Lemma leading (c : ascii) (s : std_string) :
  (exists n, s = repeat c n)
  \/ (exists n x t, s = repeat c n ++ x :: t /\ x <> c).
Proof.
  induction s as [| y s IH]; [ left; now exists 0%nat | ].
  destruct (decide (y = c)) as [-> | Hy].
  - destruct IH as [[n ->] | (n & x & t & -> & Hx)].
    + left. now exists (S n).
    + right. now exists (S n), x, t.
  - right. now exists 0%nat, y, s.
Qed.

Lemma rev_repeat_char (c : ascii) (n : nat) : rev (repeat c n) = repeat c n.
Proof.
  induction n as [| n IH]; [ reflexivity | ].
  cbn [repeat rev]. rewrite IH. clear.
  induction n as [| n IH]; [ reflexivity | ]. cbn [repeat app]. now rewrite IH.
Qed.

Lemma trailing (c : ascii) (s : std_string) :
  (exists n, s = repeat c n)
  \/ (exists n x t, s = t ++ x :: repeat c n /\ x <> c).
Proof.
  destruct (leading c (rev s)) as [[n Hs] | (n & x & t & Hs & Hx)].
  - left. exists n. apply (f_equal (@rev ascii)) in Hs. rewrite rev_involutive in Hs.
    rewrite Hs. apply rev_repeat_char.
  - right. exists n, x, (rev t). split; [ | exact Hx ].
    apply (f_equal (@rev ascii)) in Hs. rewrite rev_involutive in Hs.
    rewrite Hs, rev_app_distr. cbn [rev]. rewrite <- app_assoc. cbn [app].
    now rewrite rev_repeat_char.
Qed.

(** A string is spaces only, or spaces, a middle part that neither starts nor
    ends with a space, and spaces. *)
Lemma strip_split (c : ascii) (s : std_string) :
  (exists n, s = repeat c n)
  \/ (exists a m b, s = repeat c a ++ m ++ repeat c b
        /\ m <> [] /\ m !! 0%nat <> Some c /\ last m <> Some c).
Proof.
  destruct (leading c s) as [Hs | (a & x & t & -> & Hx)]; [ now left | right ].
  destruct (trailing c (x :: t)) as [[n Hn] | (b & y & t' & Ht & Hy)].
  - destruct n; [ discriminate | ]. cbn in Hn. congruence.
  - exists a, (t' ++ [y]), b. rewrite Ht, <- !app_assoc. cbn [app].
    split; [ reflexivity | ]. split; [ now destruct t' | ]. split.
    + destruct t' as [| z t']; cbn in *; [ congruence | ].
      injection Ht as <- _. congruence.
    + rewrite last_snoc. congruence.
Qed.

Lemma strip_find (c : ascii) (a b : nat) (m : std_string) :
  m <> [] -> m !! 0%nat <> Some c -> last m <> Some c ->
  let s := repeat c a ++ m ++ repeat c b in
  find_first_not_of c s = Some a
  /\ find_last_not_of c s = Some (a + length m - 1)%nat.
Proof.
  intros Hnil Hhead Hlast s. split.
  - destruct m as [| x m]; [ congruence | ]. unfold s. cbn [app].
    apply find_first_not_of_skip. cbn in Hhead. congruence.
  - unfold find_last_not_of, s.
    destruct (last m) as [y |] eqn:Hy; [ | apply last_None in Hy; congruence ].
    apply last_Some in Hy as [m' ->].
    rewrite !rev_app_distr, !rev_repeat_char. cbn [rev app]. rewrite <- !app_assoc. cbn [app].
    rewrite find_first_not_of_skip by congruence. cbn [fmap option_fmap option_map].
    f_equal. repeat rewrite ?length_app, ?repeat_length, ?length_rev.
    cbn [length]. rewrite ?repeat_length. lia.
Qed.

(** X9. parsing a string for a string option never fails: the result is the
    interpreted string without the spaces at its two ends, and the empty
    string when there is nothing but spaces. *)
Theorem ParseType_str_strips
    (FromString_rec : std_string -> Result TargetNode)
    (tk : std_string) (key val : option ValueTypeInfo) (str : std_string) :
  exists (a b : nat) (r : std_string),
    ParseType_str FromString_rec (mkValueTypeInfo kTVMFFIStr tk key val) str = Ok (AStr r)
    /\ Interpret str = repeat " "%char a ++ r ++ repeat " "%char b
    /\ r !! 0%nat <> Some " "%char /\ last r <> Some " "%char.
Proof.
  cbn [ParseType_str].
  rewrite (bool_decide_eq_false_2 (kTVMFFIStr = kTVMFFIInt)) by discriminate.
  rewrite (bool_decide_eq_false_2 (kTVMFFIStr = kTVMFFIBool)) by discriminate.
  rewrite (bool_decide_eq_true_2 (kTVMFFIStr = kTVMFFIStr)) by reflexivity.
  cbn [orb]. cbv beta iota zeta.
  destruct (strip_split " " (Interpret str)) as [[n ->] | (a & m & b & -> & Hnil & Hh & Hl)].
  - exists n, 0%nat, []. rewrite find_first_not_of_repeat.
    repeat split; [ now rewrite app_nil_r | discriminate | discriminate ].
  - exists a, b, m.
    destruct (strip_find " " a b m Hnil Hh Hl) as [-> ->].
    repeat split; [ | exact Hh | exact Hl ].
    do 2 f_equal. unfold substr.
    rewrite drop_app_length' by (now rewrite repeat_length).
    replace (a + length m - 1 - a + 1)%nat with (length m)
      by (destruct m; [ congruence | cbn [length]; lia ]).
    apply take_app_length.
Qed.

(** ** Further properties: arrays *)

Lemma ParseType_array_Throw {X} (parse : X -> Result Any)
    (wrap : std_string -> std_string -> std_string) (items : list X) (result : list Any)
    (e : Error) :
  ParseType_array parse wrap items result = Throw e ->
  exists i x e0, items !! i = Some x /\ parse x = Throw e0
    /\ (forall j y, (j < i)%nat -> items !! j = Some y -> is_Ok (parse y) = true)
    /\ e = mkError (err_kind e0)
             (wrap (err_message e0) ("[" ++ to_string_size (length result + i) ++ "]")).
Proof.
  revert result. induction items as [| x items IH]; intros result; [ discriminate | ].
  cbn [ParseType_array]. destruct (parse x) as [p | e0 | msg |] eqn:Hx;
    cbn [try_catch mbind Result_bind]; try discriminate.
  - intros H. apply IH in H as (i & y & e0 & Hi & Hy & Hbefore & ->).
    exists (S i), y, e0. repeat split; [ exact Hi | exact Hy | | ].
    + intros [| j] z Hj Hz.
      * injection Hz as <-. now rewrite Hx.
      * apply (Hbefore j); [ lia | exact Hz ].
    + rewrite length_app. cbn [length].
      now replace (length result + 1 + i)%nat with (length result + S i)%nat by lia.
  - intros [= <-]. exists 0%nat, x, e0. repeat split; [ exact Hx | | ].
    + intros j y Hj. lia.
    + now rewrite Nat.add_0_r.
Qed.



(** ** Further properties: parsing a parsed value *)

Lemma ValueTypeInfo_induction (P : ValueTypeInfo -> Prop) :
  (forall ti tk key val,
     (forall k, key = Some k -> P k) -> P (mkValueTypeInfo ti tk key val)) ->
  forall info, P info.
Proof.
  intros H. fix IH 1. intros [ti tk key val]. apply H.
  destruct key as [k |]; intros k' Hk; [ | discriminate ].
  injection Hk as <-. apply IH.
Qed.

Lemma ParseType_array_Ok {X} (parse : X -> Result Any)
    (wrap : std_string -> std_string -> std_string) (items : list X) (acc result : list Any) :
  ParseType_array parse wrap items acc = Ok result ->
  exists rs, result = acc ++ rs /\ Forall2 (fun x r => parse x = Ok r) items rs.
Proof.
  revert acc. induction items as [| x items IH]; intros acc.
  - intros [= <-]. exists []. split; [ now rewrite app_nil_r | constructor ].
  - cbn [ParseType_array]. destruct (parse x) as [p | e0 | msg |] eqn:Hx;
      cbn [try_catch mbind Result_bind]; try discriminate.
    intros H. apply IH in H as (rs & -> & Hrs).
    exists (p :: rs). split; [ now rewrite <- app_assoc | now constructor ].
Qed.

Lemma ParseType_array_fixed (parse : Any -> Result Any)
    (wrap : std_string -> std_string -> std_string) (rs acc : list Any) :
  Forall (fun r => parse r = Ok r) rs ->
  ParseType_array parse wrap rs acc = Ok (acc ++ rs).
Proof.
  intros Hrs. revert acc. induction Hrs as [| r rs Hr _ IH]; intros acc.
  - cbn. now rewrite app_nil_r.
  - cbn [ParseType_array]. rewrite Hr. cbn [try_catch mbind Result_bind].
    rewrite IH. now rewrite <- app_assoc.
Qed.

Lemma fmap_Ok {A B} (f : A -> B) (m : Result A) (b : B) :
  f <$> m = Ok b -> exists a, m = Ok a /\ b = f a.
Proof. destruct m; try discriminate. intros [= <-]. eauto. Qed.

(** X11. for a schema without a map, a value that the object parser returns
    is returned unchanged when it is parsed again, whatever is used to build
    nested targets. *)
Theorem ParseType_obj_idempotent {Reg : Registry}
    (FromString_rec FromString_rec' : std_string -> Result TargetNode)
    (FromConfig_rec FromConfig_rec' : gmap std_string Any -> Result TargetNode)
    (info : ValueTypeInfo) (obj v : Any) :
  map_free info = true ->
  ParseType_obj FromString_rec FromConfig_rec info obj = Ok v ->
  ParseType_obj FromString_rec' FromConfig_rec' info v = Ok v.
Proof.
  revert obj v. induction info as [ti tk key val IH] using ValueTypeInfo_induction.
  intros obj v Hfree. cbn [map_free] in Hfree. cbn [ParseType_obj].
  destruct (decide (ti = kTVMFFIInt)) as [-> | Hint].
  { rewrite !(bool_decide_eq_true_2 (kTVMFFIInt = kTVMFFIInt)) by reflexivity.
    intros H. apply fmap_Ok in H as (z & _ & ->). reflexivity. }
  rewrite !(bool_decide_eq_false_2 (ti = kTVMFFIInt)) by exact Hint.
  destruct (decide (ti = kTVMFFIBool)) as [-> | Hbool].
  { rewrite !(bool_decide_eq_true_2 (kTVMFFIBool = kTVMFFIBool)) by reflexivity.
    intros H. apply fmap_Ok in H as (z & _ & ->). reflexivity. }
  rewrite !(bool_decide_eq_false_2 (ti = kTVMFFIBool)) by exact Hbool.
  destruct (decide (ti = kTVMFFIStr)) as [-> | Hstr].
  { rewrite !(bool_decide_eq_true_2 (kTVMFFIStr = kTVMFFIStr)) by reflexivity.
    intros H. apply fmap_Ok in H as (z & _ & ->). reflexivity. }
  rewrite !(bool_decide_eq_false_2 (ti = kTVMFFIStr)) by exact Hstr.
  destruct (decide (ti = kTargetIndex)) as [-> | Htarget].
  { rewrite !(bool_decide_eq_true_2 (kTargetIndex = kTargetIndex)) by reflexivity.
    intros H.
    assert (Hv : exists t, v = ATarget t).
    { destruct (as_Target obj) as [t |]; [ injection H as <-; eauto | ].
      destruct (try_cast_String obj) as [s |].
      - apply fmap_Ok in H as (t & _ & ->). eauto.
      - destruct (as_MapObj obj) as [ptr |]; [ | discriminate ].
        destruct (ParseType_dict ptr); try discriminate. cbn [mbind Result_bind] in H.
        apply fmap_Ok in H as (t & _ & ->). eauto. }
    destruct Hv as [t ->]. reflexivity. }
  rewrite !(bool_decide_eq_false_2 (ti = kTargetIndex)) by exact Htarget.
  destruct (decide (ti = kArrayIndex)) as [-> | Harray].
  { rewrite !(bool_decide_eq_true_2 (kArrayIndex = kArrayIndex)) by reflexivity.
    rewrite (bool_decide_eq_false_2 (kArrayIndex = kMapIndex)) in Hfree by discriminate.
    rewrite (bool_decide_eq_true_2 (kArrayIndex = kArrayIndex)) in Hfree by reflexivity.
    unfold ObjTypeCheck. destruct (as_ArrayObj obj) as [array |] eqn:Hobj;
      cbn [mbind Result_bind]; [ | discriminate ].
    destruct key as [key |]; [ | discriminate ].
    destruct (ParseType_array _ _ array []) as [r | e' | msg |] eqn:Hl;
      cbn [mbind Result_bind]; try discriminate.
    intros [= <-]. cbn [as_ArrayObj mbind Result_bind].
    apply ParseType_array_Ok in Hl as (rs & -> & Hrs). cbn [app].
    rewrite ParseType_array_fixed; [ reflexivity | ].
    clear Hobj. induction Hrs as [| x r array rs Hx _ IHrs]; constructor; [ | exact IHrs ].
    eapply (IH key eq_refl); [ exact Hfree | exact Hx ]. }
  rewrite !(bool_decide_eq_false_2 (ti = kArrayIndex)) by exact Harray.
  destruct (decide (ti = kMapIndex)) as [-> | Hmap].
  { rewrite (bool_decide_eq_true_2 (kMapIndex = kMapIndex)) in Hfree by reflexivity.
    discriminate. }
  rewrite !(bool_decide_eq_false_2 (ti = kMapIndex)) by exact Hmap.
  destruct (decide (ti = Any_type_index obj)) as [Hty | Hty].
  - rewrite (bool_decide_eq_true_2 _ Hty). cbn [negb]. intros [= <-].
    now rewrite (bool_decide_eq_true_2 _ Hty).
  - rewrite (bool_decide_eq_false_2 _ Hty). discriminate.
Qed.

Lemma ParseType_obj_idempotent_witness :
  @ParseType_obj Demo.registry (fun _ => OutOfFuel) (fun _ => OutOfFuel)
    (Demo.array_of Demo.t_target)
    (AArray [ATarget (mkTargetNode "llvm" None [] ["cpu" : std_string] ∅ ∅)])
  = Ok (AArray [ATarget (mkTargetNode "llvm" None [] ["cpu" : std_string] ∅ ∅)]).
Proof.
  apply (@ParseType_obj_idempotent Demo.registry
           (@TargetInternal_FromString Demo.registry 1) (fun _ => OutOfFuel)
           (@TargetInternal_FromConfig Demo.registry 1) (fun _ => OutOfFuel)
           (Demo.array_of Demo.t_target) (AArray [AStr "llvm"])).
  - reflexivity.
  - vm_compute. reflexivity.
Defined.

(** ** Further properties: Export *)

Lemma Export_unfold (kn : std_string) (h : option TargetNode) (tg : std_string)
    (ks : list std_string) (at_ ft : gmap std_string Any) :
  Export (mkTargetNode kn h tg ks at_ ft)
  = at_ ∪ (let result : gmap std_string Any :=
             <[kKind := AStr kn]> (<[kTag := AStr tg]> (<[kKeys := AArray (AStr <$> ks)]> ∅)) in
           match h with
           | Some h => <[kHost := Any_of_Map (Export h)]> result
           | None => result
           end).
Proof.
  cbn [Export]. rewrite foldl_insert_union by apply NoDup_fst_map_to_list.
  rewrite list_to_map_to_list. reflexivity.
Qed.

(** X12. the exported map holds every attribute of the target; under a name
    that no attribute has, it holds the kind, the tag and the keys, and the
    export of the host when there is one; it holds nothing else. An
    attribute named kind, tag, keys or host takes the place of the field. *)
Theorem Export_lookup (t : TargetNode) (key : std_string) :
  Export t !! key
  = match attrs t !! key with
    | Some v => Some v
    | None =>
        if bool_decide (key = kKind) then Some (AStr (kind t))
        else if bool_decide (key = kTag) then Some (AStr (tag t))
        else if bool_decide (key = kKeys) then Some (AArray (AStr <$> keys t))
        else if bool_decide (key = kHost) then (fun h => Any_of_Map (Export h)) <$> host t
        else None
    end.
Proof.
  destruct t as [kn h tg ks at_ ft]. rewrite Export_unfold. cbv zeta.
  cbn [attrs kind tag keys host]. rewrite lookup_union.
  destruct (at_ !! key) as [v |]; [ now rewrite union_Some_l | ].
  rewrite (left_id_L None union).
  destruct (decide (key = kKind)) as [-> | Hkind].
  { rewrite bool_decide_eq_true_2 by reflexivity.
    destruct h; rewrite ?(lookup_insert_ne _ kHost) by discriminate;
      now rewrite lookup_insert_eq. }
  rewrite (bool_decide_eq_false_2 _ Hkind).
  destruct (decide (key = kTag)) as [-> | Htag].
  { rewrite bool_decide_eq_true_2 by reflexivity.
    destruct h; rewrite ?(lookup_insert_ne _ kHost) by discriminate;
      rewrite lookup_insert_ne by discriminate; now rewrite lookup_insert_eq. }
  rewrite (bool_decide_eq_false_2 _ Htag).
  destruct (decide (key = kKeys)) as [-> | Hkeys].
  { rewrite bool_decide_eq_true_2 by reflexivity.
    destruct h; rewrite ?(lookup_insert_ne _ kHost) by discriminate;
      rewrite !lookup_insert_ne by discriminate; now rewrite lookup_insert_eq. }
  rewrite (bool_decide_eq_false_2 _ Hkeys).
  destruct (decide (key = kHost)) as [-> | Hhost].
  { rewrite bool_decide_eq_true_2 by reflexivity.
    destruct h; [ now rewrite lookup_insert_eq | ].
    now rewrite !lookup_insert_ne by discriminate. }
  rewrite (bool_decide_eq_false_2 _ Hhost).
  destruct h; rewrite ?(lookup_insert_ne _ kHost) by congruence;
    rewrite !lookup_insert_ne by congruence; apply lookup_empty.
Qed.

Lemma has_type_fixed {Reg : Registry}
    (FromString_rec : std_string -> Result TargetNode)
    (FromConfig_rec : gmap std_string Any -> Result TargetNode)
    (info : ValueTypeInfo) (v : Any) :
  has_type info v = true ->
  ParseType_obj FromString_rec FromConfig_rec info v = Ok v.
Proof.
  revert v. induction info as [ti tk key val IH] using ValueTypeInfo_induction.
  intros v Hv. cbn [has_type] in Hv.
  destruct ti, v; try discriminate; try reflexivity.
  destruct key as [key |]; [ | discriminate ].
  rewrite ParseType_obj_array, ParseType_array_fixed; [ reflexivity | ].
  apply Forall_forall. intros x Hx. apply (IH key eq_refl).
  rewrite forallb_forall in Hv. apply Hv. now apply list_elem_of_In.
Qed.

Lemma Map_of_MapObj_Any_of_Map (m : gmap std_string Any) :
  as_MapObj (Any_of_Map m) ≫= Map_of_MapObj = Some m.
Proof.
  unfold Any_of_Map. cbn [as_MapObj mbind option_bind].
  rewrite <- (list_to_map_to_list m) at 2.
  induction (map_to_list m) as [| [k v] l IH]; [ reflexivity | ].
  rewrite fmap_cons. cbn [Map_of_MapObj fst snd]. rewrite IH. reflexivity.
Qed.

Section ExportNode.
Context {Reg : Registry}.
Variable FromString_rec : std_string -> Result TargetNode.
Variable FromConfig_rec : gmap std_string Any -> Result TargetNode.
Variable knd : TargetKindNode.
Variables kn tg : std_string.
Variable h : option TargetNode.
Variable ks : list std_string.
Variable attrs0 : gmap std_string Any.

Hypothesis Hget : TargetKind_Get kn = Some knd.
Hypothesis Hpre : preprocessor knd = None.
Hypothesis Hpar : target_parser knd = None.
Hypothesis Hnodup : NoDup ks.
Hypothesis Hdevice : forall d, attrs0 !! kDeviceName = Some (AStr d) -> d ∈ ks.
Hypothesis Hattrs : forall key v, attrs0 !! key = Some v ->
  (key ∉ Canonical.reserved)
  /\ exists info, key2vtype_ knd !! key = Some info /\ has_type info v = true.
Hypothesis Hdefaults : forall key d, key2default_ knd !! key = Some d ->
  is_Some (attrs0 !! key).
Hypothesis Hhost : forall h', h = Some h' -> FromConfig_rec (Export h') = Ok h'.

Lemma exported_reserved (key : std_string) :
  key ∈ Canonical.reserved -> attrs0 !! key = None.
Proof.
  intros Hr. destruct (attrs0 !! key) as [v |] eqn:Hk; [ | reflexivity ].
  now destruct (Hattrs _ _ Hk) as [Hn _].
Qed.

Lemma FromConfig_attrs_typed (kvs : list (std_string * Any)) (acc : gmap std_string Any) :
  Forall (fun kv => exists info, key2vtype_ knd !! kv.1 = Some info
                      /\ has_type info kv.2 = true) kvs ->
  FromConfig_attrs FromString_rec FromConfig_rec knd kvs acc
  = Ok (foldl (fun c kv => <[kv.1 := kv.2]> c) acc kvs).
Proof.
  intros Hall. revert acc.
  induction Hall as [| [key v] kvs (info & Hinfo & Hv) _ IH]; intros acc; [ reflexivity | ].
  cbn [fst snd] in *. cbn [FromConfig_attrs foldl].
  unfold FindTypeInfo. rewrite Hinfo. cbn [mbind Result_bind].
  rewrite has_type_fixed by exact Hv. cbn [try_catch mbind Result_bind]. apply IH.
Qed.

Lemma FromConfig_Export_node :
  FromConfig FromString_rec FromConfig_rec (Export (mkTargetNode kn h tg ks attrs0 ∅))
  = Ok (mkTargetNode (name knd) h tg ks attrs0 ∅).
Proof.
  assert (Hkind : attrs0 !! kKind = None) by (apply exported_reserved; in_reserved).
  assert (Hkeys : attrs0 !! kKeys = None) by (apply exported_reserved; in_reserved).
  assert (Htag : attrs0 !! kTag = None) by (apply exported_reserved; in_reserved).
  assert (Hhst : attrs0 !! kHost = None) by (apply exported_reserved; in_reserved).
  assert (Hfeat : attrs0 !! kFeatures = None) by (apply exported_reserved; in_reserved).
  assert (Hfrom : attrs0 !! ("from_device" : std_string) = None)
    by (apply exported_reserved; in_reserved).
  rewrite Export_unfold. cbv zeta.
  set (hostins := fun m : gmap std_string Any =>
         match h with
         | Some h => <[kHost := Any_of_Map (Export h)]> m
         | None => m
         end).
  change (match h with
          | Some h0 => <[kHost := Any_of_Map (Export h0)]> ?m
          | None => ?m
          end) with (hostins m).
  assert (Hins_lookup : forall m key, key <> kHost -> hostins m !! key = m !! key).
  { intros m key Hne. unfold hostins. destruct h; [ | reflexivity ].
    now rewrite lookup_insert_ne by congruence. }
  assert (Hins_delete : forall m key, key <> kHost ->
            delete key (hostins m) = hostins (delete key m)).
  { intros m key Hne. unfold hostins. destruct h; [ | reflexivity ].
    now rewrite delete_insert_ne by congruence. }
  unfold FromConfig, count.
  (* features *)
  rewrite (lookup_union_r attrs0) by exact Hfeat.
  rewrite Hins_lookup by discriminate.
  rewrite !lookup_insert_ne, lookup_empty by discriminate.
  rewrite bool_decide_eq_false_2 by (intros [? ?]; discriminate).
  unfold ICHECK at 1. cbn [negb].
  (* kind *)
  rewrite (lookup_union_r attrs0) by exact Hkind.
  rewrite Hins_lookup by discriminate. rewrite lookup_insert_eq. cbn [try_cast_String].
  unfold GetTargetKind. rewrite Hget. cbn [mbind Result_bind].
  rewrite Hpre, Hpar.
  rewrite (bool_decide_eq_false_2 (is_Some None)) by (intros [? ?]; discriminate).
  unfold ICHECK at 1. cbn [negb andb mbind Result_bind].
  rewrite delete_union, (delete_id attrs0) by exact Hkind.
  rewrite Hins_delete by discriminate. rewrite delete_insert_eq.
  rewrite !delete_insert_ne, delete_empty by discriminate.
  (* tag *)
  rewrite (lookup_union_r attrs0) by exact Htag.
  rewrite Hins_lookup by discriminate. rewrite lookup_insert_eq. cbn [try_cast_String].
  cbn [mbind Result_bind].
  rewrite delete_union, (delete_id attrs0) by exact Htag.
  rewrite Hins_delete by discriminate. rewrite delete_insert_eq.
  rewrite !delete_insert_ne, delete_empty by discriminate.
  (* keys *)
  rewrite (lookup_union_r attrs0) by exact Hkeys.
  rewrite Hins_lookup by discriminate. rewrite lookup_insert_eq. cbn [as_ArrayObj].
  rewrite FromConfig_keys_words. cbn [mbind Result_bind app].
  rewrite bool_decide_eq_true_2 by eauto. cbn [negb].
  rewrite delete_union, (delete_id attrs0) by exact Hkeys.
  rewrite Hins_delete by discriminate. rewrite delete_insert_eq, delete_empty.
  (* device *)
  assert (Hdev_lookup : (attrs0 ∪ hostins (<[kKeys := AArray (AStr <$> ks)]> ∅)) !! kDeviceName
                        = attrs0 !! kDeviceName).
  { rewrite lookup_union. rewrite Hins_lookup by discriminate.
    rewrite lookup_insert_ne, lookup_empty by discriminate.
    now destruct (attrs0 !! kDeviceName). }
  rewrite Hdev_lookup.
  assert (Hks : DeduplicateKeys
                  match attrs0 !! kDeviceName ≫= try_cast_String with
                  | Some device => ks ++ [device]
                  | None => ks
                  end = ks).
  { rewrite DeduplicateKeys_dedup_first.
    destruct (attrs0 !! kDeviceName) as [[] |] eqn:Hd; cbn [mbind option_bind try_cast_String];
      try (now apply dedup_first_NoDup).
    apply dedup_first_snoc; [ exact Hnodup | now apply Hdevice ]. }
  rewrite Hks.
  (* host *)
  assert (Hloop : FromConfig_attrs FromString_rec FromConfig_rec knd (map_to_list attrs0) ∅
                  = Ok attrs0).
  { rewrite FromConfig_attrs_typed.
    - rewrite foldl_insert_union by apply NoDup_fst_map_to_list.
      now rewrite list_to_map_to_list, (right_id_L ∅ (∪)).
    - apply Forall_forall. intros [key v] Hkv. apply elem_of_map_to_list in Hkv.
      now apply Hattrs. }
  rewrite (lookup_union_r attrs0) by exact Hhst.
  assert (Hrest : (host_config ← (match hostins (∅ : gmap std_string Any) !! kHost with
           | Some v =>
               host ← ConstructorDispatcher FromString_rec FromConfig_rec [v];
               Ok (Some host, delete kHost (attrs0 ∪ hostins ∅))
           | None => Ok (None, attrs0 ∪ hostins ∅)
           end); Ok host_config) = Ok (h, attrs0)).
  { unfold hostins. destruct h as [h' |].
    - rewrite lookup_insert_eq. unfold ConstructorDispatcher.
      change (as_Target (Any_of_Map (Export h'))) with (@None TargetNode).
      change (try_cast_String (Any_of_Map (Export h'))) with (@None std_string).
      rewrite Map_of_MapObj_Any_of_Map. unfold Target_of_Map.
      rewrite (Hhost h' eq_refl). cbn [try_catch mbind Result_bind].
      rewrite delete_union, (delete_id attrs0) by exact Hhst.
      rewrite delete_insert_eq, delete_empty. now rewrite (right_id_L ∅ (∪)).
    - rewrite lookup_empty. cbn [mbind Result_bind]. now rewrite (right_id_L ∅ (∪)). }
  destruct (match hostins (∅ : gmap std_string Any) !! kHost with
            | Some v =>
                host ← ConstructorDispatcher FromString_rec FromConfig_rec [v];
                Ok (Some host, delete kHost (attrs0 ∪ hostins ∅))
            | None => Ok (None, attrs0 ∪ hostins ∅)
            end) as [[host1 config1] | | |]; try discriminate.
  injection Hrest as -> ->.
  cbn [mbind Result_bind]. rewrite Hloop. cbn [mbind Result_bind].
  rewrite Hfrom. cbn [mbind Result_bind]. rewrite Hpre. cbn [mbind Result_bind].
  now rewrite union_defaults by exact Hdefaults.
Qed.
End ExportNode.

Lemma exportable_spec {Reg : Registry} (t : TargetNode) :
  exportable t = true ->
  exists knd, TargetKind_Get (kind t) = Some knd
    /\ name knd = kind t
    /\ preprocessor knd = None /\ target_parser knd = None
    /\ features t = ∅
    /\ NoDup (keys t)
    /\ (forall d, attrs t !! kDeviceName = Some (AStr d) -> d ∈ keys t)
    /\ (forall key v, attrs t !! key = Some v ->
          (key ∉ Canonical.reserved)
          /\ exists info, key2vtype_ knd !! key = Some info /\ has_type info v = true)
    /\ (forall key d, key2default_ knd !! key = Some d -> is_Some (attrs t !! key))
    /\ (forall h, host t = Some h -> exportable h = true).
Proof.
  destruct t as [kn h tg ks at_ ft]. cbn [exportable kind host keys attrs features].
  destruct (TargetKind_Get kn) as [knd |]; [ | discriminate ].
  rewrite !andb_true_iff, !bool_decide_eq_true.
  intros [[[[[[[Hname Hhooks] Hfeat] Hnd] Hdev] Hattrs] Hdef] Hhost].
  exists knd. split; [ reflexivity | ]. split; [ exact Hname | ].
  destruct (preprocessor knd); [ discriminate | ].
  destruct (target_parser knd); [ discriminate | ].
  split; [ reflexivity | ]. split; [ reflexivity | ].
  split; [ now apply map_to_list_empty_iff | ]. split; [ exact Hnd | ]. split.
  { intros d Hd. rewrite Hd in Hdev. now apply bool_decide_eq_true in Hdev. }
  split.
  { intros key v Hkv. rewrite forallb_forall in Hattrs.
    specialize (Hattrs (key, v)). cbn [fst snd] in Hattrs.
    rewrite andb_true_iff, negb_true_iff in Hattrs.
    destruct Hattrs as [Hres Hval].
    { apply list_elem_of_In. now apply elem_of_map_to_list. }
    apply bool_decide_eq_false in Hres. split; [ exact Hres | ].
    destruct (key2vtype_ knd !! key) as [info |]; [ eauto | discriminate ]. }
  split.
  { intros key d Hkd. rewrite forallb_forall in Hdef.
    specialize (Hdef (key, d)). cbn [fst] in Hdef.
    eapply bool_decide_eq_true_1. apply Hdef.
    apply list_elem_of_In. now apply elem_of_map_to_list. }
  intros h' [= ->]. exact Hhost.
Qed.



(** ** Further properties: the attributes of an assembled target *)

Section AssembledAttrs.
Context {Reg : Registry}.
Variable FromString_rec : std_string -> Result TargetNode.
Variable FromConfig_rec : gmap std_string Any -> Result TargetNode.

Lemma FromConfig_attrs_Ok (knd : TargetKindNode) (kvs : list (std_string * Any))
    (acc parsed : gmap std_string Any) :
  FromConfig_attrs FromString_rec FromConfig_rec knd kvs acc = Ok parsed ->
  NoDup kvs.*1 ->
  (forall key v, (key, v) ∈ kvs ->
     exists info v', key2vtype_ knd !! key = Some info
       /\ ParseType_obj FromString_rec FromConfig_rec info v = Ok v'
       /\ parsed !! key = Some v')
  /\ (forall key, key ∉ kvs.*1 -> parsed !! key = acc !! key).
Proof.
  revert acc. induction kvs as [| [key value] kvs IH]; intros acc Hp Hnd.
  - injection Hp as <-. split; [ | reflexivity ].
    intros key v Hin. now apply elem_of_nil in Hin.
  - cbn [FromConfig_attrs] in Hp. rewrite fmap_cons in Hnd. cbn [fst] in Hnd.
    apply NoDup_cons in Hnd as [Hkey Hnd].
    apply bind_Ok in Hp as (p & Hparse & Hp).
    destruct (IH _ Hp Hnd) as [Hin Hout].
    assert (Hvalue : exists info, key2vtype_ knd !! key = Some info
              /\ ParseType_obj FromString_rec FromConfig_rec info value = Ok p).
    { unfold FindTypeInfo in Hparse.
      destruct (key2vtype_ knd !! key) as [info |]; [ | discriminate ].
      cbn [mbind Result_bind] in Hparse. exists info. split; [ reflexivity | ].
      destruct (ParseType_obj _ _ info value); try discriminate.
      now injection Hparse as ->. }
    split.
    + intros k v Hkv. apply elem_of_cons in Hkv as [[= -> ->] | Hkv].
      * destruct Hvalue as (info & Hinfo & Hval). exists info, p.
        split; [ exact Hinfo | ]. split; [ exact Hval | ].
        rewrite (Hout key Hkey). apply lookup_insert_eq.
      * now apply Hin.
    + intros k Hk. rewrite fmap_cons in Hk. cbn [fst] in Hk.
      apply not_elem_of_cons in Hk as [Hne Hk].
      rewrite (Hout k Hk). now apply lookup_insert_ne.
Qed.

(** What the attributes of an accepted config went through, for a kind
    without a parser hook: the entries left after [kind], [tag], [keys] and
    [host] are parsed, the device is queried when [from_device] is among
    them, and the defaults are added. *)
Lemma FromConfig_attrs_inv (config : gmap std_string Any) (t : TargetNode)
    (kn : std_string) (knd : TargetKindNode) :
  FromConfig FromString_rec FromConfig_rec config = Ok t ->
  config !! kKind = Some (AStr kn) -> TargetKind_Get kn = Some knd ->
  target_parser knd = None ->
  exists parsed queried,
    FromConfig_attrs FromString_rec FromConfig_rec knd
      (map_to_list (delete kHost (delete kKeys (delete kTag (delete kKind config))))) ∅
    = Ok parsed
    /\ match parsed !! ("from_device" : std_string) with
       | Some v =>
           exists device_id params, v = AInt device_id
             /\ QueryDevice (to_int32 device_id) knd = Ok params
             /\ queried = delete ("from_device" : std_string) parsed ∪ params
       | None => queried = parsed
       end
    /\ match preprocessor knd with
       | Some pre => pre (queried ∪ key2default_ knd) = Ok (attrs t)
       | None => attrs t = queried ∪ key2default_ knd
       end.
Proof.
  intros X Hk Hreg Hpar. unfold FromConfig in X.
  apply ICHECK_Ok in X as [Hf X].
  apply bind_Ok in X as ([[kind feats] config1] & Hkind & X).
  apply bind_Ok in X as ([tg config2] & Htag & X).
  apply bind_Ok in X as (ks & Hkeys & X).
  apply bind_Ok in X as ([hst config3] & Hhost & X).
  apply bind_Ok in X as (at1 & Hat1 & X).
  apply bind_Ok in X as (at2 & Hat2 & X).
  apply bind_Ok in X as (at3 & Hat3 & X).
  injection X as <-.
  rewrite Hk in Hkind. cbn [try_cast_String] in Hkind.
  unfold GetTargetKind in Hkind. rewrite Hreg in Hkind. cbn [mbind Result_bind] in Hkind.
  apply ICHECK_Ok in Hkind as [_ Hkind]. rewrite Hpar in Hkind.
  cbn [mbind Result_bind] in Hkind. injection Hkind as <- <- <-.
  assert (Hc2 : config2 = delete kTag (delete kKind config)).
  { destruct (delete kKind config !! kTag) as [v |] eqn:Ht.
    - destruct (try_cast_String v); [ | discriminate ]. now injection Htag as _ <-.
    - injection Htag as _ <-. symmetry. now apply delete_id. }
  assert (Hc3 : config3 = delete kHost (delete kKeys config2)).
  { destruct (delete kKeys config2 !! kHost) as [v |] eqn:Hh.
    - apply bind_Ok in Hhost as (hst' & _ & Hhost). now injection Hhost as _ <-.
    - injection Hhost as _ <-. symmetry. now apply delete_id. }
  subst config2 config3.
  exists at1, at2. split; [ exact Hat1 | ]. split.
  - destruct (at1 !! ("from_device" : std_string)) as [v |]; [ | now injection Hat2 ].
    destruct v as [| | device_id | | | |]; cbn [try_cast_int64] in Hat2; try discriminate.
    apply bind_Ok in Hat2 as (params & Hq & Hat2). injection Hat2 as <-.
    exists device_id, params. auto.
  - cbn [attrs]. destruct (preprocessor knd); [ exact Hat3 | now injection Hat3 ].
Qed.

Lemma rest_lookup (config : gmap std_string Any) (key : std_string) :
  delete kHost (delete kKeys (delete kTag (delete kKind config))) !! key
  = if bool_decide (key ∈ [kKind; kTag; kKeys; kHost]) then None else config !! key.
Proof.
  case_bool_decide as Hin.
  - repeat (apply elem_of_cons in Hin as [-> | Hin]);
      [ .. | now apply elem_of_nil in Hin ];
      rewrite ?(lookup_delete_ne _ kHost), ?(lookup_delete_ne _ kKeys),
        ?(lookup_delete_ne _ kTag) by discriminate;
      apply lookup_delete_eq.
  - rewrite !lookup_delete_ne; [ reflexivity | .. ]; intros <-; apply Hin;
      repeat first [ apply list_elem_of_here | apply list_elem_of_further ].
Qed.

Lemma QueryDevice_lookup (device_id : Z) (knd : TargetKindNode)
    (params : gmap std_string Any) :
  QueryDevice device_id knd = Ok params ->
  DeviceAPI_Get (default_device_type knd) device_id = None /\ params = ∅
  \/ exists api, DeviceAPI_Get (default_device_type knd) device_id = Some api
       /\ GetAttr_kExist api = true
       /\ forall key, params !! key
            = (fun _ => GetTargetProperty api key) <$> key2vtype_ knd !! key.
Proof.
  unfold QueryDevice. destruct (DeviceAPI_Get _ device_id) as [api |]; [ | intros [= <-]; now left ].
  intros H. apply ICHECK_Ok in H as [Hexist H]. injection H as <-. right.
  exists api. split; [ reflexivity | ]. split; [ exact Hexist | ].
  intros key. rewrite map_lookup_imap. now destruct (key2vtype_ knd !! key).
Qed.
End AssembledAttrs.

(** X14. in a target assembled for a kind without hooks, an attribute of the
    config other than kind, tag, keys, host and from_device has a schema in the
    kind and is the parsed value of the config: neither the device nor a
    default replaces it. *)
Theorem FromConfig_user_attrs {Reg : Registry}
    (FromString_rec : std_string -> Result TargetNode)
    (FromConfig_rec : gmap std_string Any -> Result TargetNode)
    (config : gmap std_string Any) (t : TargetNode) (kn : std_string) (knd : TargetKindNode)
    (key : std_string) (v : Any) :
  FromConfig FromString_rec FromConfig_rec config = Ok t ->
  config !! kKind = Some (AStr kn) -> TargetKind_Get kn = Some knd ->
  target_parser knd = None -> preprocessor knd = None ->
  config !! key = Some v ->
  key ∉ [kKind; kTag; kKeys; kHost; "from_device" : std_string] ->
  exists info v', key2vtype_ knd !! key = Some info
    /\ ParseType_obj FromString_rec FromConfig_rec info v = Ok v'
    /\ attrs t !! key = Some v'.
Proof.
  intros X Hk Hreg Hpar Hpre Hkey Hnot.
  destruct (FromConfig_attrs_inv _ _ _ _ _ _ X Hk Hreg Hpar)
    as (parsed & queried & Hparsed & Hq & Hat).
  rewrite Hpre in Hat.
  apply FromConfig_attrs_Ok in Hparsed as [Hin _]; [ | apply NoDup_fst_map_to_list ].
  destruct (Hin key v) as (info & v' & Hinfo & Hv & Hp).
  { apply elem_of_map_to_list. rewrite rest_lookup, bool_decide_eq_false_2; [ exact Hkey | ].
    intros Hr. apply Hnot.
    repeat (apply elem_of_cons in Hr as [-> | Hr]); [ .. | now apply elem_of_nil in Hr ];
      repeat first [ apply list_elem_of_here | apply list_elem_of_further ]. }
  exists info, v'. split; [ exact Hinfo | ]. split; [ exact Hv | ].
  rewrite Hat. apply lookup_union_Some_l.
  destruct (parsed !! ("from_device" : std_string)) as [d |].
  - destruct Hq as (device_id & params & _ & _ & ->).
    apply lookup_union_Some_l. rewrite lookup_delete_ne; [ exact Hp | ].
    intros <-. apply Hnot.
    repeat first [ apply list_elem_of_here | apply list_elem_of_further ].
  - now subst queried.
Qed.

Lemma FromConfig_user_attrs_witness :
  let config : gmap std_string Any :=
    list_to_map [(kKind, AStr "cuda"); ("from_device" : std_string, AInt 0);
                 ("arch" : std_string, AStr "sm_75");
                 ("max_num_threads" : std_string, AInt 256)] in
  let t := mkTargetNode "cuda" None [] ["cuda" : std_string; "gpu" : std_string]
             (list_to_map [("arch" : std_string, AStr "sm_75");
                           ("max_num_threads" : std_string, AInt 256);
                           ("keys" : std_string, ANone); ("tag" : std_string, ANone);
                           ("device" : std_string, ANone); ("host" : std_string, ANone);
                           ("from_device" : std_string, ANone)]) ∅ in
  @TargetInternal_FromConfig DeviceDemo.registry 1 config = Ok t
  /\ exists info v',
       key2vtype_ DeviceDemo.cuda !! ("arch" : std_string) = Some info
       /\ @ParseType_obj DeviceDemo.registry (fun _ => OutOfFuel) (fun _ => OutOfFuel) info
            (AStr "sm_75") = Ok v'
       /\ attrs t !! ("arch" : std_string) = Some v'.
Proof.
  intros config t. split; [ vm_compute; reflexivity | ].
  apply (@FromConfig_user_attrs DeviceDemo.registry (fun _ => OutOfFuel)
           (fun _ => OutOfFuel) config t "cuda" DeviceDemo.cuda "arch" (AStr "sm_75"));
    try (vm_compute; reflexivity).
  rewrite !not_elem_of_cons. repeat split; try discriminate. apply not_elem_of_nil.
Defined.

Lemma rest_None (config : gmap std_string Any) (key : std_string) :
  config !! key = None ->
  delete kHost (delete kKeys (delete kTag (delete kKind config))) !! key = None.
Proof. intros Hk. rewrite rest_lookup. now case_bool_decide. Qed.

Lemma FromConfig_attrs_None {Reg : Registry}
    (FromString_rec : std_string -> Result TargetNode)
    (FromConfig_rec : gmap std_string Any -> Result TargetNode)
    (knd : TargetKindNode) (rest parsed : gmap std_string Any) (key : std_string) :
  FromConfig_attrs FromString_rec FromConfig_rec knd (map_to_list rest) ∅ = Ok parsed ->
  rest !! key = None -> parsed !! key = None.
Proof.
  intros Hp Hk. apply FromConfig_attrs_Ok in Hp as [_ Hout]; [ | apply NoDup_fst_map_to_list ].
  rewrite Hout; [ apply lookup_empty | ].
  intros Hin. apply list_elem_of_fmap in Hin as ([k v] & -> & Hkv).
  apply elem_of_map_to_list in Hkv. cbn [fst] in Hk. congruence.
Qed.

(** X15. in a target assembled for a kind without hooks, every default of the
    kind is an attribute; the attribute is the default itself when the config
    has no entry of that name and does not ask for the device. *)
Theorem FromConfig_defaults {Reg : Registry}
    (FromString_rec : std_string -> Result TargetNode)
    (FromConfig_rec : gmap std_string Any -> Result TargetNode)
    (config : gmap std_string Any) (t : TargetNode) (kn : std_string) (knd : TargetKindNode)
    (key : std_string) (d : Any) :
  FromConfig FromString_rec FromConfig_rec config = Ok t ->
  config !! kKind = Some (AStr kn) -> TargetKind_Get kn = Some knd ->
  target_parser knd = None -> preprocessor knd = None ->
  key2default_ knd !! key = Some d ->
  is_Some (attrs t !! key)
  /\ (config !! key = None -> config !! ("from_device" : std_string) = None ->
      attrs t !! key = Some d).
Proof.
  intros X Hk Hreg Hpar Hpre Hd.
  destruct (FromConfig_attrs_inv _ _ _ _ _ _ X Hk Hreg Hpar)
    as (parsed & queried & Hparsed & Hq & Hat).
  rewrite Hpre in Hat. rewrite Hat. split.
  - apply lookup_union_is_Some. right. eauto.
  - intros Hkey Hfrom.
    rewrite (FromConfig_attrs_None _ _ _ _ _ _ Hparsed (rest_None _ _ Hfrom)) in Hq.
    subst queried. apply lookup_union_Some_raw. right. split; [ | exact Hd ].
    exact (FromConfig_attrs_None _ _ _ _ _ _ Hparsed (rest_None _ _ Hkey)).
Qed.

Lemma FromConfig_defaults_witness :
  let config : gmap std_string Any :=
    list_to_map [(kKind, AStr "cuda"); ("arch" : std_string, AStr "sm_75")] in
  let t := mkTargetNode "cuda" None [] ["cuda" : std_string; "gpu" : std_string]
             (list_to_map [("arch" : std_string, AStr "sm_75");
                           ("max_num_threads" : std_string, AInt 1024)]) ∅ in
  @TargetInternal_FromConfig DeviceDemo.registry 1 config = Ok t
  /\ is_Some (attrs t !! ("max_num_threads" : std_string))
  /\ attrs t !! ("max_num_threads" : std_string) = Some (AInt 1024).
Proof.
  intros config t. split; [ vm_compute; reflexivity | ].
  destruct (@FromConfig_defaults DeviceDemo.registry (fun _ => OutOfFuel)
              (fun _ => OutOfFuel) config t "cuda" DeviceDemo.cuda "max_num_threads"
              (AInt 1024))
    as [Hsome Hd]; try (vm_compute; reflexivity).
  split; [ exact Hsome | ]. apply Hd; vm_compute; reflexivity.
Defined.



(** X17. in a target assembled for a kind without hooks, every attribute is
    declared by the kind: it has a schema or a default. *)
Theorem FromConfig_attrs_declared {Reg : Registry}
    (FromString_rec : std_string -> Result TargetNode)
    (FromConfig_rec : gmap std_string Any -> Result TargetNode)
    (config : gmap std_string Any) (t : TargetNode) (kn : std_string) (knd : TargetKindNode)
    (key : std_string) :
  FromConfig FromString_rec FromConfig_rec config = Ok t ->
  config !! kKind = Some (AStr kn) -> TargetKind_Get kn = Some knd ->
  target_parser knd = None -> preprocessor knd = None ->
  is_Some (attrs t !! key) ->
  is_Some (key2vtype_ knd !! key) \/ is_Some (key2default_ knd !! key).
Proof.
  intros X Hk Hreg Hpar Hpre Hkey.
  destruct (FromConfig_attrs_inv _ _ _ _ _ _ X Hk Hreg Hpar)
    as (parsed & queried & Hparsed & Hq & Hat).
  rewrite Hpre in Hat. rewrite Hat in Hkey.
  apply lookup_union_is_Some in Hkey as [Hkey | Hkey]; [ left | now right ].
  assert (Hdecl : is_Some (parsed !! key) -> is_Some (key2vtype_ knd !! key)).
  { intros [v' Hv']. pose proof Hparsed as Hp.
    apply FromConfig_attrs_Ok in Hp as [Hin _]; [ | apply NoDup_fst_map_to_list ].
    set (rest := delete kHost (delete kKeys (delete kTag (delete kKind config)))) in *.
    destruct (rest !! key) as [v |] eqn:Hr.
    - apply elem_of_map_to_list in Hr. destruct (Hin _ _ Hr) as (info & _ & -> & _). eauto.
    - rewrite (FromConfig_attrs_None _ _ _ _ _ _ Hparsed Hr) in Hv'. discriminate. }
  destruct (parsed !! ("from_device" : std_string)) as [d |].
  - destruct Hq as (device_id & params & _ & Hquery & ->).
    apply lookup_union_is_Some in Hkey as [Hkey | Hkey].
    + apply Hdecl. destruct Hkey as [v' Hv'].
      apply lookup_delete_Some in Hv' as [_ Hv']. eauto.
    + apply QueryDevice_lookup in Hquery as [[_ ->] | (api & _ & _ & Hparams)].
      * destruct Hkey as [? Hkey]. now rewrite lookup_empty in Hkey.
      * rewrite Hparams in Hkey. destruct (key2vtype_ knd !! key); [ eauto | ].
        destruct Hkey as [? Hkey]. discriminate.
  - subst queried. now apply Hdecl.
Qed.

Lemma FromConfig_attrs_declared_witness :
  let config : gmap std_string Any :=
    list_to_map [(kKind, AStr "cuda"); ("arch" : std_string, AStr "sm_75")] in
  let t := mkTargetNode "cuda" None [] ["cuda" : std_string; "gpu" : std_string]
             (list_to_map [("arch" : std_string, AStr "sm_75");
                           ("max_num_threads" : std_string, AInt 1024)]) ∅ in
  @TargetInternal_FromConfig DeviceDemo.registry 1 config = Ok t
  /\ (is_Some (key2vtype_ DeviceDemo.cuda !! ("arch" : std_string))
      \/ is_Some (key2default_ DeviceDemo.cuda !! ("arch" : std_string))).
Proof.
  intros config t. split; [ vm_compute; reflexivity | ].
  apply (@FromConfig_attrs_declared DeviceDemo.registry (fun _ => OutOfFuel)
           (fun _ => OutOfFuel) config t "cuda" DeviceDemo.cuda "arch");
    try (vm_compute; reflexivity).
  eexists. vm_compute. reflexivity.
Defined.

(** ** Further properties: the keys of an assembled target *)

Lemma HasKey_elem_of (t : TargetNode) (query_key : std_string) :
  HasKey t query_key = true <-> query_key ∈ keys t.
Proof.
  unfold HasKey. rewrite existsb_exists. split.
  - intros (key & Hin & Heq). apply bool_decide_eq_true in Heq. subst.
    now apply list_elem_of_In.
  - intros Hin. exists query_key. split; [ now apply list_elem_of_In | ].
    now apply bool_decide_eq_true.
Qed.

Lemma FromConfig_keys_NoDup_body {Reg : Registry}
    (FromString_rec : std_string -> Result TargetNode)
    (FromConfig_rec : gmap std_string Any -> Result TargetNode)
    (config : gmap std_string Any) (t : TargetNode) :
  FromConfig FromString_rec FromConfig_rec config = Ok t -> NoDup (keys t).
Proof.
  intros X. apply FromConfig_inv in X
    as (_ & kind_name & knd & config1 & _ & _ & _ & _ & _ & Hkeys).
  cbv zeta in Hkeys. destruct (config1 !! kKeys).
  - destruct Hkeys as (explicit_keys & _ & ->).
    rewrite DeduplicateKeys_dedup_first. apply dedup_first_NoDup_result.
  - rewrite Hkeys, DeduplicateKeys_dedup_first. apply dedup_first_NoDup_result.
Qed.

(** X18. a target built by the config assembler has no duplicate among its
    keys, and so has a target parsed from a string that is not the name of a
    registered tag. *)
Theorem FromConfig_keys_NoDup {Reg : Registry} (fuel : nat) (t : TargetNode) :
  (forall config, TargetInternal_FromConfig fuel config = Ok t -> NoDup (keys t))
  /\ (forall s, TargetTag_Get s = None -> TargetInternal_FromString fuel s = Ok t ->
        NoDup (keys t)).
Proof.
  destruct fuel as [| fuel]; [ split; intros; discriminate | ].
  cbn [TargetInternal_FromConfig TargetInternal_FromString]. split.
  - intros config. apply FromConfig_keys_NoDup_body.
  - intros s Htag. unfold FromString. rewrite Htag.
    destruct (negb (bool_decide (s = [])) && bool_decide (s !! 0%nat = Some "{"%char)).
    + unfold FromConfigString. destruct load_config_dict as [loader |]; [ | discriminate ].
      intros X. apply bind_Ok in X as ([config |] & _ & X); [ | discriminate ].
      revert X. apply FromConfig_keys_NoDup_body.
    + unfold FromRawString. intros X. apply ICHECK_Ok in X as [_ X].
      apply bind_Ok in X as ([| name options] & _ & X); [ discriminate | ].
      apply bind_Ok in X as (knd & _ & X). apply bind_Ok in X as (config & _ & X).
      revert X. apply FromConfig_keys_NoDup_body.
Qed.

(** X19. the keys of a target assembled for a kind without a parser hook are
    the device of the config and, besides, the keys of the config when it has
    a keys entry and the default keys of the kind when it has none. *)
Theorem FromConfig_HasKey {Reg : Registry}
    (FromString_rec : std_string -> Result TargetNode)
    (FromConfig_rec : gmap std_string Any -> Result TargetNode)
    (config : gmap std_string Any) (t : TargetNode) (kn : std_string) (knd : TargetKindNode)
    (query_key : std_string) :
  FromConfig FromString_rec FromConfig_rec config = Ok t ->
  config !! kKind = Some (AStr kn) -> TargetKind_Get kn = Some knd ->
  target_parser knd = None ->
  (HasKey t query_key = true
   <-> config !! kDeviceName = Some (AStr query_key)
       \/ match config !! kKeys with
          | Some v => exists l, as_ArrayObj v = Some l /\ AStr query_key ∈ l
          | None => query_key ∈ default_keys knd
          end).
Proof.
  intros X Hk Hreg Hpar. apply FromConfig_inv in X
    as (_ & kind_name & knd' & config1 & Hk' & Hreg' & Hp & _ & _ & Hkeys).
  rewrite Hk in Hk'. injection Hk' as <-. rewrite Hreg in Hreg'. injection Hreg' as <-.
  rewrite Hpar in Hp. subst config1. cbv zeta in Hkeys.
  rewrite HasKey_elem_of.
  assert (Hdev : query_key ∈ option_list (config !! kDeviceName ≫= try_cast_String)
                 <-> config !! kDeviceName = Some (AStr query_key)).
  { destruct (config !! kDeviceName) as [[] |]; cbn;
      rewrite ?elem_of_nil, ?list_elem_of_singleton; split; try tauto; try discriminate;
      congruence. }
  destruct (config !! kKeys) as [v |].
  - destruct Hkeys as (explicit_keys & -> & ->).
    rewrite DeduplicateKeys_dedup_first, dedup_first_elem_of, elem_of_app, Hdev.
    cbn [as_ArrayObj]. split.
    + intros [He | Hd]; [ right | now left ].
      eexists. split; [ reflexivity | ]. apply list_elem_of_fmap. eauto.
    + intros [Hd | (l & [= <-] & He)]; [ now right | left ].
      apply list_elem_of_fmap in He as (k & [= ->] & He). exact He.
  - rewrite Hkeys, DeduplicateKeys_dedup_first, dedup_first_elem_of, elem_of_app, Hdev.
    tauto.
Qed.

Lemma FromConfig_HasKey_witness :
  let t := mkTargetNode "llvm" None [] ["cpu" : std_string; "arm" : std_string] 
             {[ kDeviceName := AStr "arm" ]} ∅ in
  @TargetInternal_FromConfig Demo.registry 1 example_config = Ok t
  /\ (HasKey t "arm" = true
      <-> example_config !! kDeviceName = Some (AStr "arm")
          \/ match example_config !! kKeys with
             | Some v => exists l, as_ArrayObj v = Some l /\ AStr "arm" ∈ l
             | None => ("arm" : std_string) ∈ default_keys Demo.llvm
             end).
Proof.
  intros t. split; [ vm_compute; reflexivity | ].
  apply (@FromConfig_HasKey Demo.registry (fun _ => OutOfFuel) (fun _ => OutOfFuel)
           example_config t "llvm" Demo.llvm "arm"); vm_compute; reflexivity.
Defined.

(** ** Further properties: the kind of a target *)



(** ** Further properties: the options of a raw string *)

Section RawOptions.
Context {Reg : Registry}.
Variable FromString_rec : std_string -> Result TargetNode.

Lemma FromRawString_loop_extends (target_str : std_string) (knd : TargetKindNode) (n : nat) :
  forall (options : list std_string) (config config' : gmap std_string Any),
    (length options <= n)%nat ->
    FromRawString_loop FromString_rec target_str knd options config = Ok config' ->
    config ⊆ config'
    /\ (forall key, is_Some (config' !! key) ->
          is_Some (config !! key) \/ is_Some (key2vtype_ knd !! key)).
Proof.
  induction n as [| n IH]; intros options config config' Hlen.
  - destruct options; [ | cbn in Hlen; lia ]. intros [= <-]. split; [ reflexivity | tauto ].
  - destruct options as [| option options1]; [ intros [= <-]; split; [ reflexivity | tauto ] | ].
    cbn [FromRawString_loop]. intros X.
    apply bind_Ok in X as ([[m key] value] & _ & X).
    apply bind_Ok in X as (config1 & Hstep & X).
    assert (Hone : config ⊆ config1
                   /\ (forall k, is_Some (config1 !! k) ->
                         is_Some (config !! k) \/ is_Some (key2vtype_ knd !! k))).
    { unfold count in Hstep. case_bool_decide as Hc; [ discriminate | ].
      unfold FindTypeInfo in Hstep.
      destruct (key2vtype_ knd !! key) as [info |] eqn:Hinfo; [ | discriminate ].
      cbn [mbind Result_bind] in Hstep.
      destruct (ParseType_str FromString_rec info value) as [parsed | | |]; try discriminate.
      injection Hstep as <-. split.
      - apply insert_subseteq. now apply eq_None_not_Some.
      - intros k. destruct (decide (k = key)) as [-> | Hne].
        + right. eauto.
        + rewrite lookup_insert_ne by congruence. tauto. }
    destruct Hone as [Hsub Hdecl].
    assert (Hrest : forall rest, (length rest <= n)%nat ->
              FromRawString_loop FromString_rec target_str knd rest config1 = Ok config' ->
              config ⊆ config'
              /\ (forall k, is_Some (config' !! k) ->
                    is_Some (config !! k) \/ is_Some (key2vtype_ knd !! k))).
    { intros rest Hr Hloop. destruct (IH _ _ _ Hr Hloop) as [Hsub' Hdecl'].
      split; [ now transitivity config1 | ].
      intros k Hk. destruct (Hdecl' k Hk) as [H1 | H2]; [ now apply Hdecl | now right ]. }
    cbn [length] in Hlen.
    destruct m as [| [| [| m]]]; cbv beta iota in X;
      try (apply (Hrest options1); [ lia | exact X ]).
    destruct options1 as [| o options2].
    + injection X as <-. now split.
    + apply (Hrest options2); [ cbn [length] in Hlen; lia | exact X ].
Qed.
End RawOptions.

(** X21. the loop over the options of a raw string never overwrites an entry:
    an accepted run extends the config it starts from, every entry it adds is
    under a name that has a schema in the kind, and an option whose key is
    already in the config ends the run with a ValueError. *)
Theorem FromRawString_loop_never_overwrites {Reg : Registry}
    (FromString_rec : std_string -> Result TargetNode)
    (target_str : std_string) (knd : TargetKindNode)
    (options : list std_string) (config : gmap std_string Any) :
  (forall config',
     FromRawString_loop FromString_rec target_str knd options config = Ok config' ->
     config ⊆ config'
     /\ (forall key, is_Some (config' !! key) ->
           is_Some (config !! key) \/ is_Some (key2vtype_ knd !! key)))
  /\ (forall option rest s n key value,
        options = option :: rest ->
        RemovePrefixDashes option = Ok s ->
        ParseKVPair s (hd [] rest) = Ok (n, key, value) ->
        is_Some (config !! key) ->
        FromRawString_loop FromString_rec target_str knd options config
        = Throw (mkError "ValueError"
                   (("The key " ++ [dquote] ++ key ++ [dquote] ++ " appears more than once")
                    ++ ", during parsing target[" ++ [dquote] ++ key ++ [dquote] ++ "]"))).
Proof.
  split.
  - intros config'. now apply (FromRawString_loop_extends _ _ _ (length options)).
  - intros option rest s n key value -> Hs Hkv Hin.
    cbn [FromRawString_loop].
    replace (match rest with s0 :: _ => s0 | [] => [] end) with (hd [] rest)
      by (now destruct rest).
    rewrite Hs. cbn [mbind Result_bind]. rewrite Hkv. cbn [try_catch mbind Result_bind].
    unfold count. now rewrite bool_decide_eq_true_2 by exact Hin.
Qed.

Lemma FromRawString_loop_never_overwrites_witness :
  FromRawString_loop (fun _ => OutOfFuel) "llvm -kind=llvm" Demo.llvm
    ["-kind=llvm" : std_string] {[ kKind := AStr "llvm" ]}
  = Throw (mkError "ValueError"
             (("The key " ++ [dquote] ++ "kind" ++ [dquote] ++ " appears more than once")
              ++ ", during parsing target[" ++ [dquote] ++ "kind" ++ [dquote] ++ "]")).
Proof.
  destruct (@FromRawString_loop_never_overwrites Demo.registry (fun _ => OutOfFuel)
              "llvm -kind=llvm" Demo.llvm ["-kind=llvm" : std_string]
              {[ kKind := AStr "llvm" ]}) as [_ Hdup].
  apply (Hdup "-kind=llvm" [] "kind=llvm" 1%nat "kind" "llvm");
    first [ reflexivity | vm_compute; reflexivity | vm_compute; eauto ].
Defined.

(** ** Further properties: what the stringifier can write *)

Section Stringifiable.
Context {Reg : Registry}.

Lemma StringifyAtomicType_atomic (v : Any) :
  if atomic v then exists s, StringifyAtomicType v = Ok s
  else exists msg, StringifyAtomicType v = Fatal msg.
Proof.
  destruct v; cbn [atomic StringifyAtomicType]; eauto.
  destruct (negb (bool_decide (find_first_of " " (Uninterpret s) = None))
            && negb (IsQuoted (Uninterpret s))); eauto.
Qed.

Lemma StringifyArray_loop_atomic (l : list Any) (elements : list std_string) :
  if forallb atomic l then exists r, StringifyArray_loop l elements = Ok r
  else exists msg, StringifyArray_loop l elements = Fatal msg.
Proof.
  revert elements. induction l as [| v l IH]; intros elements; [ cbn; eauto | ].
  cbn [forallb StringifyArray_loop].
  pose proof (StringifyAtomicType_atomic v) as Hv.
  destruct (atomic v); cbn [andb].
  - destruct Hv as [s ->]. cbn [mbind Result_bind]. apply IH.
  - destruct Hv as [msg ->]. cbn [mbind Result_bind]. eauto.
Qed.

Lemma JoinString_Ok (array : list std_string) (separator : ascii) :
  separator <> quote -> separator <> escape ->
  JoinString array separator = Ok (JoinString_loop separator array true []).
Proof.
  intros Hq He. unfold JoinString. apply Ascii.eqb_neq in Hq, He. now rewrite Hq, He.
Qed.

Lemma Stringify_value_stringifiable (v : Any) :
  v <> ANone ->
  if stringifiable v then exists s, Stringify_value v = Ok s
  else exists msg, Stringify_value v = Fatal msg.
Proof.
  intros Hv. unfold Stringify_value.
  destruct v; try congruence; cbn [as_ArrayObj stringifiable];
    try apply StringifyAtomicType_atomic.
  unfold StringifyArray. pose proof (StringifyArray_loop_atomic l []) as Hl.
  destruct (forallb atomic l).
  - destruct Hl as [r ->]. cbn [mbind Result_bind]. rewrite JoinString_Ok by discriminate.
    eauto.
  - destruct Hl as [msg ->]. cbn [mbind Result_bind]. eauto.
Qed.

Lemma StringifyAttrsToRaw_loop_step (attrs : gmap std_string Any) (key : std_string)
    (keys : list std_string) (result : list std_string) :
  StringifyAttrsToRaw_loop attrs (key :: keys) result
  = match attrs !! key with
    | None | Some ANone => StringifyAttrsToRaw_loop attrs keys result
    | Some obj =>
        value ← Stringify_value obj;
        StringifyAttrsToRaw_loop attrs keys
          (if negb (bool_decide (value = [])) then result ++ ["-" ++ key ++ "=" ++ value]
           else result)
    end.
Proof. cbn [StringifyAttrsToRaw_loop]. now destruct (attrs !! key) as [[] |]. Qed.

Lemma StringifyAttrsToRaw_loop_stringifiable (attrs : gmap std_string Any)
    (keys : list std_string) (result : list std_string) :
  if forallb (fun key => stringifiable (default ANone (attrs !! key))) keys
  then exists r, StringifyAttrsToRaw_loop attrs keys result = Ok r
  else exists msg, StringifyAttrsToRaw_loop attrs keys result = Fatal msg.
Proof.
  revert result. induction keys as [| key keys IH]; intros result; [ cbn; eauto | ].
  rewrite StringifyAttrsToRaw_loop_step. cbn [forallb].
  destruct (attrs !! key) as [v |]; cbn [from_option id]; [ | apply IH ].
  destruct v; [ apply IH | .. ];
    match goal with
    | |- context [Stringify_value ?v] =>
        pose proof (Stringify_value_stringifiable v ltac:(discriminate)) as Hs;
        revert Hs; destruct (stringifiable v); intros Hs; cbn [andb];
        [ destruct Hs as [s' ->]; cbn [mbind Result_bind]; apply IH
        | destruct Hs as [msg ->]; cbn [mbind Result_bind]; eauto ]
    end.
Qed.

Lemma str_stringifiable (t : TargetNode) :
  if forallb (fun kv => stringifiable kv.2) (map_to_list (attrs t))
  then exists s, str t = Ok s
  else exists msg, str t = Fatal msg.
Proof.
  unfold str, StringifyAttrsToRaw.
  pose proof (StringifyAttrsToRaw_loop_stringifiable (attrs t)
                (merge_sort String_le (map_to_list (attrs t)).*1) []) as Hl.
  assert (Heq : forallb (fun key => stringifiable (default ANone (attrs t !! key)))
                  (merge_sort String_le (map_to_list (attrs t)).*1)
                = forallb (fun kv => stringifiable kv.2) (map_to_list (attrs t))).
  { apply eq_true_iff_eq. rewrite !forallb_forall. split.
    - intros H [key v] Hin. apply list_elem_of_In in Hin.
      pose proof Hin as Hkv. apply elem_of_map_to_list in Hkv.
      specialize (H key). rewrite Hkv in H. apply H.
      apply list_elem_of_In. rewrite merge_sort_Permutation.
      apply list_elem_of_fmap. now exists (key, v).
    - intros H key Hin. apply list_elem_of_In in Hin.
      rewrite merge_sort_Permutation in Hin.
      apply list_elem_of_fmap in Hin as ([k v] & -> & Hkv).
      pose proof Hkv as Hlook. apply elem_of_map_to_list in Hlook. cbn [fst].
      rewrite Hlook. apply (H (k, v)). now apply list_elem_of_In. }
  rewrite Heq in Hl. destruct (forallb _ (map_to_list (attrs t))).
  - destruct Hl as [r ->]. cbn [mbind Result_bind].
    rewrite JoinString_Ok by discriminate. cbn [fmap Result_fmap]. eauto.
  - destruct Hl as [msg ->]. cbn [mbind Result_bind]. eauto.
Qed.
End Stringifiable.

Lemma forallb_false {A} (f : A -> bool) (l : list A) :
  forallb f l = false -> exists x, x ∈ l /\ f x = false.
Proof.
  induction l as [| x l IH]; [ discriminate | ]. cbn [forallb].
  destruct (f x) eqn:Hx.
  - intros H. destruct (IH H) as (y & Hy & Hfy). exists y. split; [ now right | exact Hfy ].
  - intros _. exists x. split; [ now left | exact Hx ].
Qed.

(** X22. a target has a string form exactly when each of its attributes is
    undefined, a boolean, an integer, a string, or an array of booleans,
    integers and strings; with any other attribute, such as a target, a map or
    an array that holds an array, the stringifier stops at the [LOG(FATAL)]
    of [StringifyAtomicType]. *)
Theorem str_Ok_iff {Reg : Registry} (t : TargetNode) :
  ((exists s, str t = Ok s)
   <-> forall key v, attrs t !! key = Some v -> stringifiable v = true)
  /\ ((exists msg, str t = Fatal msg)
      <-> exists key v, attrs t !! key = Some v /\ stringifiable v = false).
Proof.
  pose proof (str_stringifiable t) as Hs.
  destruct (forallb (fun kv => stringifiable kv.2) (map_to_list (attrs t))) eqn:Hall.
  - destruct Hs as [s Hs]. rewrite forallb_forall in Hall.
    assert (Hattrs : forall key v, attrs t !! key = Some v -> stringifiable v = true).
    { intros key v Hkv. apply (Hall (key, v)), list_elem_of_In.
      now apply elem_of_map_to_list. }
    split; [ split; [ intros _; exact Hattrs | eauto ] | ].
    split.
    + intros [msg Hmsg]. rewrite Hs in Hmsg. discriminate.
    + intros (key & v & Hkv & Hv). rewrite (Hattrs _ _ Hkv) in Hv. discriminate.
  - destruct Hs as [msg Hs].
    assert (Hbad : exists key v, attrs t !! key = Some v /\ stringifiable v = false).
    { apply forallb_false in Hall as ([key v] & Hin & Hv). exists key, v.
      split; [ | exact Hv ]. now apply elem_of_map_to_list. }
    split; [ split | ].
    + intros [s Hok]. rewrite Hs in Hok. discriminate.
    + intros Hattrs. destruct Hbad as (key & v & Hkv & Hv).
      rewrite (Hattrs _ _ Hkv) in Hv. discriminate.
    + split; [ intros _; exact Hbad | eauto ].
Qed.

(** X23. the string form of a target without attributes is the name of the
    kind, the keys flag when there are keys, and one space: the space that
    precedes the attributes is written even when there is none. *)
Theorem str_no_attrs {Reg : Registry} (t : TargetNode) :
  attrs t = ∅ ->
  exists keys_text, JoinString (keys t) "," = Ok keys_text
    /\ str t = Ok (kind t
                   ++ (if bool_decide (keys t = []) then [] else " -keys=" ++ keys_text)
                   ++ " ").
Proof.
  intros Hattrs. exists (JoinString_loop "," (keys t) true []).
  split; [ apply JoinString_Ok; discriminate | ].
  unfold str, StringifyAttrsToRaw. rewrite Hattrs, map_to_list_empty.
  cbn. case_bool_decide; cbn [negb]; now rewrite <- ?app_assoc.
Qed.

Lemma str_no_attrs_witness :
  let t := mkTargetNode "llvm" None [] ["cpu" : std_string; "arm" : std_string] ∅ ∅ in
  attrs t = ∅
  /\ exists keys_text, JoinString (keys t) "," = Ok keys_text
       /\ @str Demo.registry t
          = Ok (kind t
                ++ (if bool_decide (keys t = []) then [] else " -keys=" ++ keys_text)
                ++ " ").
Proof.
  intros t. split; [ reflexivity | ]. apply (@str_no_attrs Demo.registry t). reflexivity.
Defined.

(** ** Further properties: nested scopes *)

Lemma same_as_refl (t : Context.Target) : Context.same_as t t = true.
Proof. destruct t; [ reflexivity | ]. cbn. now apply bool_decide_eq_true. Qed.

Lemma run_Enter (ts : list Context.Target) (stack : list Context.Target) :
  Context.run (Context.Enter <$> ts) (Context.mkEntry stack)
  = Ok (Context.mkEntry (rev ts ++ stack)).
Proof.
  revert stack. induction ts as [| t ts IH]; intros stack; [ reflexivity | ].
  rewrite fmap_cons.
  change (Context.run (Context.Enter t :: (Context.Enter <$> ts)) (Context.mkEntry stack))
    with (Context.run (Context.Enter <$> ts) (Context.mkEntry (t :: stack))).
  rewrite IH. cbn [rev]. now rewrite <- app_assoc.
Qed.

Lemma run_Exit (ts : list Context.Target) (stack : list Context.Target) :
  Context.run (Context.Exit <$> ts) (Context.mkEntry (ts ++ stack))
  = Ok (Context.mkEntry stack).
Proof.
  induction ts as [| t ts IH]; [ reflexivity | ].
  rewrite fmap_cons.
  change (Context.run (Context.Exit t :: (Context.Exit <$> ts))
            (Context.mkEntry ((t :: ts) ++ stack)))
    with (ICHECK (Context.same_as t t)
            "Check failed: entry->context_stack.top().same_as(*this)"
            (Ok (Context.mkEntry (ts ++ stack)))
          ≫= Context.run (Context.Exit <$> ts)).
  rewrite same_as_refl. unfold ICHECK. cbn [mbind Result_bind]. exact IH.
Qed.

(** X24. scopes nest: after a list of targets is entered, the current target
    is the last one entered, and exiting them in the reverse order gives back
    the stack there was before. *)
Theorem scopes_nest (ts : list Context.Target) (entry : Context.TVMTargetThreadLocalEntry) :
  Context.run ((Context.Enter <$> ts) ++ (Context.Exit <$> rev ts)) entry = Ok entry
  /\ (forall allow_not_defined,
        Context.run (Context.Enter <$> ts) entry ≫= Context.Current allow_not_defined
        = match last ts with
          | Some t => Ok t
          | None => Context.Current allow_not_defined entry
          end).
Proof.
  destruct entry as [stack]. split.
  - rewrite run_app, run_Enter. cbn [mbind Result_bind]. apply run_Exit.
  - intros allow_not_defined. rewrite run_Enter. cbn [mbind Result_bind].
    destruct (last ts) as [t |] eqn:Hlast.
    + apply last_Some in Hlast as [ts' ->]. now rewrite rev_app_distr.
    + apply last_None in Hlast. now subst ts.
Qed.

(** ** Further properties: the host of a target *)

(** X25. WithHost sets the host and WithoutHost removes it, and neither
    changes another field: the host that was there before WithHost is
    forgotten, WithoutHost undoes WithHost on a target without host, and the
    string form of a target does not depend on its host. *)
Theorem WithHost_WithoutHost {Reg : Registry} (t h : TargetNode) :
  GetHost (WithHost t h) = Some h
  /\ GetHost (WithoutHost t) = None
  /\ WithoutHost (WithHost t h) = WithoutHost t
  /\ (forall h', WithHost (WithHost t h') h = WithHost t h)
  /\ (GetHost t = None <-> WithoutHost t = t)
  /\ str (WithHost t h) = str t
  /\ str (WithoutHost t) = str t.
Proof.
  destruct t as [kn [h0 |] tg ks at_ ft]; repeat split; try reflexivity; discriminate.
Qed.

(** ** Further properties: enclosing quotes *)

(** X26. Enclosing an escaped string in quotes gives a quoted string, which the
    escaped string alone never is, and Interpret removes the enclosing quotes
    and the escapes together: it reads the string back. *)
Theorem Interpret_Quote (s : std_string) :
  IsQuoted (Uninterpret s) = false
  /\ IsQuoted (Quote (Uninterpret s)) = true
  /\ Interpret (Quote (Uninterpret s)) = s.
Proof.
  split; [ apply IsQuoted_Uninterpret | ].
  split; [ apply IsQuoted_Quote_Uninterpret | apply Interpret_Quote_Uninterpret ].
Qed.

(** ** Further properties: the kind, the tag and the host of an assembled target *)

(** X27. In a target that FromConfig builds for a kind without parser hook,
    the kind is the registered one, there is no feature, the tag is the tag
    entry of the config, a string, or empty without such an entry, and the
    host is the target that the constructor builds from the host entry, or
    absent without such an entry. *)
Theorem FromConfig_tag_host {Reg : Registry}
    (FromString_rec : std_string -> Result TargetNode)
    (FromConfig_rec : gmap std_string Any -> Result TargetNode)
    (config : gmap std_string Any) (t : TargetNode) (kn : std_string) (knd : TargetKindNode) :
  FromConfig FromString_rec FromConfig_rec config = Ok t ->
  config !! kKind = Some (AStr kn) -> TargetKind_Get kn = Some knd ->
  target_parser knd = None ->
  kind t = name knd
  /\ features t = ∅
  /\ match config !! kTag with
     | Some v => v = AStr (tag t)
     | None => tag t = []
     end
  /\ match config !! kHost with
     | Some v =>
         exists h, ConstructorDispatcher FromString_rec FromConfig_rec [v] = Ok h
                   /\ host t = Some h
     | None => host t = None
     end.
Proof.
  intros X Hk Hreg Hpar. unfold FromConfig in X.
  apply ICHECK_Ok in X as [Hf X].
  apply bind_Ok in X as ([[kd feats] config1] & Hkind & X).
  apply bind_Ok in X as ([tg config2] & Htag & X).
  apply bind_Ok in X as (ks & Hkeys & X).
  apply bind_Ok in X as ([hst config3] & Hhost & X).
  apply bind_Ok in X as (at1 & Hat1 & X).
  apply bind_Ok in X as (at2 & Hat2 & X).
  apply bind_Ok in X as (at3 & Hat3 & X).
  injection X as <-. cbn [kind features tag host].
  rewrite Hk in Hkind. cbn [try_cast_String] in Hkind.
  unfold GetTargetKind in Hkind. rewrite Hreg in Hkind. cbn [mbind Result_bind] in Hkind.
  apply ICHECK_Ok in Hkind as [_ Hkind]. rewrite Hpar in Hkind.
  cbn [mbind Result_bind] in Hkind. injection Hkind as <- <- <-.
  split; [ reflexivity | ]. split; [ reflexivity | ].
  rewrite lookup_delete_ne in Htag by discriminate.
  assert (Hc2 : config2 = delete kTag (delete kKind config)
                /\ match config !! kTag with
                   | Some v => v = AStr tg
                   | None => tg = []
                   end).
  { destruct (config !! kTag) as [v |] eqn:Ht.
    - destruct v; cbn [try_cast_String] in Htag; try discriminate.
      now injection Htag as <- <-.
    - injection Htag as <- <-. split; [ | reflexivity ]. symmetry. apply delete_id.
      now rewrite lookup_delete_ne by discriminate. }
  destruct Hc2 as [-> Htg]. split; [ exact Htg | ].
  rewrite !lookup_delete_ne in Hhost by discriminate.
  destruct (config !! kHost) as [v |].
  - apply bind_Ok in Hhost as (h & Hh & Hhost). injection Hhost as <- _. eauto.
  - now injection Hhost as <- _.
Qed.

Lemma FromConfig_tag_host_witness :
  let h0 := mkTargetNode "llvm" None [] ["cpu" : std_string] ∅ ∅ in
  let config : gmap std_string Any :=
    list_to_map [(kKind, AStr "llvm"); (kTag, AStr "my tag"); (kHost, AStr "llvm")] in
  let t := mkTargetNode "llvm" (Some h0) "my tag" ["cpu" : std_string] ∅ ∅ in
  @TargetInternal_FromConfig Demo.registry 2 config = Ok t
  /\ kind t = name Demo.llvm
  /\ features t = ∅
  /\ match config !! kTag with
     | Some v => v = AStr (tag t)
     | None => tag t = []
     end
  /\ match config !! kHost with
     | Some v =>
         exists h, @ConstructorDispatcher Demo.registry
                     (@TargetInternal_FromString Demo.registry 1)
                     (@TargetInternal_FromConfig Demo.registry 1) [v] = Ok h
                   /\ host t = Some h
     | None => host t = None
     end.
Proof.
  intros h0 config t. split; [ vm_compute; reflexivity | ].
  apply (@FromConfig_tag_host Demo.registry (@TargetInternal_FromString Demo.registry 1)
           (@TargetInternal_FromConfig Demo.registry 1) config t "llvm" Demo.llvm);
    vm_compute; reflexivity.
Defined.

(** ** Further properties: a kind alone *)

(** X28. The name of a registered kind without hooks, alone and not the name of
    a tag, is the target of that kind with no tag and no host, the default
    keys of the kind without their duplicates, and the default attributes of
    the kind. *)
Theorem FromString_kind_alone {Reg : Registry} (fuel : nat) (s : std_string)
    (knd : TargetKindNode) :
  TargetTag_Get s = None -> TargetKind_Get s = Some knd ->
  preprocessor knd = None -> target_parser knd = None ->
  s <> [] -> s !! 0%nat <> Some "{"%char ->
  " "%char ∉ s -> quote ∉ s -> escape ∉ s ->
  TargetInternal_FromString (S fuel) s
  = Ok (mkTargetNode (name knd) None [] (DeduplicateKeys (default_keys knd))
          (key2default_ knd) ∅).
Proof.
  intros Htag Hreg Hpre Hpar Hnil Hbrace Hsp Hq He.
  cbn [TargetInternal_FromString]. unfold FromString. rewrite Htag.
  rewrite (bool_decide_eq_false_2 (s !! 0%nat = Some "{"%char)) by exact Hbrace.
  rewrite andb_false_r. unfold FromRawString.
  assert (Hlen : (0 <? length s)%nat = true) by (destruct s; [ congruence | reflexivity ]).
  rewrite Hlen. unfold ICHECK at 1.
  assert (Hsplit : SplitString s " " = Ok [s]).
  { rewrite SplitString_from_start. rewrite <- (app_nil_r s) at 1.
    rewrite SplitString_from_passes.
    - unfold SplitString_from. cbn [SplitString_loop negb]. unfold ICHECK.
      rewrite finish_word_absorb. cbn [app fst]. now rewrite bool_decide_eq_false_2.
    - apply passes_Forall, Forall_forall. intros c Hc. repeat split; intros ->; contradiction. }
  rewrite Hsplit. cbn [mbind Result_bind]. unfold GetTargetKind. rewrite Hreg.
  cbn [mbind Result_bind FromRawString_loop].
  unfold FromConfig, count.
  rewrite lookup_singleton_ne by discriminate.
  rewrite bool_decide_eq_false_2 by (intros [? ?]; discriminate).
  unfold ICHECK at 1. cbn [negb].
  rewrite lookup_singleton_eq. cbn [try_cast_String].
  unfold GetTargetKind. rewrite Hreg. cbn [mbind Result_bind].
  rewrite Hpre, Hpar.
  rewrite (bool_decide_eq_false_2 (is_Some None)) by (intros [? ?]; discriminate).
  unfold ICHECK at 1. cbn [negb andb mbind Result_bind].
  rewrite delete_singleton_eq, !lookup_empty. cbn [mbind Result_bind option_bind].
  rewrite bool_decide_eq_false_2 by (intros [? ?]; discriminate). cbn [negb app].
  rewrite delete_empty.
  rewrite lookup_empty. cbn [mbind Result_bind option_bind app].
  rewrite lookup_empty. cbn [mbind Result_bind].
  rewrite map_to_list_empty. cbn [FromConfig_attrs mbind Result_bind].
  rewrite lookup_empty. cbn [mbind Result_bind]. rewrite Hpre. cbn [mbind Result_bind].
  now rewrite (left_id_L ∅ (∪)).
Qed.

Lemma FromString_kind_alone_witness :
  @TargetInternal_FromString DeviceDemo.registry 1 "cuda"
  = Ok (mkTargetNode "cuda" None [] ["cuda" : std_string; "gpu" : std_string]
          {[ ("max_num_threads" : std_string) := AInt 1024 ]} ∅).
Proof.
  apply (@FromString_kind_alone DeviceDemo.registry 0 "cuda" DeviceDemo.cuda);
    try reflexivity; try discriminate;
    rewrite <- find_first_of_Some_elem; reflexivity.
Defined.

(** ** Further properties: the three forms of an option *)

Lemma RemovePrefixDashes_one (s : std_string) :
  s <> [] -> s !! 0%nat <> Some "-"%char -> RemovePrefixDashes ("-" ++ s) = Ok s.
Proof.
  intros Hnil Hhead. destruct s as [| c s]; [ congruence | ].
  unfold RemovePrefixDashes. change ("-" ++ c :: s) with ("-"%char :: c :: s).
  cbn [count_dashes]. rewrite Ascii.eqb_refl.
  destruct (Ascii.eqb_spec c "-") as [-> | _]; [ now contradict Hhead | ].
  reflexivity.
Qed.

Lemma FromRawString_loop_step (FromString_rec : std_string -> Result TargetNode)
    (target_str : std_string) (knd : TargetKindNode) (option : std_string)
    (options1 : list std_string) (config : gmap std_string Any)
    (n : nat) (key value : std_string) :
  (s ← RemovePrefixDashes option; ParseKVPair s (hd [] options1)) = Ok (n, key, value) ->
  FromRawString_loop FromString_rec target_str knd (option :: options1) config
  = (config ← try_catch
       (if count config key then
          THROW "ValueError"
            ("The key " ++ [dquote] ++ key ++ [dquote] ++ " appears more than once")
        else
          info ← FindTypeInfo knd key;
          parsed ← ParseType_str FromString_rec info value;
          Ok (<[key := parsed]> config))
       (fun e => Throw (mkError (err_kind e)
          (err_message e ++ ", during parsing target[" ++ [dquote] ++ key ++ [dquote] ++ "]")));
     match n, options1 with
     | 2%nat, _ :: options2 => FromRawString_loop FromString_rec target_str knd options2 config
     | 2%nat, [] => Ok config
     | _, _ => FromRawString_loop FromString_rec target_str knd options1 config
     end).
Proof.
  intros Hstep. cbn [FromRawString_loop].
  replace (match options1 with s :: _ => s | [] => [] end) with (hd [] options1)
    by (now destruct options1).
  rewrite Hstep. reflexivity.
Qed.

(** X29. The three forms of an option are read alike by the loop of
    FromRawString: a key followed by a value in the next word, when that word
    does not start with a dash, is the option key=value, and a key alone,
    followed by nothing or by a word that starts with a dash, is the option
    key=1. *)
Theorem FromRawString_loop_forms
    (FromString_rec : std_string -> Result TargetNode)
    (target_str : std_string) (knd : TargetKindNode) (k : std_string)
    (rest : list std_string) (config : gmap std_string Any) :
  k <> [] -> k !! 0%nat <> Some "-"%char -> "="%char ∉ k ->
  (forall v : std_string, v <> [] -> v !! 0%nat <> Some "-"%char ->
     FromRawString_loop FromString_rec target_str knd (("-" ++ k) :: v :: rest) config
     = FromRawString_loop FromString_rec target_str knd (("-" ++ k ++ "=" ++ v) :: rest) config)
  /\ (hd [] rest = [] \/ hd [] rest !! 0%nat = Some "-"%char ->
      FromRawString_loop FromString_rec target_str knd (("-" ++ k) :: rest) config
      = FromRawString_loop FromString_rec target_str knd (("-" ++ k ++ "=1") :: rest) config).
Proof.
  intros Hnil Hhead Heq.
  assert (Hkey : RemovePrefixDashes ("-" ++ k) = Ok k) by now apply RemovePrefixDashes_one.
  assert (Hflag : forall v : std_string, v <> [] ->
            forall s_next,
              (s ← RemovePrefixDashes ("-" ++ k ++ "=" ++ v); ParseKVPair s s_next)
              = Ok (1%nat, k, v)).
  { intros v Hv s_next. rewrite RemovePrefixDashes_one.
    - cbn [mbind Result_bind]. now apply ParseKVPair_split.
    - destruct k; [ congruence | discriminate ].
    - destruct k; [ congruence | exact Hhead ]. }
  assert (Hnone : find_first_of "=" k = None) by now apply find_first_of_None.
  split.
  - intros v Hv Hvhead.
    rewrite (FromRawString_loop_step _ _ _ _ _ _ 2%nat k v).
    + rewrite (FromRawString_loop_step _ _ _ _ _ _ 1%nat k v) by apply (Hflag v Hv).
      reflexivity.
    + rewrite Hkey. cbn [mbind Result_bind hd]. unfold ParseKVPair. rewrite Hnone.
      rewrite (bool_decide_eq_false_2 (v = [])) by exact Hv.
      now rewrite (bool_decide_eq_false_2 (v !! 0%nat = Some "-"%char)) by exact Hvhead.
  - intros Hnext.
    rewrite (FromRawString_loop_step _ _ _ _ _ _ 1%nat k "1").
    + rewrite (FromRawString_loop_step _ _ _ _ _ _ 1%nat k "1")
        by (apply (Hflag "1"); discriminate).
      reflexivity.
    + rewrite Hkey. cbn [mbind Result_bind]. unfold ParseKVPair. rewrite Hnone.
      destruct Hnext as [Hn | Hn].
      * now rewrite (bool_decide_eq_true_2 _ Hn).
      * rewrite (bool_decide_eq_true_2 _ Hn). now rewrite andb_false_r.
Qed.

Lemma FromRawString_loop_forms_witness :
  FromRawString_loop (fun _ => OutOfFuel) "llvm -mcpu a53 -link-params" Demo.llvm
    ["-mcpu" : std_string; "a53" : std_string; "-link-params" : std_string]
    {[ kKind := AStr "llvm" ]}
  = FromRawString_loop (fun _ => OutOfFuel) "llvm -mcpu a53 -link-params" Demo.llvm
      ["-mcpu=a53" : std_string; "-link-params" : std_string] {[ kKind := AStr "llvm" ]}.
Proof.
  destruct (FromRawString_loop_forms (fun _ => OutOfFuel) "llvm -mcpu a53 -link-params"
              Demo.llvm "mcpu" ["-link-params" : std_string] {[ kKind := AStr "llvm" ]})
    as [Hvalue _]; [ discriminate | discriminate | | ].
  { rewrite <- find_first_of_Some_elem. reflexivity. }
  apply (Hvalue "a53"); discriminate.
Defined.
